(** * Shallow embedding of the bcalm2 readers and writer of genome-graph-rs

    The Rust functions of [src/io/bcalm2/mod.rs] and [src/generic/mod.rs]
    are modelled as total Rocq functions returning an [Outcome]: a value,
    one of the crate's error values, or a panic (index out of bounds,
    [unwrap_or_else(panic!)], [unreachable!()], overflow in a debug build).

    Modelling choices, all instances of the generic parameters of the Rust
    code:
    - the alphabet is compact_genome's DNA alphabet (A, C, G, T);
    - the sequence store is a vector of sequences and a handle is the index
      of a sequence in it;
    - the graph is the petgraph-backed [NodeBigraphWrapper] of [types.rs]:
      nodes are numbered in creation order, each has an optional mirror,
      edges are numbered in creation order;
    - the edge data of the edge-centric graph is [PlainBCalm2NodeData]
      ([PetBCalm2EdgeGraph]), converted by the identity [From];
    - [f64] values are a type [F] with a parser and a ["{:.1}"] printer
      given as section variables: the code only stores and prints them;
    - description strings are ASCII text, for which Rust's
      [split_whitespace] splits at space, tab, LF, VT, FF and CR and the
      byte slices [&parameter[0..5]] never fall inside a character. *)

From Stdlib Require Import String Ascii.
From Stdlib Require Import List Arith Lia Bool NArith.
From Stdlib Require Import Sorted Permutation.
Import ListNotations.

Open Scope list_scope.

(* ------------------------------------------------------------------ *)
(** ** Errors and the outcome of a Rust computation *)

(** [BCalm2IoError] of [src/io/bcalm2/error.rs] (the variants the modelled
    functions can produce). *)
Inductive BCalm2IoError : Type :=
| BCalm2IdError (id : string)
| BCalm2LengthError (length sequence_length : nat)
| BCalm2UnknownParameterError (parameter : string)
| BCalm2DuplicateParameterError (parameter : string)
| BCalm2MalformedParameterError (parameter : string)
| BCalm2MissingParameterError (parameter : string)
| BCalm2NodeIdOutOfPrintingRange
| BCalm2NodeWithoutMirror
| BCalm2EdgeWithoutMirror.

(** [crate::error::Result<T>], extended by the panic of the thread. *)
Inductive Outcome (A : Type) : Type :=
| Ok (a : A)
| Err (e : BCalm2IoError)
| Panic.
Arguments Ok {A} a.
Arguments Err {A} e.
Arguments Panic {A}.

Definition bind {A B : Type} (m : Outcome A) (k : A -> Outcome B) : Outcome B :=
  match m with
  | Ok a => k a
  | Err e => Err e
  | Panic => Panic
  end.

Notation "x <- m ;; k" := (bind m (fun x => k))
  (at level 61, m at next level, right associativity).
Notation "' p <- m ;; k" := (bind m (fun p => k))
  (at level 61, p pattern, m at next level, right associativity).

Definition is_ok {A : Type} (m : Outcome A) : bool :=
  match m with Ok _ => true | _ => false end.

(* ------------------------------------------------------------------ *)
(** ** [Vec] operations with Rust's bounds checks *)

(** [v[i]]: panics out of range. *)
Definition vget {A : Type} (v : list A) (i : nat) : Outcome A :=
  match nth_error v i with
  | Some a => Ok a
  | None => Panic
  end.

Fixpoint update {A : Type} (v : list A) (i : nat) (x : A) : list A :=
  match v, i with
  | [], _ => []
  | _ :: v', 0 => x :: v'
  | a :: v', S i' => a :: update v' i' x
  end.

(** [v[i] = x]: panics out of range. *)
Definition vset {A : Type} (v : list A) (i : nat) (x : A) : Outcome (list A) :=
  if i <? length v then Ok (update v i x) else Panic.

(** [v.resize(n, x)] *)
Definition resize {A : Type} (v : list A) (n : nat) (x : A) : list A :=
  firstn n v ++ repeat x (n - length v).

(* ------------------------------------------------------------------ *)
(** ** DNA alphabet and sequences (compact_genome) *)

Inductive DnaCharacter : Type := DA | DC | DG | DT.

Definition dna_eqb (a b : DnaCharacter) : bool :=
  match a, b with
  | DA, DA | DC, DC | DG, DG | DT, DT => true
  | _, _ => false
  end.

Definition complement (c : DnaCharacter) : DnaCharacter :=
  match c with DA => DT | DC => DG | DG => DC | DT => DA end.

(** [DnaAlphabet::ascii_to_character]: only the upper-case letters. *)
Definition ascii_to_character (b : ascii) : option DnaCharacter :=
  if Ascii.eqb b "A"%char then Some DA
  else if Ascii.eqb b "C"%char then Some DC
  else if Ascii.eqb b "G"%char then Some DG
  else if Ascii.eqb b "T"%char then Some DT
  else None.

Definition character_to_ascii (c : DnaCharacter) : ascii :=
  match c with DA => "A" | DC => "C" | DG => "G" | DT => "T" end%char.

Definition Genome := list DnaCharacter.

Fixpoint genome_eqb (x y : Genome) : bool :=
  match x, y with
  | [], [] => true
  | a :: x', b :: y' => dna_eqb a b && genome_eqb x' y'
  | _, _ => false
  end.

(** [reverse_complement_iter] / [clone_as_reverse_complement] *)
Definition reverse_complement (s : Genome) : Genome := rev (map complement s).

(** [sequence.prefix(n)] is [&self[0..n]] and [sequence.suffix(n)] is
    [&self[len - n..len]]: both panic when [n > len]. *)
Definition prefix (s : Genome) (n : nat) : Outcome Genome :=
  if n <=? length s then Ok (firstn n s) else Panic.
Definition suffix (s : Genome) (n : nat) : Outcome Genome :=
  if n <=? length s then Ok (skipn (length s - n) s) else Panic.

(** The sequence store: a vector of genomes, the handle is the index. *)
Definition SequenceStore := list Genome.
Definition Handle := nat.

(** [add_from_slice_u8]: fails when a byte is not a character of the
    alphabet; otherwise appends the sequence and returns its handle. *)
Fixpoint decode (bytes : list ascii) : option Genome :=
  match bytes with
  | [] => Some []
  | b :: bs =>
      match ascii_to_character b, decode bs with
      | Some c, Some g => Some (c :: g)
      | _, _ => None
      end
  end.

Definition add_from_slice_u8 (store : SequenceStore) (bytes : list ascii)
  : option (Handle * SequenceStore) :=
  match decode bytes with
  | Some g => Some (length store, store ++ [g])
  | None => None
  end.

Definition store_get (store : SequenceStore) (h : Handle) : Genome :=
  nth h store [].

(* ------------------------------------------------------------------ *)
(** ** Text helpers: Rust's [str::split], [split_whitespace], [usize::from_str] *)

(** [s.split(sep)] on a byte string: all pieces, empty ones included. *)
Fixpoint split_by (sep : ascii -> bool) (l : list ascii) : list (list ascii) :=
  match l with
  | [] => [[]]
  | c :: l' =>
      if sep c then [] :: split_by sep l'
      else match split_by sep l' with
           | [] => [[c]]
           | p :: ps => (c :: p) :: ps
           end
  end.

(** [char::is_whitespace] restricted to ASCII. *)
Definition is_ascii_whitespace (c : ascii) : bool :=
  let n := nat_of_ascii c in
  (n =? 32) || (9 <=? n) && (n <=? 13).

(** [s.split_whitespace()]: the non-empty pieces between whitespace runs. *)
Definition split_whitespace (s : string) : list string :=
  map string_of_list_ascii
    (filter (fun p => negb (match p with [] => true | _ => false end))
       (split_by is_ascii_whitespace (list_ascii_of_string s))).

Definition split_colon (s : string) : list string :=
  map string_of_list_ascii
    (split_by (fun c => Ascii.eqb c ":"%char) (list_ascii_of_string s)).

Fixpoint digits_value (s : string) (acc : N) : option N :=
  match s with
  | EmptyString => Some acc
  | String c s' =>
      let n := nat_of_ascii c in
      if (48 <=? n) && (n <=? 57)
      then digits_value s' (acc * 10 + N.of_nat (n - 48))%N
      else None
  end.

(** [<usize as FromStr>::from_str] on a 64-bit target: an optional [+]
    followed by at least one decimal digit, value below [2^64]. *)
Definition parse_usize (s : string) : option nat :=
  let v :=
    match s with
    | EmptyString => None
    | String c EmptyString =>
        if Ascii.eqb c "+"%char then None else digits_value s 0
    | String c rest =>
        if Ascii.eqb c "+"%char then digits_value rest 0 else digits_value s 0
    end in
  match v with
  | Some n => if (n <? 2 ^ 64)%N then Some (N.to_nat n) else None
  | None => None
  end.

(** Decimal printing of a [usize] ([write!("{}")]). *)
Fixpoint digits_rev (fuel n : nat) : list ascii :=
  match fuel with
  | 0 => []
  | S fuel' =>
      ascii_of_nat (48 + n mod 10)
        :: (if n <? 10 then [] else digits_rev fuel' (n / 10))
  end.

Definition nat_to_string (n : nat) : string :=
  string_of_list_ascii (rev (digits_rev (S n) n)).

Section Bcalm2.

(** The [f64] type, [<f64 as FromStr>::from_str] and ["{:.1}"]. *)
Variable F : Type.
Variable parse_f64 : string -> option F.
Variable fmt_f64_1 : F -> string.

(* ------------------------------------------------------------------ *)
(** ** [PlainBCalm2Edge], [PlainBCalm2NodeData] *)

(** [PlainBCalm2Edge]: [true] means [+], [false] means [-]. *)
Record PlainBCalm2Edge : Type := {
  from_side : bool;
  to_node : nat;
  to_side : bool
}.

(** The derived [PartialEq] of [PlainBCalm2Edge]. *)
Definition edge_eqb (e1 e2 : PlainBCalm2Edge) : bool :=
  Bool.eqb (from_side e1) (from_side e2) && (to_node e1 =? to_node e2)
  && Bool.eqb (to_side e1) (to_side e2).

Record PlainBCalm2NodeData : Type := {
  id : nat;
  sequence_handle : Handle;
  forwards : bool;
  length : option nat;
  total_abundance : option nat;
  mean_abundance : option F;
  edges : list PlainBCalm2Edge
}.

(** [BidirectedData::mirror]: clone, then negate [forwards]. *)
Definition mirror_data (d : PlainBCalm2NodeData) : PlainBCalm2NodeData :=
  {| id := id d; sequence_handle := sequence_handle d;
     forwards := negb (forwards d); length := length d;
     total_abundance := total_abundance d;
     mean_abundance := mean_abundance d; edges := edges d |}.

(** The hand-written [PartialEq]: handle and orientation only. *)
Definition data_eqb (d1 d2 : PlainBCalm2NodeData) : bool :=
  (sequence_handle d1 =? sequence_handle d2) && Bool.eqb (forwards d1) (forwards d2).

(** [SequenceData::sequence_ref]: [Some] of the stored sequence when
    [forwards], [None] otherwise. *)
Definition sequence_ref (d : PlainBCalm2NodeData) (store : SequenceStore)
  : option Genome :=
  if forwards d then Some (store_get store (sequence_handle d)) else None.

(** [SequenceData::sequence_owned] *)
Definition sequence_owned (d : PlainBCalm2NodeData) (store : SequenceStore) : Genome :=
  if forwards d then store_get store (sequence_handle d)
  else reverse_complement (store_get store (sequence_handle d)).

(* ------------------------------------------------------------------ *)
(** ** [parse_bcalm2_fasta_record] *)

(** A [bio::io::fasta::Record]: id, optional description, sequence bytes. *)
Record FastaRecord : Type := {
  record_id : string;
  record_desc : option string;
  record_seq : list ascii
}.

Definition ParsedParameters : Type :=
  (option nat * option nat * option F * list PlainBCalm2Edge)%type.

(** The closure [forward_reverse_to_bool]. *)
Definition forward_reverse_to_bool (parameter c : string) : Outcome bool :=
  if String.eqb c "+" then Ok true
  else if String.eqb c "-" then Ok false
  else Err (BCalm2MalformedParameterError parameter).

(** One iteration of the loop over the description's parameters. *)
Definition parse_parameter (acc : ParsedParameters) (parameter : string)
  : Outcome ParsedParameters :=
  let '(length, total_abundance, mean_abundance, edges) := acc in
  if String.length parameter <? 5 then
    Err (BCalm2UnknownParameterError parameter)
  else
    let head5 := substring 0 5 parameter in
    let rest := substring 5 (String.length parameter - 5) parameter in
    if String.eqb head5 "LN:i:" then
      match length with
      | Some _ => Err (BCalm2DuplicateParameterError parameter)
      | None =>
          match parse_usize rest with
          | Some n => Ok (Some n, total_abundance, mean_abundance, edges)
          | None => Err (BCalm2MalformedParameterError parameter)
          end
      end
    else if String.eqb head5 "KC:i:" then
      match total_abundance with
      | Some _ => Err (BCalm2DuplicateParameterError parameter)
      | None =>
          match parse_usize rest with
          | Some n => Ok (length, Some n, mean_abundance, edges)
          | None => Err (BCalm2MalformedParameterError parameter)
          end
      end
    else if String.eqb head5 "KM:f:" || String.eqb head5 "km:f:" then
      match mean_abundance with
      | Some _ => Err (BCalm2DuplicateParameterError parameter)
      | None =>
          match parse_f64 rest with
          | Some x => Ok (length, total_abundance, Some x, edges)
          | None => Err (BCalm2MalformedParameterError parameter)
          end
      end
    else if String.eqb (substring 0 2 parameter) "L:" then
      match split_colon parameter with
      | [_; p1; p2; p3] =>
          from_side <- forward_reverse_to_bool parameter p1 ;;
          to_node <- match parse_usize p2 with
                     | Some n => Ok n
                     | None => Err (BCalm2MalformedParameterError parameter)
                     end ;;
          to_side <- forward_reverse_to_bool parameter p3 ;;
          Ok (length, total_abundance, mean_abundance,
              edges ++ [{| from_side := from_side; to_node := to_node;
                           to_side := to_side |}])
      | _ => Err (BCalm2MalformedParameterError parameter)
      end
    else Err (BCalm2UnknownParameterError parameter).

Fixpoint parse_parameters (acc : ParsedParameters) (parameters : list string)
  : Outcome ParsedParameters :=
  match parameters with
  | [] => Ok acc
  | p :: ps => acc' <- parse_parameter acc p ;; parse_parameters acc' ps
  end.

(** The loop over the whitespace-split description (empty when absent). *)
Definition description_parameters (record : FastaRecord) : Outcome ParsedParameters :=
  parse_parameters (None, None, None, [])
    (split_whitespace (match record_desc record with
                       | Some d => d | None => EmptyString end)).

(** [parse_bcalm2_fasta_record]: parse the id, add the sequence to the
    store (panicking on a character outside the alphabet), parse the
    parameters, check the declared length. *)
Definition parse_bcalm2_fasta_record (record : FastaRecord) (store : SequenceStore)
  : Outcome (PlainBCalm2NodeData * SequenceStore) :=
  id <- match parse_usize (record_id record) with
        | Some n => Ok n
        | None => Err (BCalm2IdError (record_id record))
        end ;;
  match add_from_slice_u8 store (record_seq record) with
  | None => Panic
  | Some (sequence_handle, store') =>
      let sequence := store_get store' sequence_handle in
      '(length, total_abundance, mean_abundance, edges) <-
        description_parameters record ;;
      _ <- match length with
      | Some l =>
          if negb (l =? List.length sequence)
          then Err (BCalm2LengthError l (List.length sequence))
          else Ok tt
      | None => Ok tt
      end ;;
      Ok ({| id := id; sequence_handle := sequence_handle; forwards := true;
             length := length; total_abundance := total_abundance;
             mean_abundance := mean_abundance; edges := edges |}, store')
  end.


(* ------------------------------------------------------------------ *)
(** ** The bigraph container ([NodeBigraphWrapper] over petgraph) *)

(** Nodes are [0 .. length mirrors - 1]; [mirrors] is the [binode_map]
    ([None] for a node whose mirror is not set yet).  Edge [i] is the
    [i]-th element of [graph_edges]: (from, to, data). *)
Record Graph : Type := {
  mirrors : list (option nat);
  graph_edges : list (nat * nat * PlainBCalm2NodeData)
}.

Definition empty_graph : Graph := {| mirrors := []; graph_edges := [] |}.

Definition node_count (g : Graph) : nat := List.length (mirrors g).
Definition edge_count (g : Graph) : nat := List.length (graph_edges g).

(** [add_node]: the new node gets the next index. *)
Definition add_node (g : Graph) : nat * Graph :=
  (List.length (mirrors g),
   {| mirrors := mirrors g ++ [None]; graph_edges := graph_edges g |}).

(** [set_mirror_nodes(a, b)] *)
Definition set_mirror_nodes (g : Graph) (a b : nat) : Outcome Graph :=
  m <- vset (mirrors g) a (Some b) ;;
  m <- vset m b (Some a) ;;
  Ok {| mirrors := m; graph_edges := graph_edges g |}.

(** [mirror_node(n)] *)
Definition mirror_node (g : Graph) (n : nat) : option nat :=
  match nth_error (mirrors g) n with
  | Some (Some m) => Some m
  | _ => None
  end.

(** [add_edge(from, to, data)]: petgraph panics on a missing endpoint. *)
Definition add_edge (g : Graph) (from to : nat) (d : PlainBCalm2NodeData)
  : Outcome Graph :=
  if (from <? node_count g) && (to <? node_count g)
  then Ok {| mirrors := mirrors g; graph_edges := graph_edges g ++ [(from, to, d)] |}
  else Panic.

Definition edge_from (e : nat * nat * PlainBCalm2NodeData) : nat :=
  let '(f, _, _) := e in f.
Definition edge_to (e : nat * nat * PlainBCalm2NodeData) : nat :=
  let '(_, t, _) := e in t.
Definition edge_data (e : nat * nat * PlainBCalm2NodeData) : PlainBCalm2NodeData :=
  let '(_, _, d) := e in d.

Fixpoint indexed {A : Type} (start : nat) (l : list A) : list (nat * A) :=
  match l with
  | [] => []
  | a :: l' => (start, a) :: indexed (S start) l'
  end.

(** [out_neighbors(n)]: the ids of the edges leaving [n], in petgraph's
    order (the most recently added edge first). *)
Definition out_edges (g : Graph) (n : nat) : list nat :=
  rev (map fst (filter (fun ie => edge_from (snd ie) =? n)
                  (indexed 0 (graph_edges g)))).

(** [mirror_edge_edge_centric(e)]: the first edge from [mirror(to e)] to
    [mirror(from e)] whose data equals [mirror(data e)]. *)
Definition mirror_edge_edge_centric (g : Graph) (e : nat) : option nat :=
  match nth_error (graph_edges g) e with
  | None => None
  | Some (f, t, d) =>
      match mirror_node g t, mirror_node g f with
      | Some rf, Some rt =>
          find (fun e' =>
                  match nth_error (graph_edges g) e' with
                  | Some (f', t', d') => (t' =? rt) && data_eqb (mirror_data d) d'
                  | None => false
                  end) (out_edges g rf)
      | _, _ => None
      end
  end.

(* ------------------------------------------------------------------ *)
(** ** [MappedNode] (src/generic/mod.rs) *)

Inductive MappedNode : Type :=
| Unmapped
| Normal (forward backward : nat)
| SelfMirror (node : nat).

(** [MappedNode::mirror] *)
Definition mirror (m : MappedNode) : MappedNode :=
  match m with
  | Unmapped => Unmapped
  | Normal forward backward => Normal backward forward
  | SelfMirror node => SelfMirror node
  end.

(** The [PartialEq] of [MappedNode]. *)
Definition mapped_eqb (m1 m2 : MappedNode) : bool :=
  match m1, m2 with
  | Unmapped, Unmapped => true
  | Normal f1 b1, Normal f2 b2 => (f1 =? f2) && (b1 =? b2)
  | SelfMirror n1, SelfMirror n2 => n1 =? n2
  | _, _ => false
  end.


(* ------------------------------------------------------------------ *)
(** ** [read_bigraph_from_bcalm2_as_edge_centric] *)

(** [edge.to_node * 2 + if edge.to_side { 0 } else { 1 }]: the location
    of the to_node of the edge in the node map. *)
Definition edge_slot (e : PlainBCalm2Edge) : nat :=
  to_node e * 2 + (if to_side e then 0 else 1).

(** The head block ([side = false], slot [n1]) reads and writes
    [if !edge.to_side { v } else { v.mirror() }], the tail block
    ([side = true], slot [n2]) [if edge.to_side { v } else { v.mirror() }]:
    the value is mirrored when the edge changes sides. *)
Definition oriented (side : bool) (e : PlainBCalm2Edge) (v : MappedNode) : MappedNode :=
  if Bool.eqb (to_side e) side then v else mirror v.

(** The edges scanned by a block: [.filter(|edge| !edge.from_side)] for
    the head, [.filter(|edge| edge.from_side)] for the tail. *)
Definition relevant_edges (side : bool) (es : list PlainBCalm2Edge) : list PlainBCalm2Edge :=
  filter (fun e => Bool.eqb (from_side e) side) es.

(** The search loop: grow the map to cover the neighbour's slot, adopt
    the first mapped neighbour and [break]. *)
Fixpoint search_neighbors (side : bool) (n : nat) (node_map : list MappedNode)
    (es : list PlainBCalm2Edge) : Outcome (list MappedNode * bool) :=
  match es with
  | [] => Ok (node_map, false)
  | e :: es' =>
      let to := edge_slot e in
      let node_map :=
        if List.length node_map <=? to then resize node_map (to + 1) Unmapped
        else node_map in
      v <- vget node_map to ;;
      if negb (mapped_eqb v Unmapped) then
        node_map <- vset node_map n (oriented side e v) ;;
        Ok (node_map, true)
      else search_neighbors side n node_map es'
  end.

(** A fresh binode: one self-mirror node, or two mutually mirrored nodes. *)
Definition create_binode (self_mirror : bool) (g : Graph) : Outcome (MappedNode * Graph) :=
  if self_mirror then
    let '(s, g) := add_node g in
    g <- set_mirror_nodes g s s ;;
    Ok (SelfMirror s, g)
  else
    let '(f, g) := add_node g in
    let '(r, g) := add_node g in
    g <- set_mirror_nodes g f r ;;
    Ok (Normal f r, g).

(** The loop "Assign the new node also to the neighbors": an unconditional
    write into each neighbour's slot (indexing panics out of range). *)
Fixpoint assign_to_neighbors (side : bool) (n : nat) (node_map : list MappedNode)
    (es : list PlainBCalm2Edge) : Outcome (list MappedNode) :=
  match es with
  | [] => Ok node_map
  | e :: es' =>
      v <- vget node_map n ;;
      node_map <- vset node_map (edge_slot e) (oriented side e v) ;;
      assign_to_neighbors side n node_map es'
  end.

(** Search, then create a binode if no neighbour was found. *)
Definition search_or_create (side : bool) (n : nat) (self_mirror : bool)
    (relevant : list PlainBCalm2Edge) (node_map : list MappedNode) (g : Graph)
  : Outcome (list MappedNode * Graph * bool) :=
  '(node_map, assign) <- search_neighbors side n node_map relevant ;;
  v <- vget node_map n ;;
  if mapped_eqb v Unmapped then
    '(b, g) <- create_binode self_mirror g ;;
    node_map <- vset node_map n b ;;
    Ok (node_map, g, true)
  else Ok (node_map, g, assign).

(** "If the record has no known incoming binode yet" *)
Definition resolve_head (n1 : nat) (n1_is_self_mirror : bool)
    (es : list PlainBCalm2Edge) (node_map : list MappedNode) (g : Graph)
  : Outcome (list MappedNode * Graph) :=
  v <- vget node_map n1 ;;
  if mapped_eqb v Unmapped then
    let relevant := relevant_edges false es in
    '(node_map, g, assign) <- search_or_create false n1 n1_is_self_mirror relevant node_map g ;;
    node_map <- (if assign then assign_to_neighbors false n1 node_map relevant
                 else Ok node_map) ;;
    Ok (node_map, g)
  else Ok (node_map, g).

(** The self-mirror-edge shortcut of the tail block:
    [node_map[n2] = node_map[n1].mirror()]. *)
Definition tail_shortcut (n1 n2 : nat) (node_map : list MappedNode)
  : Outcome (list MappedNode) :=
  v1 <- vget node_map n1 ;;
  vset node_map n2 (mirror v1).

(** "If the record has no known outgoing binode yet" *)
Definition resolve_tail (n1 n2 : nat) (n2_is_self_mirror edge_is_self_mirror : bool)
    (es : list PlainBCalm2Edge) (node_map : list MappedNode) (g : Graph)
  : Outcome (list MappedNode * Graph) :=
  v <- vget node_map n2 ;;
  if mapped_eqb v Unmapped then
    let relevant := relevant_edges true es in
    '(node_map, g, assign) <-
      (if edge_is_self_mirror then
         node_map <- tail_shortcut n1 n2 node_map ;;
         Ok (node_map, g, true)
       else search_or_create true n2 n2_is_self_mirror relevant node_map g) ;;
    node_map <- (if assign then assign_to_neighbors true n2 node_map relevant
                 else Ok node_map) ;;
    Ok (node_map, g)
  else Ok (node_map, g).

(** [sequence.iter().zip(sequence.reverse_complement_iter())
     .take(kmer_size - 1).all(|(a, b)| *a == b)] *)
Definition edge_is_self_mirror (kmer_size : nat) (sequence : Genome) : bool :=
  forallb (fun ab => dna_eqb (fst ab) (snd ab))
    (firstn (kmer_size - 1) (combine sequence (reverse_complement sequence))).

(** [match node_map[n] { Unmapped => unreachable!(), Normal {..} => (forward,
    backward), SelfMirror(node) => (node, node) }] *)
Definition endpoints_of (v : MappedNode) : Outcome (nat * nat) :=
  match v with
  | Unmapped => Panic
  | Normal forward backward => Ok (forward, backward)
  | SelfMirror node => Ok (node, node)
  end.

Definition head_self_mirror_edge (record : PlainBCalm2NodeData) : PlainBCalm2Edge :=
  {| from_side := false; to_node := id record; to_side := true |}.
Definition tail_self_mirror_edge (record : PlainBCalm2NodeData) : PlainBCalm2Edge :=
  {| from_side := true; to_node := id record; to_side := false |}.

(** The body of the loop over the records, after parsing the record. *)
Definition build_step (kmer_size : nat) (store : SequenceStore)
    (record : PlainBCalm2NodeData) (node_map : list MappedNode) (g : Graph)
  : Outcome (list MappedNode * Graph) :=
  let sequence := store_get store (sequence_handle record) in
  (* [kmer_size - 1] overflows (debug build) for [kmer_size = 0] *)
  _ <- (if kmer_size =? 0 then Panic else Ok tt) ;;
  let esm := edge_is_self_mirror kmer_size sequence in
  let n1 := id record * 2 in
  let n2 := id record * 2 + 1 in
  let n1_is_self_mirror := existsb (edge_eqb (head_self_mirror_edge record)) (edges record) in
  let n2_is_self_mirror := existsb (edge_eqb (tail_self_mirror_edge record)) (edges record) in
  let node_map :=
    if List.length node_map <=? n2 then resize node_map (n2 + 1) Unmapped else node_map in
  '(node_map, g) <- resolve_head n1 n1_is_self_mirror (edges record) node_map g ;;
  '(node_map, g) <- resolve_tail n1 n2 n2_is_self_mirror esm (edges record) node_map g ;;
  v1 <- vget node_map n1 ;;
  '(n1f, n1r) <- endpoints_of v1 ;;
  v2 <- vget node_map n2 ;;
  '(n2f, n2r) <- endpoints_of v2 ;;
  g <- add_edge g n1f n2f record ;;
  g <- add_edge g n2r n1r (mirror_data record) ;;
  Ok (node_map, g).

(** The loop over the records, with the node map, graph and store. *)
Fixpoint edge_centric_loop (kmer_size : nat) (records : list FastaRecord)
    (store : SequenceStore) (node_map : list MappedNode) (g : Graph)
  : Outcome (list MappedNode * Graph * SequenceStore) :=
  match records with
  | [] => Ok (node_map, g, store)
  | r :: rs =>
      '(record, store) <- parse_bcalm2_fasta_record r store ;;
      '(node_map, g) <- build_step kmer_size store record node_map g ;;
      edge_centric_loop kmer_size rs store node_map g
  end.

(** [read_bigraph_from_bcalm2_as_edge_centric]: the graph and the store. *)
Definition read_bigraph_from_bcalm2_as_edge_centric (records : list FastaRecord)
    (store : SequenceStore) (kmer_size : nat) : Outcome (Graph * SequenceStore) :=
  '(_, g, store) <- edge_centric_loop kmer_size records store [] empty_graph ;;
  Ok (g, store).


(* ------------------------------------------------------------------ *)
(** ** [read_bigraph_from_bcalm2_as_edge_centric_old] *)

(** The [HashMap<Genome, NodeIndex>] as an association list. *)
Fixpoint id_map_get (id_map : list (Genome * nat)) (k : Genome) : option nat :=
  match id_map with
  | [] => None
  | (k', v) :: m => if genome_eqb k k' then Some v else id_map_get m k
  end.

Definition id_map_insert (id_map : list (Genome * nat)) (k : Genome) (v : nat)
  : list (Genome * nat) :=
  (k, v) :: filter (fun kv => negb (genome_eqb k (fst kv))) id_map.

(** [get_or_create_node] *)
Definition get_or_create_node (g : Graph) (id_map : list (Genome * nat)) (genome : Genome)
  : Outcome (nat * Graph * list (Genome * nat)) :=
  match id_map_get id_map genome with
  | Some node => Ok (node, g, id_map)
  | None =>
      let '(node, g) := add_node g in
      let rc := reverse_complement genome in
      if genome_eqb rc genome then
        g <- set_mirror_nodes g node node ;;
        Ok (node, g, id_map_insert id_map genome node)
      else
        let '(mirror_node, g) := add_node g in
        let id_map := id_map_insert id_map rc mirror_node in
        g <- set_mirror_nodes g node mirror_node ;;
        Ok (node, g, id_map_insert id_map genome node)
  end.

(** The body of the loop of the old reader, after parsing the record. *)
Definition old_step (node_kmer_size : nat) (store : SequenceStore)
    (record : PlainBCalm2NodeData) (id_map : list (Genome * nat)) (g : Graph)
  : Outcome (list (Genome * nat) * Graph) :=
  let sequence := store_get store (sequence_handle record) in
  pre <- prefix sequence node_kmer_size ;;
  suf <- suffix sequence node_kmer_size ;;
  let pre_plus := pre in
  let pre_minus := reverse_complement suf in
  let succ_plus := suf in
  let succ_minus := reverse_complement pre in
  '(pre_plus, g, id_map) <- get_or_create_node g id_map pre_plus ;;
  '(pre_minus, g, id_map) <- get_or_create_node g id_map pre_minus ;;
  '(succ_plus, g, id_map) <- get_or_create_node g id_map succ_plus ;;
  '(succ_minus, g, id_map) <- get_or_create_node g id_map succ_minus ;;
  g <- add_edge g pre_plus succ_plus record ;;
  g <- add_edge g pre_minus succ_minus (mirror_data record) ;;
  Ok (id_map, g).

Fixpoint old_loop (node_kmer_size : nat) (records : list FastaRecord)
    (store : SequenceStore) (id_map : list (Genome * nat)) (g : Graph)
  : Outcome (Graph * SequenceStore) :=
  match records with
  | [] => Ok (g, store)
  | r :: rs =>
      '(record, store) <- parse_bcalm2_fasta_record r store ;;
      '(id_map, g) <- old_step node_kmer_size store record id_map g ;;
      old_loop node_kmer_size rs store id_map g
  end.

(** [verify_node_pairing] of the bigraph crate: every node has a mirror
    whose mirror is the node. *)
Definition verify_node_pairing (g : Graph) : bool :=
  forallb (fun n =>
             match mirror_node g n with
             | Some m => (m <? node_count g) && match mirror_node g m with
                                                 | Some n' => n' =? n
                                                 | None => false
                                                 end
             | None => false
             end) (seq 0 (node_count g)).

(** [verify_edge_mirror_property] of the bigraph crate: every edge has a
    mirror edge. *)
Definition verify_edge_mirror_property (g : Graph) : bool :=
  forallb (fun e => match mirror_edge_edge_centric g e with
                    | Some _ => true
                    | None => false
                    end) (seq 0 (edge_count g)).

(** [read_bigraph_from_bcalm2_as_edge_centric_old]; the two
    [debug_assert!]s at the end are checked (debug build). *)
Definition read_bigraph_from_bcalm2_as_edge_centric_old (records : list FastaRecord)
    (store : SequenceStore) (kmer_size : nat) : Outcome (Graph * SequenceStore) :=
  _ <- (if kmer_size =? 0 then Panic else Ok tt) ;;
  let node_kmer_size := kmer_size - 1 in
  '(g, store) <- old_loop node_kmer_size records store [] empty_graph ;;
  if verify_node_pairing g && verify_edge_mirror_property g
  then Ok (g, store) else Panic.


(* ------------------------------------------------------------------ *)
(** ** [write_edge_centric_bigraph_to_bcalm2] *)

Definition side_string (b : bool) : string := if b then "+" else "-".

(** Append a token, with a separating space when [result] is not empty. *)
Definition push_token (result token : string) : string :=
  match result with
  | EmptyString => token
  | _ => result ++ " " ++ token
  end.

(** [write_plain_bcalm2_node_data_to_bcalm2] *)
Definition write_plain_bcalm2_node_data_to_bcalm2 (node : PlainBCalm2NodeData)
    (out_neighbors : list (bool * nat * bool)) : Outcome string :=
  let result := EmptyString in
  let result := match length node with
                | Some l => push_token result ("LN:i:" ++ nat_to_string l)
                | None => result
                end in
  let result := match total_abundance node with
                | Some t => push_token result ("KC:i:" ++ nat_to_string t)
                | None => result
                end in
  let result := match mean_abundance node with
                | Some m => push_token result ("km:f:" ++ fmt_f64_1 m)
                | None => result
                end in
  Ok (fold_left (fun result '(node_type, neighbor_id, neighbor_type) =>
                   push_token result ("L:" ++ side_string node_type ++ ":"
                                      ++ nat_to_string neighbor_id ++ ":"
                                      ++ side_string neighbor_type))
                out_neighbors result).

(** The order of [(bool, usize, bool)] tuples. *)
Definition tuple_leb (x y : bool * nat * bool) : bool :=
  let '(a1, b1, c1) := x in
  let '(a2, b2, c2) := y in
  if Bool.eqb a1 a2 then
    if b1 =? b2 then implb c1 c2 else b1 <? b2
  else implb a1 a2.

Fixpoint insert_sorted (x : bool * nat * bool) (l : list (bool * nat * bool))
  : list (bool * nat * bool) :=
  match l with
  | [] => [x]
  | y :: l' => if tuple_leb x y then x :: l else y :: insert_sorted x l'
  end.

(** [sort_unstable]: on a total order on plain tuples, every sort yields
    the same list. *)
Definition sort_tuples (l : list (bool * nat * bool)) : list (bool * nat * bool) :=
  fold_right insert_sorted [] l.

Definition ok_or {A : Type} (o : option A) (e : BCalm2IoError) : Outcome A :=
  match o with Some a => Ok a | None => Err e end.

Fixpoint map_outcome {A B : Type} (f : A -> Outcome B) (l : list A) : Outcome (list B) :=
  match l with
  | [] => Ok []
  | a :: l' => b <- f a ;; bs <- map_outcome f l' ;; Ok (b :: bs)
  end.

Definition graph_edge (g : Graph) (e : nat) : Outcome (nat * nat * PlainBCalm2NodeData) :=
  vget (graph_edges g) e.

(** The first loop: mark an edge for output unless its mirror is marked. *)
Fixpoint mark_output_edges (g : Graph) (es : list nat) (output_edges : list bool)
  : Outcome (list bool) :=
  match es with
  | [] => Ok output_edges
  | e :: es' =>
      m <- ok_or (mirror_edge_edge_centric g e) BCalm2EdgeWithoutMirror ;;
      bm <- vget output_edges m ;;
      output_edges <- (if negb bm then vset output_edges e true else Ok output_edges) ;;
      mark_output_edges g es' output_edges
  end.

(** The tuple pushed for one neighbour edge. *)
Definition neighbor_tuple (g : Graph) (output_edges : list bool) (side : bool)
    (neighbor_edge : nat) : Outcome (bool * nat * bool) :=
  b <- vget output_edges neighbor_edge ;;
  nid <- (if b then
            ne <- graph_edge g neighbor_edge ;; Ok (id (edge_data ne))
          else
            m <- ok_or (mirror_edge_edge_centric g neighbor_edge) BCalm2EdgeWithoutMirror ;;
            me <- graph_edge g m ;; Ok (id (edge_data me))) ;;
  Ok (side, nid, b).

(** [bio::io::fasta::Writer::write(id, Some(desc), seq)] *)
Definition fasta_entry (id desc seq : string) : string :=
  ">" ++ id ++ " " ++ desc ++ String "010" EmptyString ++ seq ++ String "010" EmptyString.

Definition genome_to_string (s : Genome) : string :=
  string_of_list_ascii (map character_to_ascii s).

(** One output record, for an edge marked for output. *)
Definition write_edge (g : Graph) (store : SequenceStore) (output_edges : list bool)
    (e : nat) : Outcome string :=
  ed <- graph_edge g e ;;
  let node_data := edge_data ed in
  m <- ok_or (mirror_edge_edge_centric g e) BCalm2EdgeWithoutMirror ;;
  med <- graph_edge g m ;;
  let to_node_plus := edge_to ed in
  let to_node_minus := edge_to med in
  out_neighbors_plus <-
    map_outcome (neighbor_tuple g output_edges true) (out_edges g to_node_plus) ;;
  out_neighbors_minus <-
    map_outcome (neighbor_tuple g output_edges false) (out_edges g to_node_minus) ;;
  let out_neighbors := sort_tuples out_neighbors_plus ++ sort_tuples out_neighbors_minus in
  node_description <- write_plain_bcalm2_node_data_to_bcalm2 node_data out_neighbors ;;
  let node_sequence := sequence_owned node_data store in
  Ok (fasta_entry (nat_to_string (id node_data)) node_description
        (genome_to_string node_sequence)).

Fixpoint write_edges (g : Graph) (store : SequenceStore) (output_edges : list bool)
    (es : list nat) : Outcome string :=
  match es with
  | [] => Ok EmptyString
  | e :: es' =>
      b <- vget output_edges e ;;
      s <- (if b then write_edge g store output_edges e else Ok EmptyString) ;;
      rest <- write_edges g store output_edges es' ;;
      Ok (s ++ rest)%string
  end.

(** [write_edge_centric_bigraph_to_bcalm2]: the bytes written. *)
Definition write_edge_centric_bigraph_to_bcalm2 (g : Graph) (store : SequenceStore)
  : Outcome string :=
  let es := seq 0 (edge_count g) in
  output_edges <- mark_output_edges g es (repeat false (edge_count g)) ;;
  write_edges g store output_edges es.

(** Read with one of the readers, then write. *)
Definition read_then_write
    (reader : list FastaRecord -> SequenceStore -> nat -> Outcome (Graph * SequenceStore))
    (records : list FastaRecord) (store : SequenceStore) (kmer_size : nat)
  : Outcome string :=
  '(g, store) <- reader records store kmer_size ;;
  write_edge_centric_bigraph_to_bcalm2 g store.


(** A record built from text: id, description, sequence. *)
Definition fasta_record (id desc seq : string) : FastaRecord :=
  {| record_id := id; record_desc := Some desc; record_seq := list_ascii_of_string seq |}.


(* ------------------------------------------------------------------ *)
(** ** Notions used in the statements about the readers *)

(** The value of slot [t] of the node map; slots past the end of the
    vector are [Unmapped] (they are created [Unmapped] by [resize]). *)
Definition slot (node_map : list MappedNode) (t : nat) : MappedNode :=
  nth t node_map Unmapped.

(** A mapped value whose nodes are registered as mirrors of each other. *)
Definition registered (g : Graph) (m : MappedNode) : Prop :=
  match m with
  | Unmapped => True
  | Normal f b => mirror_node g f = Some b /\ mirror_node g b = Some f
  | SelfMirror n => mirror_node g n = Some n
  end.

(** [g'] is [g] with more nodes: no edge added, no mirror changed. *)
Definition graph_ext (g g' : Graph) : Prop :=
  graph_edges g' = graph_edges g /\ node_count g <= node_count g' /\
  forall n m, mirror_node g n = Some m -> mirror_node g' n = Some m.

(** The head block, and the tail block without the shortcut: if the slot
    is [Unmapped], search the neighbours or create a binode, then write
    the value into the neighbours' slots. *)
Definition resolve_block (side : bool) (n : nat) (self_mirror : bool)
    (relevant : list PlainBCalm2Edge) (node_map : list MappedNode) (g : Graph)
  : Outcome (list MappedNode * Graph) :=
  v <- vget node_map n ;;
  if mapped_eqb v Unmapped then
    '(node_map, g, assign) <- search_or_create side n self_mirror relevant node_map g ;;
    node_map <- (if assign then assign_to_neighbors side n node_map relevant
                 else Ok node_map) ;;
    Ok (node_map, g)
  else Ok (node_map, g).

(** Edge [f] is a mirror of edge [e]: it goes from the mirror of the head
    of [e] to the mirror of the tail of [e] and carries the mirrored data. *)
Definition is_mirror_edge (g : Graph) (e f : nat) : Prop :=
  exists a b d a' b' d',
    nth_error (graph_edges g) e = Some (a, b, d) /\
    nth_error (graph_edges g) f = Some (a', b', d') /\
    mirror_node g b = Some a' /\ mirror_node g a = Some b' /\
    d' = mirror_data d.


(** The two edges [build_step] adds for a record, from the endpoints
    [(a, a')] of the head slot and [(b, b')] of the tail slot. *)
Definition edge_pair (q : nat * nat * nat * nat * PlainBCalm2NodeData)
  : list (nat * nat * PlainBCalm2NodeData) :=
  let '(a, a', b, b', d) := q in [(a, b, d); (b', a', mirror_data d)].


(* ------------------------------------------------------------------ *)
(** ** Inputs whose adjacency is the (k-1)-overlap relation *)

(** The records parsed in order, with the store after the last one. *)
Fixpoint parse_records (records : list FastaRecord) (store : SequenceStore)
  : Outcome (list PlainBCalm2NodeData * SequenceStore) :=
  match records with
  | [] => Ok ([], store)
  | r :: rs =>
      '(d, store) <- parse_bcalm2_fasta_record r store ;;
      '(ds, store) <- parse_records rs store ;;
      Ok (d :: ds, store)
  end.

Definition record_sequence (store : SequenceStore) (d : PlainBCalm2NodeData) : Genome :=
  store_get store (sequence_handle d).

(** The (k-1)-prefix and the (k-1)-suffix of a record's sequence. *)
Definition head_kmer (kmer_size : nat) (store : SequenceStore) (d : PlainBCalm2NodeData)
  : Genome :=
  firstn (kmer_size - 1) (record_sequence store d).

Definition tail_kmer (kmer_size : nat) (store : SequenceStore) (d : PlainBCalm2NodeData)
  : Genome :=
  let s := record_sequence store d in skipn (List.length s - (kmer_size - 1)) s.

(** A link leaves the [+] side of a record with its (k-1)-suffix and the
    [-] side with the reverse complement of its (k-1)-prefix ... *)
Definition leaving_kmer (kmer_size : nat) (store : SequenceStore) (d : PlainBCalm2NodeData)
    (e : PlainBCalm2Edge) : Genome :=
  if from_side e then tail_kmer kmer_size store d
  else reverse_complement (head_kmer kmer_size store d).

(** ... and enters the [+] side of a record with its (k-1)-prefix and the
    [-] side with the reverse complement of its (k-1)-suffix. *)
Definition entering_kmer (kmer_size : nat) (store : SequenceStore)
    (ds : list PlainBCalm2NodeData) (e : PlainBCalm2Edge) : option Genome :=
  match nth_error ds (to_node e) with
  | Some d' => Some (if to_side e then head_kmer kmer_size store d'
                     else reverse_complement (tail_kmer kmer_size store d'))
  | None => None
  end.

(** The ids are [0 .. N-1] in order, and the declared links of every
    record are exactly the links to a record whose entering (k-1)-mer is
    the leaving (k-1)-mer. *)
Definition overlap_adjacency (kmer_size : nat) (ds : list PlainBCalm2NodeData)
    (store : SequenceStore) : Prop :=
  forall i d, nth_error ds i = Some d ->
    id d = i /\
    forall e, In e (edges d) <->
              entering_kmer kmer_size store ds e = Some (leaving_kmer kmer_size store d e).

(** The (k-1)-mer of slot [s] of the node map: the prefix of record
    [s / 2] for an even slot, its suffix for an odd slot. *)
Definition kappa (kmer_size : nat) (ds : list PlainBCalm2NodeData) (store : SequenceStore)
    (s : nat) : Genome :=
  match nth_error ds (s / 2) with
  | Some d => if Nat.even s then head_kmer kmer_size store d else tail_kmer kmer_size store d
  | None => []
  end.

(** Slots [s] and [t] are declared neighbours: two slots of the same
    parity whose (k-1)-mers are reverse complements, or two slots of
    different parity with the same (k-1)-mer. *)
Definition adjacent (kap : nat -> Genome) (M s t : nat) : Prop :=
  s < M /\ t < M /\
  if Bool.eqb (Nat.even s) (Nat.even t) then kap s = reverse_complement (kap t)
  else kap s = kap t.

Definition live (kap : nat -> Genome) (M s : nat) : Prop := exists t, adjacent kap M s t.

Definition same_class (kap : nat -> Genome) (s t : nat) : Prop :=
  kap t = kap s \/ kap t = reverse_complement (kap s).

(** The value written from slot [s] into slot [t]: mirrored between slots
    of the same parity. *)
Definition orient (s t : nat) (v : MappedNode) : MappedNode :=
  if Bool.eqb (Nat.even s) (Nat.even t) then mirror v else v.

Definition fwd_of (v : MappedNode) : nat :=
  match v with Normal f _ => f | SelfMirror n => n | Unmapped => 0 end.

Definition bwd_of (v : MappedNode) : nat :=
  match v with Normal _ b => b | SelfMirror n => n | Unmapped => 0 end.

(** Values [va] at slot [a] and [vb] at slot [b] denote the same binode. *)
Definition agree_values (kap : nat -> Genome) (a : nat) (va : MappedNode)
    (b : nat) (vb : MappedNode) : Prop :=
  (kap b = kap a -> vb = va) /\
  (kap b = reverse_complement (kap a) -> vb = mirror va).

(** The neighbour slots of slot [s] are the slots of the edges [L]. *)
Definition neighbors_listed (kap : nat -> Genome) (M : nat) (side : bool) (s : nat)
    (L : list PlainBCalm2Edge) : Prop :=
  (forall e, In e L -> adjacent kap M s (edge_slot e) /\
                       forall v, oriented side e v = orient s (edge_slot e) v) /\
  (forall t, adjacent kap M s t -> exists e, In e L /\ edge_slot e = t).

(** The invariant of the edge-centric reader on such inputs; [lab] gives
    the (k-1)-mer of every node. *)
Definition consistent_state (kap : nat -> Genome) (M : nat) (node_map : list MappedNode)
    (g : Graph) (lab : nat -> Genome) : Prop :=
  List.length node_map <= M /\
  (forall u, registered g (slot node_map u)) /\
  (forall s, slot node_map s <> Unmapped ->
     lab (fwd_of (slot node_map s)) = kap s /\
     lab (bwd_of (slot node_map s)) = reverse_complement (kap s)) /\
  (forall s, slot node_map s <> Unmapped -> kap s = reverse_complement (kap s) ->
     mirror (slot node_map s) = slot node_map s) /\
  (forall s t, live kap M s -> live kap M t ->
     slot node_map s <> Unmapped -> slot node_map t <> Unmapped ->
     agree_values kap s (slot node_map s) t (slot node_map t)) /\
  (forall s, live kap M s -> slot node_map s <> Unmapped ->
     exists u, live kap M u /\ same_class kap s u /\ slot node_map u <> Unmapped /\
       forall t, adjacent kap M u t -> slot node_map t <> Unmapped).

(** The node of a (k-1)-mer in the map of the old reader. *)
Definition id_map_node (id_map : list (Genome * nat)) (x : Genome) : nat :=
  match id_map_get id_map x with Some n => n | None => 0 end.

(** The invariant of the old reader: the map is closed under reverse
    complement, which maps a node to its mirror, and is injective. *)
Definition id_map_ok (id_map : list (Genome * nat)) (g : Graph) : Prop :=
  (forall x n, id_map_get id_map x = Some n ->
     n < node_count g /\
     exists n', id_map_get id_map (reverse_complement x) = Some n' /\ mirror_node g n = Some n') /\
  (forall x y n, id_map_get id_map x = Some n -> id_map_get id_map y = Some n -> x = y).


(** The leaving (k-1)-mer of a slot: slot [s] and slot [t] are neighbours
    exactly when the leaving (k-1)-mer of [s] is the reverse complement of
    the leaving (k-1)-mer of [t]. *)
Definition slot_out (kap : nat -> Genome) (s : nat) : Genome :=
  if Nat.even s then reverse_complement (kap s) else kap s.


(** The tuple [edge_pair] is applied to by [build_step]: the nodes of the
    head slot and of the tail slot of the record, with its data. *)
Definition record_endpoints (node_map : list MappedNode) (d : PlainBCalm2NodeData)
  : nat * nat * nat * nat * PlainBCalm2NodeData :=
  (fwd_of (slot node_map (id d * 2)), bwd_of (slot node_map (id d * 2)),
   fwd_of (slot node_map (id d * 2 + 1)), bwd_of (slot node_map (id d * 2 + 1)), d).

(** The same tuple for [old_step]: the nodes of the (k-1)-prefix [p], of
    its reverse complement, of the (k-1)-suffix [q] and of its reverse
    complement. *)
Definition old_record_endpoints (node_kmer_size : nat) (store : SequenceStore)
    (id_map : list (Genome * nat)) (d : PlainBCalm2NodeData)
  : nat * nat * nat * nat * PlainBCalm2NodeData :=
  let s := record_sequence store d in
  let p := firstn node_kmer_size s in
  let q := skipn (List.length s - node_kmer_size) s in
  (id_map_node id_map p, id_map_node id_map (reverse_complement p),
   id_map_node id_map q, id_map_node id_map (reverse_complement q), d).

(** The forward ([true]) or backward node of a mapped value, and the
    (k-1)-mer it stands for at slot [s]. *)
Definition endpoint (v : MappedNode) (b : bool) : nat := if b then fwd_of v else bwd_of v.

Definition end_kmer (kap : nat -> Genome) (s : nat) (b : bool) : Genome :=
  if b then kap s else reverse_complement (kap s).


(** A decision procedure for [overlap_adjacency]: every declared link
    points to a record of the input, and a candidate link to a record of
    the input is declared exactly when its (k-1)-mers match. *)
Definition option_genome_eqb (x y : option Genome) : bool :=
  match x, y with
  | Some a, Some b => genome_eqb a b
  | None, None => true
  | _, _ => false
  end.

Definition candidate_edges (n : nat) : list PlainBCalm2Edge :=
  flat_map (fun fs => flat_map (fun tn =>
    map (fun ts => {| from_side := fs; to_node := tn; to_side := ts |}) [true; false])
    (seq 0 n)) [true; false].

Definition overlap_adjacency_b (kmer_size : nat) (ds : list PlainBCalm2NodeData)
    (store : SequenceStore) : bool :=
  forallb (fun id_d =>
    let '(i, d) := id_d in
    (id d =? i) &&
    forallb (fun e => to_node e <? List.length ds) (edges d) &&
    forallb (fun e => Bool.eqb (existsb (edge_eqb e) (edges d))
                        (option_genome_eqb (entering_kmer kmer_size store ds e)
                           (Some (leaving_kmer kmer_size store d e))))
      (candidate_edges (List.length ds)))
    (indexed 0 ds).


(* ------------------------------------------------------------------ *)
(** ** The text of an input, and inputs in the form the writer prints *)

(** The text of a record as [bio::io::fasta] reads it: the header line
    [>id description] (or [>id]) and one sequence line. *)
Definition record_text (r : FastaRecord) : string :=
  ">" ++ record_id r ++
  (match record_desc r with Some desc => " " ++ desc | None => EmptyString end) ++
  String "010" EmptyString ++ string_of_list_ascii (record_seq r) ++ String "010" EmptyString.

Definition records_text (records : list FastaRecord) : string :=
  fold_right (fun r acc => (record_text r ++ acc)%string) EmptyString records.

(** The tuple [(node_type, neighbor_id, neighbor_type)] of a link. *)
Definition edge_tuple (e : PlainBCalm2Edge) : bool * nat * bool :=
  (from_side e, to_node e, to_side e).

Definition tuple_ltb (x y : bool * nat * bool) : bool :=
  tuple_leb x y && negb (tuple_leb y x).

Fixpoint strictly_sorted (l : list (bool * nat * bool)) : bool :=
  match l with
  | x :: ((y :: _) as l') => tuple_ltb x y && strictly_sorted l'
  | _ => true
  end.

(** Links in the writer's order: the links of the [+] side first, then
    those of the [-] side, each strictly increasing by neighbour id, then
    by neighbour side ([-] before [+]). *)
Definition canonical_links (es : list PlainBCalm2Edge) : Prop :=
  let ts := map edge_tuple es in
  ts = filter (fun t => fst (fst t)) ts ++ filter (fun t => negb (fst (fst t))) ts /\
  strictly_sorted (filter (fun t => fst (fst t)) ts) = true /\
  strictly_sorted (filter (fun t => negb (fst (fst t))) ts) = true.

(** A record written as the writer writes its parsed data: the id in
    decimal, the description that [write_plain_bcalm2_node_data_to_bcalm2]
    writes for the parsed fields and links, the links in the writer's
    order, the sequence in upper case. *)
Definition canonical_record (store : SequenceStore) (r : FastaRecord)
    (d : PlainBCalm2NodeData) : Prop :=
  record_id r = nat_to_string (id d) /\
  (exists desc, record_desc r = Some desc /\
     write_plain_bcalm2_node_data_to_bcalm2 d (map edge_tuple (edges d)) = Ok desc) /\
  canonical_links (edges d) /\
  record_seq r = map character_to_ascii (record_sequence store d).

Definition canonical_records (store : SequenceStore) (records : list FastaRecord)
    (ds : list PlainBCalm2NodeData) : Prop :=
  Forall2 (canonical_record store) records ds.

(** The ids are [0 .. N-1] in order. *)
Definition consecutive_ids (ds : list PlainBCalm2NodeData) : bool :=
  forallb (fun id_d => id (snd id_d) =? fst id_d) (indexed 0 ds).

(** The link that [e] of record [i] implies on the other record. *)
Definition mirror_link (i : nat) (e : PlainBCalm2Edge) : PlainBCalm2Edge :=
  {| from_side := negb (to_side e); to_node := i; to_side := negb (from_side e) |}.

(** Every declared link points to a record of the input that declares the
    mirrored link back. *)
Definition symmetric_adjacency (ds : list PlainBCalm2NodeData) : bool :=
  forallb (fun id_d =>
    forallb (fun e =>
      match nth_error ds (to_node e) with
      | Some d' => existsb (edge_eqb (mirror_link (fst id_d) e)) (edges d')
      | None => false
      end) (edges (snd id_d)))
    (indexed 0 ds).

(** ** Predicates used by the properties of the readers and writers *)

(** A string without ASCII whitespace. *)
Definition ws_free (s : string) : bool :=
  forallb (fun c => negb (is_ascii_whitespace c)) (list_ascii_of_string s).

(** The edge a written link tuple [(node_type, neighbor_id, neighbor_type)] parses to. *)
Definition tuple_edge (t : bool * nat * bool) : PlainBCalm2Edge :=
  let '(a, b, c) := t in {| from_side := a; to_node := b; to_side := c |}.

(** The [L:..:..:..] token written for one link tuple. *)
Definition link_token (t : bool * nat * bool) : string :=
  let '(node_type, neighbor_id, neighbor_type) := t in
  "L:" ++ side_string node_type ++ ":" ++ nat_to_string neighbor_id ++ ":"
  ++ side_string neighbor_type.

(** Every node of [g] has a mirror node whose mirror is the node itself. *)
Definition nodes_paired (g : Graph) : Prop :=
  forall n, n < node_count g ->
  exists m, mirror_node g n = Some m /\ mirror_node g m = Some n.

(** ** [convert_generic_node_centric_bigraph_to_edge_centric] (src/generic/mod.rs)

    The methods [id], [is_self_complemental] and [edges] of the [GenericNode]
    trait and the conversion [Into<EdgeData>] of the input are section
    variables; the output graph is the edge-centric [Graph] above with
    [PlainBCalm2NodeData] edges. *)
Section GenericConverter.
Variable InputEdgeData : Type.
Variable generic_id : InputEdgeData -> nat.
Variable is_self_complemental : InputEdgeData -> bool.
Variable generic_edges : InputEdgeData -> list PlainBCalm2Edge.
Variable into : InputEdgeData -> PlainBCalm2NodeData.

(** One iteration of the loop over the reader. *)
Definition convert_step (generic_node : InputEdgeData) (node_map : list MappedNode)
    (graph : Graph) : Outcome (list MappedNode * Graph) :=
  let edge_is_self_mirror := is_self_complemental generic_node in
  let n1 := generic_id generic_node * 2 in
  let n2 := generic_id generic_node * 2 + 1 in
  let n1_is_self_mirror :=
    existsb (fun edge => edge_eqb edge {| from_side := false; to_node := generic_id generic_node;
                                         to_side := true |}) (generic_edges generic_node) in
  let n2_is_self_mirror :=
    existsb (fun edge => edge_eqb edge {| from_side := true; to_node := generic_id generic_node;
                                         to_side := false |}) (generic_edges generic_node) in
  let node_map :=
    if List.length node_map <=? n2 then resize node_map (n2 + 1) Unmapped else node_map in
  '(node_map, graph) <- resolve_head n1 n1_is_self_mirror (generic_edges generic_node) node_map graph ;;
  '(node_map, graph) <- resolve_tail n1 n2 n2_is_self_mirror edge_is_self_mirror
                         (generic_edges generic_node) node_map graph ;;
  v1 <- vget node_map n1 ;;
  '(n1f, n1r) <- endpoints_of v1 ;;
  v2 <- vget node_map n2 ;;
  '(n2f, n2r) <- endpoints_of v2 ;;
  let edge_data := into generic_node in
  graph <- add_edge graph n1f n2f edge_data ;;
  graph <- add_edge graph n2r n1r (mirror_data edge_data) ;;
  Ok (node_map, graph).

Fixpoint convert_loop (nodes : list InputEdgeData) (node_map : list MappedNode) (graph : Graph)
  : Outcome (list MappedNode * Graph) :=
  match nodes with
  | [] => Ok (node_map, graph)
  | generic_node :: nodes' =>
      '(node_map, graph) <- convert_step generic_node node_map graph ;;
      convert_loop nodes' node_map graph
  end.

Definition convert_generic_node_centric_bigraph_to_edge_centric (reader : list InputEdgeData)
  : Outcome Graph :=
  '(_, graph) <- convert_loop reader [] empty_graph ;;
  Ok graph.
End GenericConverter.

(** An outcome that is not an [Err] (a value or a panic). *)
Definition not_err {A : Type} (m : Outcome A) : Prop :=
  match m with Err _ => False | _ => True end.

(** ** [write_node_centric_bigraph_to_bcalm2]

    A node-centric bigraph: for each node its data (already converted to
    [PlainBCalm2NodeData]) and its mirror node, if any; the edges as
    [(from, to)] pairs in insertion order. *)
Record NodeGraph : Type := {
  node_entries : list (PlainBCalm2NodeData * option nat);
  node_graph_edges : list (nat * nat)
}.

Definition ng_node_count (g : NodeGraph) : nat := List.length (node_entries g).

Definition ng_mirror_node (g : NodeGraph) (n : nat) : option nat :=
  match nth_error (node_entries g) n with
  | Some (_, Some m) => Some m
  | _ => None
  end.

Definition ng_node_data (g : NodeGraph) (n : nat) : Outcome PlainBCalm2NodeData :=
  match nth_error (node_entries g) n with
  | Some (d, _) => Ok d
  | None => Panic
  end.

(** [out_neighbors(n)]: the targets of the edges leaving [n], last inserted first. *)
Definition ng_out_neighbors (g : NodeGraph) (n : nat) : list nat :=
  rev (map snd (filter (fun e => fst e =? n) (node_graph_edges g))).

(** The first loop: mark [node_id] unless its mirror is marked already. *)
Fixpoint mark_output_nodes (g : NodeGraph) (ns : list nat) (output_nodes : list bool)
  : Outcome (list bool) :=
  match ns with
  | [] => Ok output_nodes
  | node_id :: ns' =>
      m <- ok_or (ng_mirror_node g node_id) BCalm2NodeWithoutMirror ;;
      bm <- vget output_nodes m ;;
      output_nodes <- (if negb bm then vset output_nodes node_id true else Ok output_nodes) ;;
      mark_output_nodes g ns' output_nodes
  end.

(** The tuple pushed for one out-neighbour. *)
Definition node_neighbor_tuple (g : NodeGraph) (output_nodes : list bool) (side : bool)
    (neighbor_node_id : nat) : Outcome (bool * nat * bool) :=
  b <- vget output_nodes neighbor_node_id ;;
  nid <- (if b then Ok neighbor_node_id
          else ok_or (ng_mirror_node g neighbor_node_id) BCalm2NodeWithoutMirror) ;;
  b' <- vget output_nodes neighbor_node_id ;;
  Ok (side, nid, b').

(** The body of the second loop for a marked node: its FASTA record. *)
Definition write_node (g : NodeGraph) (store : SequenceStore) (output_nodes : list bool)
    (node_id : nat) : Outcome string :=
  node_data <- ng_node_data g node_id ;;
  mirror_node_id <- ok_or (ng_mirror_node g node_id) BCalm2NodeWithoutMirror ;;
  out_neighbors_plus <-
    map_outcome (node_neighbor_tuple g output_nodes true) (ng_out_neighbors g node_id) ;;
  out_neighbors_minus <-
    map_outcome (node_neighbor_tuple g output_nodes false) (ng_out_neighbors g mirror_node_id) ;;
  let out_neighbors := sort_tuples out_neighbors_plus ++ sort_tuples out_neighbors_minus in
  node_description <- write_plain_bcalm2_node_data_to_bcalm2 node_data out_neighbors ;;
  let node_sequence := store_get store (sequence_handle node_data) in
  Ok (fasta_entry (nat_to_string (id node_data)) node_description
        (genome_to_string node_sequence)).

(** The second loop; the written text is the concatenation of the records. *)
Fixpoint write_nodes (g : NodeGraph) (store : SequenceStore) (output_nodes : list bool)
    (ns : list nat) : Outcome string :=
  match ns with
  | [] => Ok EmptyString
  | node_id :: ns' =>
      b <- vget output_nodes node_id ;;
      s <- (if b then write_node g store output_nodes node_id else Ok EmptyString) ;;
      rest <- write_nodes g store output_nodes ns' ;;
      Ok (s ++ rest)%string
  end.

Definition write_node_centric_bigraph_to_bcalm2 (g : NodeGraph) (store : SequenceStore)
  : Outcome string :=
  let ns := seq 0 (ng_node_count g) in
  output_nodes <- mark_output_nodes g ns (repeat false (ng_node_count g)) ;;
  write_nodes g store output_nodes ns.

(** Every node has a mirror node whose mirror is the node itself. *)
Definition ng_paired (g : NodeGraph) : Prop :=
  forall n, n < ng_node_count g ->
  exists m, ng_mirror_node g n = Some m /\ ng_mirror_node g m = Some n.

(** The node of a mirror pair with the smaller index. *)
Definition output_node (g : NodeGraph) (n : nat) : bool :=
  match ng_mirror_node g n with Some m => n <=? m | None => false end.

(** [r] is the record of node [n]: its printed id, some description and its sequence. *)
Definition node_record (g : NodeGraph) (store : SequenceStore) (n : nat) (r : string) : Prop :=
  exists d desc, ng_node_data g n = Ok d /\
    r = fasta_entry (nat_to_string (id d)) desc
          (genome_to_string (store_get store (sequence_handle d))).

(** Mirror nodes and edge targets are nodes of the graph. *)
Definition ng_well_formed (g : NodeGraph) : Prop :=
  (forall n m, ng_mirror_node g n = Some m -> m < ng_node_count g) /\
  (forall e, In e (node_graph_edges g) -> snd e < ng_node_count g).

(** The edge of a mirror pair with the smaller index. *)
Definition edge_output (g : Graph) (e : nat) : bool :=
  match mirror_edge_edge_centric g e with Some f => e <=? f | None => false end.

(** [r] is the record of edge [e]: its printed id, some description and its sequence. *)
Definition edge_record (g : Graph) (store : SequenceStore) (e : nat) (r : string) : Prop :=
  exists ed desc, nth_error (graph_edges g) e = Some ed /\
    r = fasta_entry (nat_to_string (id (edge_data ed))) desc
          (genome_to_string (sequence_owned (edge_data ed) store)).

(* ================================================================== *)
(** * Properties *)

(* ------------------------------------------------------------------ *)
(** ** Basic facts *)

Lemma bind_ok {A B : Type} (a : A) (k : A -> Outcome B) : bind (Ok a) k = k a.
Proof. reflexivity. Qed.

Lemma bind_inv {A B : Type} (m : Outcome A) (k : A -> Outcome B) (b : B) :
  bind m k = Ok b -> exists a, m = Ok a /\ k a = Ok b.
Proof. destruct m; simpl; try discriminate. intros H. exists a. auto. Qed.

Lemma decode_none_iff (bytes : list ascii) :
  decode bytes = None <-> exists b, In b bytes /\ ascii_to_character b = None.
Proof.
  induction bytes as [|b bs IH]; simpl.
  - split; [discriminate | intros (? & [] & _)].
  - destruct (ascii_to_character b) as [c|] eqn:Hb.
    + destruct (decode bs) as [g|] eqn:Hd.
      * split; [discriminate|]. intros (b' & [<-|Hin] & Hn); [congruence|].
        assert (Some g = None) by (apply IH; eauto). discriminate.
      * split; [|reflexivity]. intros _. destruct IH as [IH _].
        destruct (IH eq_refl) as (b' & ? & ?). eauto.
    + split; [|reflexivity]. intros _. eauto.
Qed.

Lemma store_get_last (store : SequenceStore) (g : Genome) :
  store_get (store ++ [g]) (List.length store) = g.
Proof.
  unfold store_get. rewrite app_nth2 by lia. rewrite Nat.sub_diag. reflexivity.
Qed.

Lemma length_reverse_complement (s : Genome) :
  List.length (reverse_complement s) = List.length s.
Proof. unfold reverse_complement. rewrite length_rev, length_map. reflexivity. Qed.

Lemma dna_eqb_eq (a b : DnaCharacter) : dna_eqb a b = true <-> a = b.
Proof. destruct a, b; simpl; split; congruence. Qed.

Lemma forallb_combine_eq (x y : Genome) :
  List.length x = List.length y ->
  forallb (fun ab => dna_eqb (fst ab) (snd ab)) (combine x y) = true <-> x = y.
Proof.
  revert y. induction x as [|a x IH]; intros [|b y] Hl; simpl in *; try lia.
  - split; auto.
  - rewrite andb_true_iff, dna_eqb_eq, IH by lia. split.
    + intros [-> ->]. reflexivity.
    + intros H. inversion H. auto.
Qed.

Lemma firstn_combine {A B : Type} (n : nat) (x : list A) (y : list B) :
  firstn n (combine x y) = combine (firstn n x) (firstn n y).
Proof.
  revert x y. induction n as [|n IH]; intros [|a x] [|b y]; simpl; auto.
  f_equal. apply IH.
Qed.

Lemma edge_is_self_mirror_iff (kmer_size : nat) (s : Genome) :
  edge_is_self_mirror kmer_size s = true <->
  firstn (kmer_size - 1) s = firstn (kmer_size - 1) (reverse_complement s).
Proof.
  unfold edge_is_self_mirror. rewrite firstn_combine. apply forallb_combine_eq.
  rewrite !length_firstn, length_reverse_complement. reflexivity.
Qed.

(* ------------------------------------------------------------------ *)
(** ** Claims about the data types *)

(** C7 (amended).  [MappedNode::mirror] maps [Unmapped] to itself, swaps
    the two nodes of [Normal] and keeps [SelfMirror]; it is an involution;
    and [mirror m = m] holds exactly when [m] is [Unmapped], a
    [SelfMirror], or a [Normal] whose forward and backward nodes coincide. *)
Theorem mapped_node_mirror_laws :
  mirror Unmapped = Unmapped /\
  (forall f b, mirror (Normal f b) = Normal b f) /\
  (forall n, mirror (SelfMirror n) = SelfMirror n) /\
  (forall m, mirror (mirror m) = m) /\
  (forall m, mirror m = m <->
             m = Unmapped \/ (exists n, m = SelfMirror n) \/ (exists f, m = Normal f f)).
Proof.
  split; [reflexivity|]. split; [reflexivity|]. split; [reflexivity|].
  split; [intros [| |]; reflexivity|].
  intros [|f b|n]; simpl; split.
  - auto.
  - reflexivity.
  - intros H. inversion H; subst. right; right. eauto.
  - intros [H|[(n & H)|(f' & H)]]; try discriminate. inversion H; subst. reflexivity.
  - eauto.
  - reflexivity.
Qed.

(** C8.  [mirror] on [PlainBCalm2NodeData] changes only [forwards], which
    it negates, and applying it twice gives back the original value. *)
Theorem mirror_data_flips_only_forwards (d : PlainBCalm2NodeData) :
  id (mirror_data d) = id d /\
  sequence_handle (mirror_data d) = sequence_handle d /\
  forwards (mirror_data d) = negb (forwards d) /\
  length (mirror_data d) = length d /\
  total_abundance (mirror_data d) = total_abundance d /\
  mean_abundance (mirror_data d) = mean_abundance d /\
  edges (mirror_data d) = edges d /\
  mirror_data (mirror_data d) = d.
Proof.
  destruct d as [i h fw l t m es]; simpl.
  repeat split. unfold mirror_data; simpl. rewrite negb_involutive. reflexivity.
Qed.

(** C9.  [sequence_ref] returns the stored sequence exactly for forward
    data and [None] for reverse data, whose sequence (the reverse
    complement of the stored one) only [sequence_owned] gives. *)
Theorem sequence_ref_only_forwards (d : PlainBCalm2NodeData) (store : SequenceStore) :
  (sequence_ref d store = Some (store_get store (sequence_handle d)) <-> forwards d = true) /\
  (forwards d = false -> sequence_ref d store = None) /\
  (forwards d = false ->
   sequence_owned d store = reverse_complement (store_get store (sequence_handle d))).
Proof.
  unfold sequence_ref, sequence_owned.
  destruct (forwards d); split; try split; auto; discriminate.
Qed.

(** C10.  A record with a valid id whose sequence contains a byte outside
    the alphabet makes [parse_bcalm2_fasta_record] panic (the
    [unwrap_or_else(panic!)] of [add_from_slice_u8]) rather than return an
    error value. *)
Theorem parse_panics_on_invalid_character (record : FastaRecord)
    (store : SequenceStore) (n : nat) :
  parse_usize (record_id record) = Some n ->
  (exists b, In b (record_seq record) /\ ascii_to_character b = None) ->
  parse_bcalm2_fasta_record record store = Panic.
Proof.
  intros Hid Hb. apply decode_none_iff in Hb.
  unfold parse_bcalm2_fasta_record, add_from_slice_u8.
  rewrite Hid, bind_ok, Hb. reflexivity.
Qed.


Lemma parse_parameter_no_length_error (acc : ParsedParameters) (p : string)
    (l sl : nat) :
  parse_parameter acc p <> Err (BCalm2LengthError l sl).
Proof.
  destruct acc as [[[len ka] km] es]. unfold parse_parameter, forward_reverse_to_bool.
  repeat match goal with
         | |- context [if ?c then _ else _] => destruct c
         | |- context [match ?x with _ => _ end] => destruct x
         end; simpl; discriminate.
Qed.

Lemma parse_parameters_no_length_error (acc : ParsedParameters) (ps : list string)
    (l sl : nat) :
  parse_parameters acc ps <> Err (BCalm2LengthError l sl).
Proof.
  revert acc. induction ps as [|p ps IH]; intros acc; simpl; [discriminate|].
  destruct (parse_parameter acc p) eqn:Hp; simpl; auto; [|discriminate].
  intros [= ->]. eapply parse_parameter_no_length_error; eauto.
Qed.

(** C6 (amended).  A length-mismatch error is only returned for a record
    whose id, sequence and parameters are all valid and whose declared
    [LN:i:] length differs from the sequence length; conversely, for such
    a record, a declared length that differs gives the error and a
    matching or absent one lets the record through.  (Any other error of
    the record is reported first: the id, then the sequence, then the
    parameters in order.) *)
Theorem length_error_iff_length_mismatch :
  (forall record store l sl,
     parse_bcalm2_fasta_record record store = Err (BCalm2LengthError l sl) ->
     exists n g ka km es,
       parse_usize (record_id record) = Some n /\
       decode (record_seq record) = Some g /\
       description_parameters record = Ok (Some l, ka, km, es) /\
       sl = List.length g /\ l <> sl) /\
  (forall record store n g len ka km es,
     parse_usize (record_id record) = Some n ->
     decode (record_seq record) = Some g ->
     description_parameters record = Ok (len, ka, km, es) ->
     (forall l, len = Some l -> l <> List.length g ->
        parse_bcalm2_fasta_record record store
        = Err (BCalm2LengthError l (List.length g))) /\
     ((len = None \/ len = Some (List.length g)) ->
        exists d store', parse_bcalm2_fasta_record record store = Ok (d, store'))).
Proof.
  split.
  - intros record store l sl.
    unfold parse_bcalm2_fasta_record, add_from_slice_u8.
    destruct (parse_usize (record_id record)) as [n|] eqn:Hid; simpl; [|discriminate].
    destruct (decode (record_seq record)) as [g|] eqn:Hd; [|discriminate].
    rewrite store_get_last.
    destruct (description_parameters record) as [[[[len ka] km] es]|e|] eqn:Hp;
      simpl; try discriminate.
    + destruct len as [l'|]; simpl; [|discriminate].
      destruct (negb (l' =? List.length g)) eqn:Hne; simpl; try discriminate.
      intros [= <- <-]. apply negb_true_iff, Nat.eqb_neq in Hne.
      exists n, g, ka, km, es. auto.
    + intros [= ->]. exfalso. eapply parse_parameters_no_length_error. exact Hp.
  - intros record store n g len ka km es Hid Hd Hp.
    unfold parse_bcalm2_fasta_record, add_from_slice_u8.
    rewrite Hid, bind_ok, Hd, store_get_last, Hp, bind_ok. split.
    + intros l -> Hne. simpl. apply Nat.eqb_neq in Hne. rewrite Hne. reflexivity.
    + intros [-> | ->]; simpl; [|rewrite Nat.eqb_refl; simpl]; eauto.
Qed.

(** C3 (amended).  The tail block takes the self-mirror-edge shortcut
    (the tail slot gets [mirror] of the head slot, without a search of the
    neighbours or a new binode) exactly when the tail slot is still
    [Unmapped] and [edge_is_self_mirror kmer_size sequence] holds, which
    says that the first [kmer_size - 1] characters of the sequence equal
    the first [kmer_size - 1] characters of its reverse complement (the
    [(k-1)]-prefix is the reverse complement of the [(k-1)]-suffix).  A
    sequence equal to its reverse complement satisfies this condition. *)
Theorem tail_shortcut_condition :
  (forall kmer_size sequence,
     edge_is_self_mirror kmer_size sequence = true <->
     firstn (kmer_size - 1) sequence
     = firstn (kmer_size - 1) (reverse_complement sequence)) /\
  (forall kmer_size sequence,
     reverse_complement sequence = sequence ->
     edge_is_self_mirror kmer_size sequence = true) /\
  (forall n1 n2 f es node_map g,
     nth_error node_map n2 = Some Unmapped ->
     resolve_tail n1 n2 f true es node_map g
     = (node_map <- tail_shortcut n1 n2 node_map ;;
        node_map <- assign_to_neighbors true n2 node_map (relevant_edges true es) ;;
        Ok (node_map, g))) /\
  (forall n1 n2 f es node_map g,
     nth_error node_map n2 = Some Unmapped ->
     resolve_tail n1 n2 f false es node_map g
     = ('(node_map, g, assign) <-
          search_or_create true n2 f (relevant_edges true es) node_map g ;;
        node_map <- (if assign
                     then assign_to_neighbors true n2 node_map (relevant_edges true es)
                     else Ok node_map) ;;
        Ok (node_map, g))) /\
  (forall n1 n2 f esm es node_map g v,
     nth_error node_map n2 = Some v -> v <> Unmapped ->
     resolve_tail n1 n2 f esm es node_map g = Ok (node_map, g)).
Proof.
  split; [apply edge_is_self_mirror_iff|].
  split; [intros k s Hs; apply edge_is_self_mirror_iff; rewrite Hs; reflexivity|].
  split; [|split].
  - intros n1 n2 f es node_map g Hn. unfold resolve_tail, vget. rewrite Hn. simpl.
    destruct (tail_shortcut n1 n2 node_map); reflexivity.
  - intros n1 n2 f es node_map g Hn. unfold resolve_tail, vget. rewrite Hn. reflexivity.
  - intros n1 n2 f esm es node_map g v Hn Hv. unfold resolve_tail, vget. rewrite Hn.
    simpl. destruct v; [congruence|reflexivity|reflexivity].
Qed.


(* ------------------------------------------------------------------ *)
(** ** The node map as a function of the slot *)

Lemma mapped_eqb_unmapped (v : MappedNode) : mapped_eqb v Unmapped = true <-> v = Unmapped.
Proof. destruct v; simpl; split; congruence. Qed.

Lemma length_update {A : Type} (v : list A) (i : nat) (x : A) :
  List.length (update v i x) = List.length v.
Proof. revert i. induction v as [|a v IH]; intros [|i]; simpl; auto. Qed.

Lemma nth_update {A : Type} (v : list A) (i j : nat) (x d : A) :
  i < List.length v ->
  nth j (update v i x) d = if j =? i then x else nth j v d.
Proof.
  revert i j. induction v as [|a v IH]; intros i j Hi; simpl in *; [lia|].
  destruct i as [|i], j as [|j]; simpl; auto.
  apply IH. lia.
Qed.

Lemma vset_ok_inv {A : Type} (v v' : list A) (i : nat) (x : A) :
  vset v i x = Ok v' -> i < List.length v /\ v' = update v i x.
Proof.
  unfold vset. destruct (i <? List.length v) eqn:H; [|discriminate].
  intros [= <-]. apply Nat.ltb_lt in H. auto.
Qed.

Lemma vset_ok {A : Type} (v : list A) (i : nat) (x : A) :
  i < List.length v -> vset v i x = Ok (update v i x).
Proof. intros H. unfold vset. apply Nat.ltb_lt in H. rewrite H. reflexivity. Qed.

Lemma vget_slot_inv (v : list MappedNode) (i : nat) (x : MappedNode) :
  vget v i = Ok x -> x = slot v i /\ i < List.length v.
Proof.
  unfold vget, slot. destruct (nth_error v i) eqn:H; [|discriminate].
  intros [= <-]. split.
  - symmetry. apply nth_error_nth. exact H.
  - apply nth_error_Some. congruence.
Qed.

Lemma vget_slot (v : list MappedNode) (i : nat) :
  i < List.length v -> vget v i = Ok (slot v i).
Proof.
  intros H. unfold vget, slot. destruct (nth_error v i) eqn:E.
  - erewrite nth_error_nth; eauto.
  - apply nth_error_None in E. lia.
Qed.

Lemma slot_update (v : list MappedNode) (i j : nat) (x : MappedNode) :
  i < List.length v -> slot (update v i x) j = if j =? i then x else slot v j.
Proof. apply nth_update. Qed.

Lemma slot_beyond (v : list MappedNode) (i : nat) :
  slot v i <> Unmapped -> i < List.length v.
Proof.
  unfold slot. intros H. destruct (Nat.lt_ge_cases i (List.length v)) as [|Hge]; auto.
  rewrite nth_overflow in H by exact Hge. congruence.
Qed.

Lemma resize_grow {A : Type} (v : list A) (n : nat) (x : A) :
  List.length v <= n -> resize v n x = v ++ repeat x (n - List.length v).
Proof. intros H. unfold resize. rewrite firstn_all2 by exact H. reflexivity. Qed.

Lemma slot_app_unmapped (v : list MappedNode) (d i : nat) :
  slot (v ++ repeat Unmapped d) i = slot v i.
Proof.
  unfold slot. destruct (Nat.lt_ge_cases i (List.length v)).
  - apply app_nth1. exact H.
  - rewrite app_nth2 by exact H. rewrite (nth_overflow v) by exact H.
    destruct (nth_in_or_default (i - List.length v) (repeat Unmapped d) Unmapped) as [Hin|];
      auto. apply repeat_spec in Hin. exact Hin.
Qed.

(** The growth of the map before a slot is read. *)
Lemma grown_slot (v : list MappedNode) (t : nat) :
  let v' := if List.length v <=? t then resize v (t + 1) Unmapped else v in
  (forall i, slot v' i = slot v i) /\ List.length v <= List.length v' /\
  t < List.length v'.
Proof.
  simpl. destruct (List.length v <=? t) eqn:H.
  - apply Nat.leb_le in H. rewrite resize_grow by lia.
    split; [intros; apply slot_app_unmapped|].
    rewrite length_app, repeat_length. lia.
  - apply Nat.leb_gt in H. auto.
Qed.

Lemma mirror_involutive (m : MappedNode) : mirror (mirror m) = m.
Proof. destruct m; reflexivity. Qed.

Lemma mirror_unmapped (m : MappedNode) : mirror m = Unmapped <-> m = Unmapped.
Proof. destruct m; simpl; split; congruence. Qed.

Lemma oriented_unmapped (side : bool) (e : PlainBCalm2Edge) (m : MappedNode) :
  oriented side e m = Unmapped <-> m = Unmapped.
Proof. unfold oriented. destruct (Bool.eqb _ _); [reflexivity|apply mirror_unmapped]. Qed.


(* ------------------------------------------------------------------ *)
(** ** The steps of a block, for any input *)

Lemma search_spec (side : bool) (n : nat) (es : list PlainBCalm2Edge) :
  forall node_map node_map' found,
  search_neighbors side n node_map es = Ok (node_map', found) ->
  List.length node_map <= List.length node_map' /\
  (found = false ->
   (forall u, slot node_map' u = slot node_map u) /\
   (forall e, In e es -> slot node_map (edge_slot e) = Unmapped /\
                         edge_slot e < List.length node_map')) /\
  (found = true ->
   n < List.length node_map' /\
   exists e, In e es /\ slot node_map (edge_slot e) <> Unmapped /\
     forall u, slot node_map' u =
               if u =? n then oriented side e (slot node_map (edge_slot e))
               else slot node_map u).
Proof.
  induction es as [|e es IH]; intros node_map node_map' found H; simpl in H.
  - inversion H; subst. split; [lia|]. split; [|discriminate].
    intros _. split; [reflexivity|intros e []].
  - destruct (grown_slot node_map (edge_slot e)) as (Hs & Hl & Ht).
    revert H Hs Hl Ht.
    generalize (if List.length node_map <=? edge_slot e
                then resize node_map (edge_slot e + 1) Unmapped else node_map).
    intros nm H Hs Hl Ht. rewrite (vget_slot nm _ Ht) in H. simpl in H.
    destruct (mapped_eqb (slot nm (edge_slot e)) Unmapped) eqn:Hv; simpl in H.
    + apply mapped_eqb_unmapped in Hv.
      destruct (IH _ _ _ H) as (Hl' & Hf & Ht').
      split; [lia|]. split.
      * intros Hfd. destruct (Hf Hfd) as (Hs' & Hin). split.
        -- intros u. rewrite Hs', Hs. reflexivity.
        -- intros e' [<-|He']; [rewrite <- Hs; split; [exact Hv|lia]|].
           destruct (Hin e' He') as [Hu Hlt]. rewrite <- Hs. auto.
      * intros Hfd. destruct (Ht' Hfd) as (Hn & e' & He' & Hm & Hs').
        split; [exact Hn|]. exists e'. rewrite <- Hs. split; [right; exact He'|].
        split; [exact Hm|]. intros u. rewrite Hs', !Hs. reflexivity.
    + destruct (vset nm n _) as [nm1| |] eqn:Hset; simpl in H; try discriminate.
      inversion H; subst node_map' found. apply vset_ok_inv in Hset as [Hn ->].
      rewrite length_update. split; [lia|]. split; [discriminate|].
      intros _. split; [exact Hn|]. exists e. split; [left; reflexivity|].
      rewrite <- Hs. split.
      * intros Hu. rewrite Hu in Hv. discriminate.
      * intros u. rewrite slot_update by exact Hn. rewrite !Hs. reflexivity.
Qed.


Lemma update_app_r {A : Type} (l r : list A) (i : nat) (y : A) :
  update (l ++ r) (List.length l + i) y = l ++ update r i y.
Proof. induction l as [|a l IH]; simpl; auto. rewrite IH. reflexivity. Qed.

Lemma update_at_length {A : Type} (l r : list A) (x y : A) :
  update (l ++ x :: r) (List.length l) y = l ++ y :: r.
Proof. induction l as [|a l IH]; simpl; auto. rewrite IH. reflexivity. Qed.

Lemma update_after_length {A : Type} (l : list A) (x1 x2 y : A) :
  update (l ++ [x1; x2]) (S (List.length l)) y = l ++ [x1; y].
Proof. induction l as [|a l IH]; simpl; auto. rewrite IH. reflexivity. Qed.

Lemma create_binode_self (g : Graph) :
  create_binode true g =
  Ok (SelfMirror (node_count g),
      {| mirrors := mirrors g ++ [Some (node_count g)]; graph_edges := graph_edges g |}).
Proof.
  unfold create_binode, add_node, set_mirror_nodes, node_count. simpl.
  rewrite vset_ok by (rewrite length_app; simpl; lia).
  rewrite update_at_length. simpl.
  rewrite vset_ok by (rewrite length_app; simpl; lia).
  rewrite update_at_length. reflexivity.
Qed.

Lemma create_binode_pair (g : Graph) :
  create_binode false g =
  Ok (Normal (node_count g) (S (node_count g)),
      {| mirrors := mirrors g ++ [Some (S (node_count g)); Some (node_count g)];
         graph_edges := graph_edges g |}).
Proof.
  unfold create_binode, add_node, set_mirror_nodes, node_count. simpl.
  rewrite length_app. simpl. rewrite <- app_assoc. simpl.
  rewrite vset_ok by (rewrite length_app; simpl; lia).
  rewrite update_at_length. simpl.
  rewrite vset_ok by (rewrite length_app; simpl; lia).
  rewrite Nat.add_1_r, update_after_length. reflexivity.
Qed.

Lemma mirror_node_app (g : Graph) (xs : list (option nat)) (n : nat) :
  mirror_node {| mirrors := mirrors g ++ xs; graph_edges := graph_edges g |} n =
  if n <? node_count g then mirror_node g n
  else match nth_error xs (n - node_count g) with Some (Some m) => Some m | _ => None end.
Proof.
  unfold mirror_node, node_count. simpl. destruct (n <? List.length (mirrors g)) eqn:H.
  - apply Nat.ltb_lt in H. rewrite nth_error_app1 by exact H. reflexivity.
  - apply Nat.ltb_ge in H. rewrite nth_error_app2 by exact H. reflexivity.
Qed.

Lemma mirror_node_lt (g : Graph) (n m : nat) : mirror_node g n = Some m -> n < node_count g.
Proof.
  unfold mirror_node, node_count. destruct (nth_error (mirrors g) n) eqn:H; [|discriminate].
  intros _. apply nth_error_Some. congruence.
Qed.

Lemma graph_ext_app (g : Graph) (xs : list (option nat)) :
  graph_ext g {| mirrors := mirrors g ++ xs; graph_edges := graph_edges g |}.
Proof.
  split; [reflexivity|]. split.
  - unfold node_count. simpl. rewrite length_app. lia.
  - intros n m H. rewrite mirror_node_app. pose proof (mirror_node_lt _ _ _ H).
    apply Nat.ltb_lt in H0. rewrite H0. exact H.
Qed.

Lemma graph_ext_refl (g : Graph) : graph_ext g g.
Proof. split; [reflexivity|]. split; auto. Qed.

Lemma graph_ext_trans (g1 g2 g3 : Graph) : graph_ext g1 g2 -> graph_ext g2 g3 -> graph_ext g1 g3.
Proof.
  intros (He1 & Hn1 & Hm1) (He2 & Hn2 & Hm2). split; [congruence|]. split; [lia|]. auto.
Qed.

Lemma registered_ext (g g' : Graph) (m : MappedNode) :
  graph_ext g g' -> registered g m -> registered g' m.
Proof.
  intros (_ & _ & Hm). destruct m; simpl; auto. intros [H1 H2]. auto.
Qed.

Lemma registered_mirror (g : Graph) (m : MappedNode) : registered g (mirror m) <-> registered g m.
Proof. destruct m; simpl; tauto. Qed.

Lemma registered_oriented (g : Graph) (side : bool) (e : PlainBCalm2Edge) (m : MappedNode) :
  registered g (oriented side e m) <-> registered g m.
Proof. unfold oriented. destruct (Bool.eqb _ _); [tauto|apply registered_mirror]. Qed.

(** A created binode is made of new nodes registered as mirrors. *)
Lemma create_binode_spec (self_mirror : bool) (g : Graph) :
  exists b g', create_binode self_mirror g = Ok (b, g') /\ graph_ext g g' /\
    registered g' b /\ b <> Unmapped /\
    (self_mirror = true -> b = SelfMirror (node_count g)) /\
    (self_mirror = false -> b = Normal (node_count g) (S (node_count g))) /\
    node_count g' = node_count g + (if self_mirror then 1 else 2).
Proof.
  destruct self_mirror.
  - rewrite create_binode_self. do 2 eexists. split; [reflexivity|].
    split; [apply graph_ext_app|]. split.
    + simpl. rewrite mirror_node_app, Nat.ltb_irrefl, Nat.sub_diag. reflexivity.
    + split; [discriminate|]. split; [auto|]. split; [discriminate|].
      unfold node_count. simpl. rewrite length_app. reflexivity.
  - rewrite create_binode_pair. do 2 eexists. split; [reflexivity|].
    split; [apply graph_ext_app|]. split.
    + simpl. rewrite !mirror_node_app, Nat.ltb_irrefl, Nat.sub_diag.
      replace (S (node_count g) <? node_count g) with false by (symmetry; apply Nat.ltb_ge; lia).
      replace (S (node_count g) - node_count g) with 1 by lia. auto.
    + split; [discriminate|]. split; [discriminate|]. split; [auto|].
      unfold node_count. simpl. rewrite length_app. reflexivity.
Qed.


Lemma assign_general (side : bool) (n : nat) (es : list PlainBCalm2Edge) :
  forall node_map node_map',
  assign_to_neighbors side n node_map es = Ok node_map' ->
  slot node_map n <> Unmapped ->
  List.length node_map' = List.length node_map /\
  (forall u, slot node_map u <> Unmapped -> slot node_map' u <> Unmapped) /\
  (forall e, In e es -> slot node_map' (edge_slot e) <> Unmapped) /\
  (forall g, (forall u, registered g (slot node_map u)) ->
             forall u, registered g (slot node_map' u)).
Proof.
  induction es as [|e es IH]; intros nm nm' H Hn; simpl in H.
  - inversion H; subst. split; [reflexivity|]. split; [auto|]. split; [intros e []|auto].
  - destruct (vget nm n) as [v| |] eqn:Hv; simpl in H; try discriminate.
    apply vget_slot_inv in Hv as [-> Hnl].
    destruct (vset nm (edge_slot e) _) as [nm1| |] eqn:Hs; simpl in H; try discriminate.
    apply vset_ok_inv in Hs as [Ht ->].
    assert (Hw : forall u, slot (update nm (edge_slot e) (oriented side e (slot nm n))) u
                           = if u =? edge_slot e then oriented side e (slot nm n)
                             else slot nm u) by (intros; apply slot_update; exact Ht).
    assert (Hmono : forall u, slot nm u <> Unmapped ->
              slot (update nm (edge_slot e) (oriented side e (slot nm n))) u <> Unmapped).
    { intros u Hu. rewrite Hw. destruct (u =? edge_slot e); auto.
      rewrite oriented_unmapped. exact Hn. }
    destruct (IH _ _ H (Hmono n Hn)) as (Hl & Hm & Hin & Hr).
    split; [rewrite Hl, length_update; reflexivity|].
    split; [auto|]. split.
    + intros e' [<-|He']; auto. apply Hm. rewrite Hw, Nat.eqb_refl, oriented_unmapped. exact Hn.
    + intros g Hg. apply Hr. intros u. rewrite Hw. destruct (u =? edge_slot e); auto.
      apply registered_oriented. auto.
Qed.

Lemma resolve_head_block (n1 : nat) (f : bool) (es : list PlainBCalm2Edge)
    (node_map : list MappedNode) (g : Graph) :
  resolve_head n1 f es node_map g = resolve_block false n1 f (relevant_edges false es) node_map g.
Proof. reflexivity. Qed.

Lemma resolve_tail_block (n1 n2 : nat) (f : bool) (es : list PlainBCalm2Edge)
    (node_map : list MappedNode) (g : Graph) :
  resolve_tail n1 n2 f false es node_map g
  = resolve_block true n2 f (relevant_edges true es) node_map g.
Proof. reflexivity. Qed.

(** A block, for any input: the slot is mapped afterwards, no mapped slot
    becomes [Unmapped], and only new nodes are added. *)
Lemma block_general (side : bool) (n : nat) (f : bool) (L : list PlainBCalm2Edge)
    (node_map node_map' : list MappedNode) (g g' : Graph) :
  resolve_block side n f L node_map g = Ok (node_map', g') ->
  (forall u, registered g (slot node_map u)) ->
  graph_ext g g' /\ (forall u, registered g' (slot node_map' u)) /\
  (forall u, slot node_map u <> Unmapped -> slot node_map' u <> Unmapped) /\
  slot node_map' n <> Unmapped /\ List.length node_map <= List.length node_map'.
Proof.
  intros H Hr. unfold resolve_block in H.
  destruct (vget node_map n) as [v| |] eqn:Hv; simpl in H; try discriminate.
  apply vget_slot_inv in Hv as [-> Hnl].
  destruct (mapped_eqb (slot node_map n) Unmapped) eqn:Hu.
  2:{ inversion H; subst. split; [apply graph_ext_refl|]. split; [auto|]. split; [auto|].
      split; [|lia]. intros E. rewrite E in Hu. discriminate. }
  apply mapped_eqb_unmapped in Hu.
  destruct (search_or_create side n f L node_map g) as [[[nm1 g1] assign]| |] eqn:Hsc;
    simpl in H; try discriminate.
  assert (Hpre : graph_ext g g1 /\ (forall u, registered g1 (slot nm1 u)) /\
             (forall u, slot node_map u <> Unmapped -> slot nm1 u <> Unmapped) /\
             slot nm1 n <> Unmapped /\ List.length node_map <= List.length nm1).
  { unfold search_or_create in Hsc.
    destruct (search_neighbors side n node_map L) as [[nm0 found]| |] eqn:Hs;
      simpl in Hsc; try discriminate.
    destruct (search_spec _ _ _ _ _ _ Hs) as (Hl0 & Hf & Ht).
    destruct (vget nm0 n) as [v0| |] eqn:Hv0; simpl in Hsc; try discriminate.
    apply vget_slot_inv in Hv0 as [-> Hn0].
    destruct (mapped_eqb (slot nm0 n) Unmapped) eqn:Hm0.
    - apply mapped_eqb_unmapped in Hm0.
      assert (Hfd : found = false).
      { destruct found; auto. destruct (Ht eq_refl) as (_ & e & _ & Hm & Hsl).
        rewrite Hsl, Nat.eqb_refl, oriented_unmapped in Hm0. contradiction. }
      destruct (Hf Hfd) as (Hsl & _).
      destruct (create_binode_spec f g) as (b & g2 & Hc & Hext & Hreg & Hb & _).
      rewrite Hc in Hsc. simpl in Hsc. rewrite vset_ok in Hsc by exact Hn0.
      simpl in Hsc. inversion Hsc; subst nm1 g1 assign.
      split; [exact Hext|]. split; [|split; [|split]].
      + intros u. rewrite slot_update by exact Hn0. destruct (u =? n); auto.
        rewrite Hsl. apply (registered_ext g); auto.
      + intros u Hu'. rewrite slot_update by exact Hn0. destruct (u =? n) eqn:E; auto.
        rewrite Hsl. exact Hu'.
      + rewrite slot_update, Nat.eqb_refl by exact Hn0. exact Hb.
      + rewrite length_update. exact Hl0.
    - inversion Hsc; subst nm1 g1 assign. split; [apply graph_ext_refl|].
      destruct found.
      + destruct (Ht eq_refl) as (_ & e & _ & Hm & Hsl). split; [|split; [|split]].
        * intros u. rewrite Hsl. destruct (u =? n); auto. apply registered_oriented. auto.
        * intros u Hu'. rewrite Hsl. destruct (u =? n) eqn:E; auto.
          rewrite oriented_unmapped. exact Hm.
        * intros E. rewrite E in Hm0. discriminate.
        * exact Hl0.
      + destruct (Hf eq_refl) as (Hsl & _). split; [|split; [|split]].
        * intros u. rewrite Hsl. auto.
        * intros u Hu'. rewrite Hsl. exact Hu'.
        * intros E. rewrite E in Hm0. discriminate.
        * exact Hl0. }
  destruct Hpre as (Hext & Hreg & Hmono & Hn1 & Hl1).
  destruct assign.
  - destruct (assign_to_neighbors side n nm1 L) as [nm2| |] eqn:Ha; simpl in H; try discriminate.
    inversion H; subst. destruct (assign_general _ _ _ _ _ Ha Hn1) as (Hl2 & Hm2 & _ & Hr2).
    split; [exact Hext|]. split; [apply Hr2; exact Hreg|]. split; [auto|]. split; [auto|]. lia.
  - inversion H; subst. auto.
Qed.


Lemma shortcut_general (n1 n2 : nat) (f : bool) (es : list PlainBCalm2Edge)
    (node_map node_map' : list MappedNode) (g g' : Graph) :
  resolve_tail n1 n2 f true es node_map g = Ok (node_map', g') ->
  slot node_map n1 <> Unmapped ->
  (forall u, registered g (slot node_map u)) ->
  g' = g /\ (forall u, registered g' (slot node_map' u)) /\
  (forall u, slot node_map u <> Unmapped -> slot node_map' u <> Unmapped) /\
  slot node_map' n2 <> Unmapped /\ List.length node_map <= List.length node_map'.
Proof.
  intros H H1 Hr. unfold resolve_tail in H.
  destruct (vget node_map n2) as [v| |] eqn:Hv; simpl in H; try discriminate.
  apply vget_slot_inv in Hv as [-> Hn2].
  destruct (mapped_eqb (slot node_map n2) Unmapped) eqn:Hu.
  2:{ inversion H; subst. split; [reflexivity|]. split; [auto|]. split; [auto|].
      split; [|lia]. intros E. rewrite E in Hu. discriminate. }
  unfold tail_shortcut in H.
  destruct (vget node_map n1) as [v1| |] eqn:Hv1; simpl in H; try discriminate.
  apply vget_slot_inv in Hv1 as [-> Hn1].
  rewrite vset_ok in H by exact Hn2. simpl in H.
  set (nm1 := update node_map n2 (mirror (slot node_map n1))) in H.
  assert (Hs1 : forall u, slot nm1 u = if u =? n2 then mirror (slot node_map n1)
                                       else slot node_map u)
    by (intros; apply slot_update; exact Hn2).
  assert (Hm1 : forall u, slot node_map u <> Unmapped -> slot nm1 u <> Unmapped).
  { intros u Hu'. rewrite Hs1. destruct (u =? n2); auto. rewrite mirror_unmapped. exact H1. }
  assert (Hn21 : slot nm1 n2 <> Unmapped).
  { rewrite Hs1, Nat.eqb_refl, mirror_unmapped. exact H1. }
  assert (Hr1 : forall u, registered g (slot nm1 u)).
  { intros u. rewrite Hs1. destruct (u =? n2); auto. apply registered_mirror. auto. }
  destruct (assign_to_neighbors true n2 nm1 (relevant_edges true es)) as [nm2| |] eqn:Ha;
    simpl in H; try discriminate.
  inversion H; subst. destruct (assign_general _ _ _ _ _ Ha Hn21) as (Hl2 & Hm2 & _ & Hr2).
  split; [reflexivity|]. split; [apply Hr2; exact Hr1|]. split; [auto|]. split; [auto|].
  rewrite Hl2. unfold nm1. rewrite length_update. lia.
Qed.

Lemma add_edge_inv (g g' : Graph) (a b : nat) (d : PlainBCalm2NodeData) :
  add_edge g a b d = Ok g' ->
  a < node_count g /\ b < node_count g /\
  g' = {| mirrors := mirrors g; graph_edges := graph_edges g ++ [(a, b, d)] |}.
Proof.
  unfold add_edge. destruct (a <? node_count g) eqn:Ha, (b <? node_count g) eqn:Hb;
    simpl; try discriminate.
  intros [= <-]. apply Nat.ltb_lt in Ha, Hb. auto.
Qed.

Lemma endpoints_registered (g : Graph) (v : MappedNode) (a a' : nat) :
  endpoints_of v = Ok (a, a') -> registered g v ->
  mirror_node g a = Some a' /\ mirror_node g a' = Some a.
Proof.
  destruct v as [|f b|m]; simpl; try discriminate; intros [= <- <-]; auto.
Qed.

(** One record, for any input: two edges, registered as mirrors. *)
Lemma build_step_general (kmer_size : nat) (store : SequenceStore)
    (d : PlainBCalm2NodeData) (node_map node_map' : list MappedNode) (g g' : Graph) :
  build_step kmer_size store d node_map g = Ok (node_map', g') ->
  (forall u, registered g (slot node_map u)) ->
  exists a a' b b',
    endpoints_of (slot node_map' (id d * 2)) = Ok (a, a') /\
    endpoints_of (slot node_map' (id d * 2 + 1)) = Ok (b, b') /\
    graph_edges g' = graph_edges g ++ [(a, b, d); (b', a', mirror_data d)] /\
    mirror_node g' a = Some a' /\ mirror_node g' a' = Some a /\
    mirror_node g' b = Some b' /\ mirror_node g' b' = Some b /\
    (forall n m, mirror_node g n = Some m -> mirror_node g' n = Some m) /\
    (forall u, registered g' (slot node_map' u)) /\
    (forall u, slot node_map u <> Unmapped -> slot node_map' u <> Unmapped) /\
    slot node_map' (id d * 2) <> Unmapped /\ slot node_map' (id d * 2 + 1) <> Unmapped.
Proof.
  intros H Hr. unfold build_step in H.
  destruct (kmer_size =? 0); simpl in H; [discriminate|].
  destruct (grown_slot node_map (id d * 2 + 1)) as (Hs0 & Hl0 & Ht0).
  revert H Hs0 Hl0 Ht0.
  generalize (if List.length node_map <=? id d * 2 + 1
              then resize node_map (id d * 2 + 1 + 1) Unmapped else node_map).
  intros nm0 H Hs0 Hl0 Ht0.
  assert (Hr0 : forall u, registered g (slot nm0 u)) by (intros; rewrite Hs0; auto).
  rewrite resolve_head_block in H.
  destruct (resolve_block false (id d * 2) _ _ nm0 g) as [[nm1 g1]| |] eqn:H1;
    simpl in H; try discriminate.
  destruct (block_general _ _ _ _ _ _ _ _ H1 Hr0) as (Hx1 & Hr1 & Hm1 & Hn1 & Hl1).
  destruct (resolve_tail _ _ _ _ _ nm1 g1) as [[nm2 g2]| |] eqn:H2;
    simpl in H; try discriminate.
  assert (Hpost : graph_ext g1 g2 /\ (forall u, registered g2 (slot nm2 u)) /\
                  (forall u, slot nm1 u <> Unmapped -> slot nm2 u <> Unmapped) /\
                  slot nm2 (id d * 2 + 1) <> Unmapped).
  { destruct (edge_is_self_mirror kmer_size _).
    - destruct (shortcut_general _ _ _ _ _ _ _ _ H2 Hn1 Hr1) as (-> & Hr2 & Hm2 & Hn2 & _).
      split; [apply graph_ext_refl|]. auto.
    - rewrite resolve_tail_block in H2.
      destruct (block_general _ _ _ _ _ _ _ _ H2 Hr1) as (Hx2 & Hr2 & Hm2 & Hn2 & _). auto. }
  destruct Hpost as (Hx2 & Hr2 & Hm2 & Hn2).
  destruct (vget nm2 (id d * 2)) as [v1| |] eqn:Hv1; simpl in H; try discriminate.
  apply vget_slot_inv in Hv1 as [-> _].
  destruct (endpoints_of (slot nm2 (id d * 2))) as [[a a']| |] eqn:He1; simpl in H;
    try discriminate.
  destruct (vget nm2 (id d * 2 + 1)) as [v2| |] eqn:Hv2; simpl in H; try discriminate.
  apply vget_slot_inv in Hv2 as [-> _].
  destruct (endpoints_of (slot nm2 (id d * 2 + 1))) as [[b b']| |] eqn:He2; simpl in H;
    try discriminate.
  destruct (add_edge g2 a b d) as [g3| |] eqn:Ha1; simpl in H; try discriminate.
  destruct (add_edge g3 b' a' (mirror_data d)) as [g4| |] eqn:Ha2; simpl in H; try discriminate.
  inversion H; subst node_map' g'.
  apply add_edge_inv in Ha1 as (_ & _ & ->). apply add_edge_inv in Ha2 as (_ & _ & ->).
  pose proof (graph_ext_trans _ _ _ Hx1 Hx2) as (Hed & _ & Hmir).
  destruct (endpoints_registered g2 _ _ _ He1 (Hr2 _)) as [Ha Ha'].
  destruct (endpoints_registered g2 _ _ _ He2 (Hr2 _)) as [Hb Hb'].
  exists a, a', b, b'. unfold mirror_node in *; simpl.
  split; [exact He1|]. split; [exact He2|].
  split; [simpl; rewrite <- app_assoc, Hed; reflexivity|].
  split; [exact Ha|]. split; [exact Ha'|]. split; [exact Hb|]. split; [exact Hb'|].
  split; [exact Hmir|]. split; [exact Hr2|]. split.
  - intros u Hu. apply Hm2, Hm1. rewrite Hs0. exact Hu.
  - split; [apply Hm2|]; assumption.
Qed.


Lemma parse_ok_inv (record : FastaRecord) (store store' : SequenceStore)
    (d : PlainBCalm2NodeData) :
  parse_bcalm2_fasta_record record store = Ok (d, store') ->
  exists g, decode (record_seq record) = Some g /\ store' = store ++ [g] /\
    parse_usize (record_id record) = Some (id d) /\
    sequence_handle d = List.length store /\ forwards d = true /\
    description_parameters record
    = Ok (length d, total_abundance d, mean_abundance d, edges d) /\
    (length d = None \/ length d = Some (List.length g)).
Proof.
  unfold parse_bcalm2_fasta_record, add_from_slice_u8.
  destruct (parse_usize (record_id record)) as [n|] eqn:Hid; simpl; [|discriminate].
  destruct (decode (record_seq record)) as [g|] eqn:Hd; [|discriminate].
  rewrite store_get_last.
  destruct (description_parameters record) as [[[[len ka] km] es]| |] eqn:Hp;
    simpl; try discriminate.
  intros H. exists g.
  destruct len as [l|]; simpl in H.
  - destruct (negb (l =? List.length g)) eqn:Hl; simpl in H; [discriminate|].
    inversion H; subst. simpl. apply negb_false_iff, Nat.eqb_eq in Hl. subst.
    repeat split; auto.
  - inversion H; subst. simpl. repeat split; auto.
Qed.

Lemma loop_app (kmer_size : nat) (rs1 rs2 : list FastaRecord) (store : SequenceStore)
    (node_map : list MappedNode) (g : Graph) :
  edge_centric_loop kmer_size (rs1 ++ rs2) store node_map g
  = ('(node_map, g, store) <- edge_centric_loop kmer_size rs1 store node_map g ;;
     edge_centric_loop kmer_size rs2 store node_map g).
Proof.
  revert store node_map g. induction rs1 as [|r rs1 IH]; intros store node_map g; simpl.
  - reflexivity.
  - destruct (parse_bcalm2_fasta_record r store) as [[d st]| |]; simpl; auto.
    destruct (build_step kmer_size st d node_map g) as [[nm g1]| |]; simpl; auto.
Qed.

Lemma nth_error_flat_map_pair (q : list (nat * nat * nat * nat * PlainBCalm2NodeData))
    (i : nat) (a a' b b' : nat) (d : PlainBCalm2NodeData) :
  nth_error q i = Some (a, a', b, b', d) ->
  nth_error (flat_map edge_pair q) (i * 2) = Some (a, b, d) /\
  nth_error (flat_map edge_pair q) (i * 2 + 1) = Some (b', a', mirror_data d).
Proof.
  revert i. induction q as [|x q IH]; intros [|i] H; simpl in *; try discriminate.
  - inversion H; subst. simpl. auto.
  - destruct x as [[[[x1 x2] x3] x4] x5]. simpl. apply IH. exact H.
Qed.

Lemma length_flat_map_pair (q : list (nat * nat * nat * nat * PlainBCalm2NodeData)) :
  List.length (flat_map edge_pair q) = List.length q * 2.
Proof.
  induction q as [|[[[[x1 x2] x3] x4] x5] q IH]; simpl; auto.
Qed.

(** The loop over the records, for any input. *)
Lemma loop_general (kmer_size : nat) (rs : list FastaRecord) :
  forall store node_map g node_map' g' store',
  edge_centric_loop kmer_size rs store node_map g = Ok (node_map', g', store') ->
  (forall u, registered g (slot node_map u)) ->
  exists q,
    List.length q = List.length rs /\
    graph_edges g' = graph_edges g ++ flat_map edge_pair q /\
    (forall n m, mirror_node g n = Some m -> mirror_node g' n = Some m) /\
    (forall u, registered g' (slot node_map' u)) /\
    (forall u, slot node_map u <> Unmapped -> slot node_map' u <> Unmapped) /\
    List.length store' = List.length store + List.length rs /\
    forall i a a' b b' d, nth_error q i = Some (a, a', b, b', d) ->
      mirror_node g' a = Some a' /\ mirror_node g' a' = Some a /\
      mirror_node g' b = Some b' /\ mirror_node g' b' = Some b /\
      sequence_handle d = List.length store + i /\ forwards d = true /\
      (exists r st st', nth_error rs i = Some r /\
         parse_bcalm2_fasta_record r st = Ok (d, st') /\
         parse_usize (record_id r) = Some (id d)) /\
      slot node_map' (id d * 2) <> Unmapped /\ slot node_map' (id d * 2 + 1) <> Unmapped.
Proof.
  induction rs as [|r rs IH]; intros store node_map g node_map' g' store' H Hr; simpl in H.
  - inversion H; subst. exists []. simpl. rewrite app_nil_r.
    split; [reflexivity|]. split; [reflexivity|]. split; [auto|]. split; [auto|].
    split; [auto|]. split; [lia|]. intros [|i]; discriminate.
  - destruct (parse_bcalm2_fasta_record r store) as [[d st]| |] eqn:Hp; simpl in H;
      try discriminate.
    destruct (parse_ok_inv _ _ _ _ Hp) as (gn & _ & -> & Hid & Hh & Hfw & _).
    destruct (build_step kmer_size (store ++ [gn]) d node_map g) as [[nm1 g1]| |] eqn:Hb;
      simpl in H; try discriminate.
    destruct (build_step_general _ _ _ _ _ _ _ Hb Hr)
      as (a & a' & b & b' & _ & _ & He & Ha & Ha' & Hb1 & Hb' & Hmir & Hr1 & Hm1 & Hn1 & Hn2).
    destruct (IH _ _ _ _ _ _ H Hr1) as (q & Hlq & He2 & Hmir2 & Hr2 & Hm2 & Hls & Hq).
    exists ((a, a', b, b', d) :: q). split; [simpl; congruence|].
    split; [rewrite He2, He; simpl; rewrite <- app_assoc; reflexivity|].
    split; [auto|]. split; [exact Hr2|]. split; [auto|].
    split; [rewrite Hls, length_app; simpl; lia|].
    intros [|i] x x' y y' dd Hi; simpl in Hi.
    + inversion Hi; subst. split; [auto|]. split; [auto|]. split; [auto|]. split; [auto|].
      split; [lia|]. split; [exact Hfw|]. split; [exists r, store, (store ++ [gn]); auto|]. auto.
    + destruct (Hq _ _ _ _ _ _ Hi) as (H1 & H2 & H3 & H4 & H5 & H6 & H7 & H8).
      rewrite length_app in H5. simpl in H5.
      split; [auto|]. split; [auto|]. split; [auto|]. split; [auto|].
      split; [lia|]. split; [auto|]. split; [|auto].
      destruct H7 as (r' & s1 & s2 & Hr' & Hp' & Hid'). exists r', s1, s2. auto.
Qed.


Lemma mirror_data_involutive (d : PlainBCalm2NodeData) : mirror_data (mirror_data d) = d.
Proof. destruct d; unfold mirror_data; simpl; rewrite Bool.negb_involutive; reflexivity. Qed.

Lemma data_eqb_refl (d : PlainBCalm2NodeData) : data_eqb d d = true.
Proof. unfold data_eqb. rewrite Nat.eqb_refl, Bool.eqb_reflx. reflexivity. Qed.

Lemma data_eqb_true (d1 d2 : PlainBCalm2NodeData) :
  data_eqb d1 d2 = true ->
  sequence_handle d1 = sequence_handle d2 /\ forwards d1 = forwards d2.
Proof.
  unfold data_eqb. intros H. apply andb_true_iff in H as [H1 H2].
  apply Nat.eqb_eq in H1. apply Bool.eqb_prop in H2. auto.
Qed.

Lemma find_unique {A : Type} (p : A -> bool) (l : list A) (x : A) :
  In x l -> p x = true -> (forall y, In y l -> p y = true -> y = x) ->
  find p l = Some x.
Proof.
  induction l as [|y l IH]; simpl; intros Hin Hp Hu; [contradiction|].
  destruct (p y) eqn:Hy.
  - f_equal. apply Hu; auto.
  - destruct Hin as [<-|Hin]; [congruence|]. apply IH; auto.
Qed.

Lemma in_indexed {A : Type} (l : list A) :
  forall s i x, In (i, x) (indexed s l) <-> exists j, i = s + j /\ nth_error l j = Some x.
Proof.
  induction l as [|y l IH]; intros s i x; simpl.
  - split; [contradiction|]. intros (j & _ & Hj). destruct j; discriminate.
  - rewrite IH. split.
    + intros [H|(j & -> & Hj)].
      * inversion H; subst. exists 0. split; [lia|reflexivity].
      * exists (S j). split; [lia|exact Hj].
    + intros ([|j] & -> & Hj); simpl in Hj.
      * left. inversion Hj; subst. f_equal. lia.
      * right. exists j. split; [lia|exact Hj].
Qed.

Lemma in_out_edges (g : Graph) (n e : nat) :
  In e (out_edges g n) <-> exists t d, nth_error (graph_edges g) e = Some (n, t, d).
Proof.
  unfold out_edges. rewrite <- in_rev, in_map_iff. split.
  - intros ([e' x] & <- & Hin). apply filter_In in Hin as [Hin Hf].
    apply in_indexed in Hin as (j & -> & Hj). simpl in *.
    destruct x as [[f t] d]. simpl in Hf. apply Nat.eqb_eq in Hf. subst. eauto.
  - intros (t & d & H). exists (e, (n, t, d)). split; [reflexivity|].
    apply filter_In. split.
    + apply in_indexed. exists e. auto.
    + simpl. apply Nat.eqb_refl.
Qed.

Lemma edge_index (q : list (nat * nat * nat * nat * PlainBCalm2NodeData)) (e : nat) :
  e < List.length (flat_map edge_pair q) ->
  exists i a a' b b' d, nth_error q i = Some (a, a', b, b', d) /\
    ((e = i * 2 /\ nth_error (flat_map edge_pair q) e = Some (a, b, d)) \/
     (e = i * 2 + 1 /\ nth_error (flat_map edge_pair q) e = Some (b', a', mirror_data d))).
Proof.
  rewrite length_flat_map_pair. intros He.
  assert (Hi : e / 2 < List.length q).
  { apply Nat.Div0.div_lt_upper_bound. lia. }
  destruct (nth_error q (e / 2)) as [[[[[a a'] b] b'] d]|] eqn:Hq;
    [|apply nth_error_None in Hq; lia].
  exists (e / 2), a, a', b, b', d. split; [exact Hq|].
  destruct (nth_error_flat_map_pair _ _ _ _ _ _ _ Hq) as [H0 H1].
  pose proof (Nat.div_mod_eq e 2) as Hdm.
  pose proof (Nat.mod_upper_bound e 2 ltac:(lia)) as Hm.
  destruct (e mod 2) as [|[|m]] eqn:Hem; [left|right|lia].
  - assert (e = e / 2 * 2) as He2 by lia. split; [exact He2|]. rewrite He2 at 1. exact H0.
  - assert (e = e / 2 * 2 + 1) as He2 by lia. split; [exact He2|]. rewrite He2 at 1. exact H1.
Qed.


Lemma edge_data_injective (q : list (nat * nat * nat * nat * PlainBCalm2NodeData))
    (base : nat) :
  (forall i a a' b b' d, nth_error q i = Some (a, a', b, b', d) ->
     sequence_handle d = base + i /\ forwards d = true) ->
  forall e1 e2 x1 y1 d1 x2 y2 d2,
  nth_error (flat_map edge_pair q) e1 = Some (x1, y1, d1) ->
  nth_error (flat_map edge_pair q) e2 = Some (x2, y2, d2) ->
  sequence_handle d1 = sequence_handle d2 -> forwards d1 = forwards d2 -> e1 = e2.
Proof.
  intros Hq e1 e2 x1 y1 d1 x2 y2 d2 H1 H2 Hh Hf.
  assert (L1 : e1 < List.length (flat_map edge_pair q))
    by (apply nth_error_Some; congruence).
  assert (L2 : e2 < List.length (flat_map edge_pair q))
    by (apply nth_error_Some; congruence).
  destruct (edge_index _ _ L1) as (i1 & a1 & a1' & b1 & b1' & c1 & Hq1 & [[-> E1]|[-> E1]]);
  destruct (edge_index _ _ L2) as (i2 & a2 & a2' & b2 & b2' & c2 & Hq2 & [[-> E2]|[-> E2]]);
  rewrite E1 in H1; rewrite E2 in H2; inversion H1; inversion H2; subst;
  destruct (Hq _ _ _ _ _ _ Hq1) as [Hh1 Hf1]; destruct (Hq _ _ _ _ _ _ Hq2) as [Hh2 Hf2];
  simpl in Hh, Hf; rewrite ?Hf1, ?Hf2 in Hf; simpl in Hf; try discriminate; lia.
Qed.


Lemma registered_empty (u : nat) : registered empty_graph (slot [] u).
Proof. unfold slot. destruct u; exact I. Qed.

(** A graph whose edges are the pairs [edge_pair] of a list of records
    with distinct handles: every edge has exactly one mirror edge, the
    other edge of its pair, and [mirror_edge_edge_centric] finds it. *)
Lemma pair_graph_mirror_edges (g : Graph)
    (q : list (nat * nat * nat * nat * PlainBCalm2NodeData)) (base : nat) :
  graph_edges g = flat_map edge_pair q ->
  (forall i a a' b b' d, nth_error q i = Some (a, a', b, b', d) ->
     mirror_node g a = Some a' /\ mirror_node g a' = Some a /\
     mirror_node g b = Some b' /\ mirror_node g b' = Some b /\
     sequence_handle d = base + i /\ forwards d = true) ->
  forall e, e < edge_count g ->
     exists f, is_mirror_edge g e f /\ (forall f', is_mirror_edge g e f' -> f' = f) /\
       mirror_edge_edge_centric g e = Some f /\
       exists i, (e = i * 2 /\ f = i * 2 + 1) \/ (e = i * 2 + 1 /\ f = i * 2).
Proof.
  intros He Hq.
  assert (Hqd : forall i a a' b b' d, nth_error q i = Some (a, a', b, b', d) ->
            sequence_handle d = base + i /\ forwards d = true).
  { intros i a a' b b' d Hi. destruct (Hq _ _ _ _ _ _ Hi) as (_&_&_&_&H5&H6). auto. }
  assert (Hinj := edge_data_injective q _ Hqd).
  intros e Hel. unfold edge_count in Hel. rewrite He in Hel.
  assert (Hpart : exists f x y dx x' y',
             nth_error (graph_edges g) e = Some (x, y, dx) /\
             nth_error (graph_edges g) f = Some (x', y', mirror_data dx) /\
             mirror_node g y = Some x' /\ mirror_node g x = Some y' /\
             exists i, (e = i * 2 /\ f = i * 2 + 1) \/ (e = i * 2 + 1 /\ f = i * 2)).
  { destruct (edge_index _ _ Hel)
      as (i & a & a' & b & b' & d & Hqi & [[-> E]|[-> E]]);
    destruct (nth_error_flat_map_pair _ _ _ _ _ _ _ Hqi) as [E0 E1];
    destruct (Hq _ _ _ _ _ _ Hqi) as (H1 & H2 & H3 & H4 & _);
    rewrite He.
    - exists (i * 2 + 1), a, b, d, b', a'. repeat split; auto. exists i. auto.
    - exists (i * 2), b', a', (mirror_data d), a, b.
      rewrite mirror_data_involutive. repeat split; auto. exists i. auto. }
  destruct Hpart as (f & x & y & dx & x' & y' & Ee & Ef & My & Mx & Hi).
  exists f. split; [|split; [|split]].
  - exists x, y, dx, x', y', (mirror_data dx). auto.
  - intros f' (x1 & y1 & d1 & x1' & y1' & d1' & Ee' & Ef' & _ & _ & ->).
    rewrite Ee in Ee'. inversion Ee'; subst.
    rewrite He in Ef, Ef'. apply (Hinj _ _ _ _ _ _ _ _ Ef' Ef); reflexivity.
  - unfold mirror_edge_edge_centric. rewrite Ee, My, Mx.
    apply find_unique.
    + apply in_out_edges. eauto.
    + rewrite Ef, Nat.eqb_refl, data_eqb_refl. reflexivity.
    + intros f' Hin Hp. apply in_out_edges in Hin as (t' & d' & Ef').
      rewrite Ef' in Hp. apply andb_true_iff in Hp as [_ Hd].
      apply data_eqb_true in Hd as [Hh Hfw]. simpl in Hh, Hfw.
      rewrite He in Ef, Ef'. apply (Hinj _ _ _ _ _ _ _ _ Ef' Ef); simpl; congruence.
  - exact Hi.
Qed.

(** C5: every record adds exactly two edges, next to each other and in
    record order: [(a, b)] with the record's parsed payload and
    [(b', a')] with the mirrored payload, where [a'], [b'] are the mirror
    nodes of [a], [b] (the head and tail endpoints of the record).  In the
    final graph every edge has exactly one mirror edge (swapped mirrored
    endpoints, mirrored payload), and [mirror_edge_edge_centric] finds it. *)
Theorem every_edge_has_exactly_one_mirror (records : list FastaRecord)
    (store store' : SequenceStore) (kmer_size : nat) (g : Graph) :
  read_bigraph_from_bcalm2_as_edge_centric records store kmer_size = Ok (g, store') ->
  edge_count g = List.length records * 2 /\
  (forall i r, nth_error records i = Some r ->
     exists a a' b b' d st st',
       parse_bcalm2_fasta_record r st = Ok (d, st') /\
       sequence_handle d = List.length store + i /\
       nth_error (graph_edges g) (i * 2) = Some (a, b, d) /\
       nth_error (graph_edges g) (i * 2 + 1) = Some (b', a', mirror_data d) /\
       mirror_node g a = Some a' /\ mirror_node g a' = Some a /\
       mirror_node g b = Some b' /\ mirror_node g b' = Some b) /\
  (forall e, e < edge_count g ->
     exists f, is_mirror_edge g e f /\ (forall f', is_mirror_edge g e f' -> f' = f) /\
       mirror_edge_edge_centric g e = Some f).
Proof.
  unfold read_bigraph_from_bcalm2_as_edge_centric.
  destruct (edge_centric_loop kmer_size records store [] empty_graph)
    as [[[nm g0] st]| |] eqn:Hl; simpl; intros H; inversion H; subst; clear H.
  destruct (loop_general _ _ _ _ _ _ _ _ Hl registered_empty)
    as (q & Hlq & He & _ & _ & _ & _ & Hq). simpl in He.
  assert (Hm := pair_graph_mirror_edges g q (List.length store) He).
  split; [unfold edge_count; rewrite He, length_flat_map_pair, Hlq; reflexivity|]. split.
  - intros i r Hr.
    assert (Hi : i < List.length q) by (rewrite Hlq; apply nth_error_Some; congruence).
    destruct (nth_error q i) as [[[[[a a'] b] b'] d]|] eqn:Hqi;
      [|apply nth_error_None in Hqi; lia].
    destruct (Hq _ _ _ _ _ _ Hqi)
      as (H1 & H2 & H3 & H4 & H5 & _ & (r' & s1 & s2 & Hr' & Hp & _) & _).
    rewrite Hr in Hr'. inversion Hr'; subst r'.
    destruct (nth_error_flat_map_pair _ _ _ _ _ _ _ Hqi) as [E0 E1].
    exists a, a', b, b', d, s1, s2. rewrite He. repeat split; auto.
  - intros e Hel.
    assert (Hq' : forall i a a' b b' d, nth_error q i = Some (a, a', b, b', d) ->
              mirror_node g a = Some a' /\ mirror_node g a' = Some a /\
              mirror_node g b = Some b' /\ mirror_node g b' = Some b /\
              sequence_handle d = List.length store + i /\ forwards d = true).
    { intros i a a' b b' d Hqi.
      destruct (Hq _ _ _ _ _ _ Hqi) as (H1 & H2 & H3 & H4 & H5 & H6 & _). repeat split; assumption. }
    destruct (Hm Hq' e Hel) as (f & H1 & H2 & H3 & _). exists f. auto.
Qed.


(** The slots of every record the loop has read are mapped at its end. *)
Lemma loop_record_slots_mapped (kmer_size : nat) (rs : list FastaRecord)
    (store : SequenceStore) (node_map : list MappedNode) (g : Graph)
    (node_map' : list MappedNode) (g' : Graph) (store' : SequenceStore) :
  edge_centric_loop kmer_size rs store node_map g = Ok (node_map', g', store') ->
  (forall u, registered g (slot node_map u)) ->
  (forall u, registered g' (slot node_map' u)) /\
  (forall u, slot node_map u <> Unmapped -> slot node_map' u <> Unmapped) /\
  (forall r n, In r rs -> parse_usize (record_id r) = Some n ->
     slot node_map' (n * 2) <> Unmapped /\ slot node_map' (n * 2 + 1) <> Unmapped).
Proof.
  intros H Hr.
  destruct (loop_general _ _ _ _ _ _ _ _ H Hr)
    as (q & Hlq & _ & _ & Hr' & Hm & _ & Hq).
  split; [exact Hr'|]. split; [exact Hm|].
  intros r n Hin Hn. apply In_nth_error in Hin as (i & Hi).
  assert (Hiq : i < List.length q) by (rewrite Hlq; apply nth_error_Some; congruence).
  destruct (nth_error q i) as [[[[[a a'] b] b'] d]|] eqn:Hqi;
    [|apply nth_error_None in Hqi; lia].
  destruct (Hq _ _ _ _ _ _ Hqi) as (_ & _ & _ & _ & _ & _ & (r' & _ & _ & Hr'' & _ & Hid) & H1 & H2).
  rewrite Hi in Hr''. inversion Hr''; subst r'.
  rewrite Hn in Hid. inversion Hid; subst n. auto.
Qed.

(** C2: in a run of the reader, split at any point into the records
    [rs1] read so far and the records [rs2] still to read, a slot mapped
    after [rs1] is still mapped after [rs2], and both slots of every record
    read are mapped; but the propagation writes into neighbor slots that
    are already mapped: on the five records [0]..[4] below with [k = 3]
    the slot [6] (head of record [3]) is [Normal 6 7] after the first four
    records and [Normal 2 3] after the fifth. *)
Theorem slot_never_unmapped_again_but_reassigned :
  (forall kmer_size rs1 rs2 store nm1 g1 st1 nm2 g2 st2,
     edge_centric_loop kmer_size rs1 store [] empty_graph = Ok (nm1, g1, st1) ->
     edge_centric_loop kmer_size rs2 st1 nm1 g1 = Ok (nm2, g2, st2) ->
     (forall u, slot nm1 u <> Unmapped -> slot nm2 u <> Unmapped) /\
     (forall r n, In r (rs1 ++ rs2) -> parse_usize (record_id r) = Some n ->
        slot nm2 (n * 2) <> Unmapped /\ slot nm2 (n * 2 + 1) <> Unmapped)) /\
  (exists nm1 g1 st1 nm2 g2 st2,
     edge_centric_loop 3
       [fasta_record "0" "L:+:2:+" "AAC"; fasta_record "1" "L:+:3:+" "GGC";
        fasta_record "2" "L:-:0:- L:-:4:-" "CAT"; fasta_record "3" "L:-:1:- L:-:4:-" "CAG"]
       [] [] empty_graph = Ok (nm1, g1, st1) /\
     edge_centric_loop 3 [fasta_record "4" "L:+:2:+ L:+:3:+" "CCA"] st1 nm1 g1
       = Ok (nm2, g2, st2) /\
     slot nm1 6 = Normal 6 7 /\ slot nm2 6 = Normal 2 3).
Proof.
  split.
  - intros kmer_size rs1 rs2 store nm1 g1 st1 nm2 g2 st2 H1 H2.
    destruct (loop_record_slots_mapped _ _ _ _ _ _ _ _ H1 registered_empty)
      as (Hr1 & _ & Hs1).
    destruct (loop_record_slots_mapped _ _ _ _ _ _ _ _ H2 Hr1) as (_ & Hm2 & Hs2).
    split; [exact Hm2|].
    intros r n Hin Hn. apply in_app_or in Hin as [Hin|Hin].
    + destruct (Hs1 r n Hin Hn) as [Ha Hb]. split; apply Hm2; assumption.
    + exact (Hs2 r n Hin Hn).
  - destruct (edge_centric_loop 3
       [fasta_record "0" "L:+:2:+" "AAC"; fasta_record "1" "L:+:3:+" "GGC";
        fasta_record "2" "L:-:0:- L:-:4:-" "CAT"; fasta_record "3" "L:-:1:- L:-:4:-" "CAG"]
       [] [] empty_graph) as [[[nm1 g1] st1]| |] eqn:H1;
      [|vm_compute in H1; discriminate..].
    destruct (edge_centric_loop 3 [fasta_record "4" "L:+:2:+ L:+:3:+" "CCA"] st1 nm1 g1)
      as [[[nm2 g2] st2]| |] eqn:H2;
      vm_compute in H1; injection H1 as <- <- <-; vm_compute in H2; try discriminate.
    injection H2 as <- <- <-.
    do 6 eexists. split; [reflexivity|]. split; [reflexivity|].
    split; reflexivity.
Qed.


(* ------------------------------------------------------------------ *)
(** ** What the writer depends on *)

Lemma indexed_filter_eq {A B : Type} (p1 : A -> bool) (p2 : B -> bool) :
  forall (l1 : list A) (l2 : list B) s,
  List.length l1 = List.length l2 ->
  (forall j x1 x2, nth_error l1 j = Some x1 -> nth_error l2 j = Some x2 -> p1 x1 = p2 x2) ->
  map fst (filter (fun ie => p1 (snd ie)) (indexed s l1))
  = map fst (filter (fun ie => p2 (snd ie)) (indexed s l2)).
Proof.
  induction l1 as [|x1 l1 IH]; intros [|x2 l2] s Hl Hp; try discriminate; auto.
  assert (IH' := IH l2 (S s) ltac:(simpl in Hl; lia)
                   (fun j y1 y2 H1 H2 => Hp (S j) y1 y2 H1 H2)).
  cbn [indexed filter snd]. rewrite (Hp 0 x1 x2 eq_refl eq_refl).
  destruct (p2 x2); cbn [map fst]; [f_equal|]; exact IH'.
Qed.

Section WriterEquivalence.

Variables g1 g2 : Graph.
Hypothesis Hdata : map edge_data (graph_edges g1) = map edge_data (graph_edges g2).
Hypothesis Hmirror : forall e, mirror_edge_edge_centric g1 e = mirror_edge_edge_centric g2 e.
Hypothesis Hadjacent : forall e f x1 x2 y1 y2,
  nth_error (graph_edges g1) e = Some x1 -> nth_error (graph_edges g2) e = Some x2 ->
  nth_error (graph_edges g1) f = Some y1 -> nth_error (graph_edges g2) f = Some y2 ->
  (edge_to x1 = edge_from y1 <-> edge_to x2 = edge_from y2).

Lemma we_length : List.length (graph_edges g1) = List.length (graph_edges g2).
Proof. rewrite <- (length_map edge_data), Hdata, length_map. reflexivity. Qed.

Lemma we_nth (e : nat) :
  (nth_error (graph_edges g1) e = None /\ nth_error (graph_edges g2) e = None) \/
  exists x1 x2, nth_error (graph_edges g1) e = Some x1 /\
    nth_error (graph_edges g2) e = Some x2 /\ edge_data x1 = edge_data x2.
Proof.
  pose proof (f_equal (fun l => nth_error l e) Hdata) as H. simpl in H.
  rewrite !nth_error_map in H.
  destruct (nth_error (graph_edges g1) e) as [x1|], (nth_error (graph_edges g2) e) as [x2|];
    simpl in H; try discriminate.
  - right. exists x1, x2. inversion H. auto.
  - left. auto.
Qed.

Lemma we_out_edges (e : nat) (x1 x2 : nat * nat * PlainBCalm2NodeData) :
  nth_error (graph_edges g1) e = Some x1 -> nth_error (graph_edges g2) e = Some x2 ->
  out_edges g1 (edge_to x1) = out_edges g2 (edge_to x2).
Proof.
  intros H1 H2. unfold out_edges. f_equal.
  apply (indexed_filter_eq (fun y => edge_from y =? edge_to x1)
           (fun y => edge_from y =? edge_to x2)); [exact we_length|].
  intros f y1 y2 Hy1 Hy2.
  destruct (Nat.eqb_spec (edge_from y1) (edge_to x1)) as [E|E];
  destruct (Nat.eqb_spec (edge_from y2) (edge_to x2)) as [E'|E']; auto.
  - exfalso. apply E'. symmetry. apply (Hadjacent e f x1 x2 y1 y2 H1 H2 Hy1 Hy2). auto.
  - exfalso. apply E. symmetry. apply (Hadjacent e f x1 x2 y1 y2 H1 H2 Hy1 Hy2). auto.
Qed.

Lemma we_graph_edge_id (e : nat) :
  (ne <- graph_edge g1 e ;; Ok (id (edge_data ne)))
  = (ne <- graph_edge g2 e ;; Ok (id (edge_data ne))).
Proof.
  unfold graph_edge, vget.
  destruct (we_nth e) as [[-> ->]|(x1 & x2 & -> & -> & E)]; simpl; congruence.
Qed.

Lemma we_neighbor_tuple (ov : list bool) (side : bool) (ne : nat) :
  neighbor_tuple g1 ov side ne = neighbor_tuple g2 ov side ne.
Proof.
  unfold neighbor_tuple. destruct (vget ov ne) as [b| |]; simpl; auto.
  destruct b.
  - rewrite we_graph_edge_id. reflexivity.
  - rewrite Hmirror. destruct (ok_or _ _) as [m| |]; simpl; auto.
    rewrite we_graph_edge_id. reflexivity.
Qed.

Lemma we_map_neighbor_tuple (ov : list bool) (side : bool) (l : list nat) :
  map_outcome (neighbor_tuple g1 ov side) l = map_outcome (neighbor_tuple g2 ov side) l.
Proof.
  induction l as [|ne l IH]; simpl; auto. rewrite we_neighbor_tuple, IH. reflexivity.
Qed.

Lemma we_mark (es : list nat) : forall ov,
  mark_output_edges g1 es ov = mark_output_edges g2 es ov.
Proof.
  induction es as [|e es IH]; intros ov; simpl; auto.
  rewrite Hmirror. destruct (ok_or _ _) as [m| |]; simpl; auto.
  destruct (vget ov m) as [bm| |]; simpl; auto.
  destruct (if negb bm then _ else _) as [ov'| |]; simpl; auto.
Qed.

Lemma we_write_edge (store : SequenceStore) (ov : list bool) (e : nat) :
  write_edge g1 store ov e = write_edge g2 store ov e.
Proof.
  unfold write_edge, graph_edge, vget.
  destruct (we_nth e) as [[-> ->]|(x1 & x2 & E1 & E2 & Ed)]; [reflexivity|].
  rewrite E1, E2. simpl. rewrite Hmirror.
  destruct (ok_or _ _) as [m| |]; simpl; auto.
  destruct (we_nth m) as [[-> ->]|(y1 & y2 & F1 & F2 & Fd)]; [reflexivity|].
  rewrite F1, F2. simpl.
  rewrite (we_out_edges e x1 x2 E1 E2), (we_out_edges m y1 y2 F1 F2).
  rewrite !we_map_neighbor_tuple, Ed. reflexivity.
Qed.

Lemma we_write_edges (store : SequenceStore) (ov : list bool) (es : list nat) :
  write_edges g1 store ov es = write_edges g2 store ov es.
Proof.
  induction es as [|e es IH]; simpl; auto.
  destruct (vget ov e) as [b| |]; simpl; auto.
  rewrite we_write_edge, IH. reflexivity.
Qed.

(** The writer sees a graph only through the data of its edges, the
    mirror edge of each edge, and which edge starts where another ends. *)
Lemma write_equivalent (store : SequenceStore) :
  write_edge_centric_bigraph_to_bcalm2 g1 store = write_edge_centric_bigraph_to_bcalm2 g2 store.
Proof.
  unfold write_edge_centric_bigraph_to_bcalm2, edge_count.
  rewrite we_length, we_mark.
  destruct (mark_output_edges g2 _ _) as [ov| |]; simpl; auto.
  apply we_write_edges.
Qed.

End WriterEquivalence.


(* ------------------------------------------------------------------ *)
(** ** Reverse complements *)

Lemma complement_involutive (c : DnaCharacter) : complement (complement c) = c.
Proof. destruct c; reflexivity. Qed.

Lemma rc_involutive (x : Genome) : reverse_complement (reverse_complement x) = x.
Proof.
  unfold reverse_complement. rewrite map_rev, rev_involutive, map_map.
  erewrite map_ext; [apply map_id|]. apply complement_involutive.
Qed.

Lemma rc_swap (x y : Genome) : x = reverse_complement y <-> reverse_complement x = y.
Proof.
  split; intros H; [rewrite H; apply rc_involutive|rewrite <- H; symmetry; apply rc_involutive].
Qed.

Lemma rc_inj (x y : Genome) : reverse_complement x = reverse_complement y <-> x = y.
Proof. rewrite <- rc_swap, rc_involutive. reflexivity. Qed.

Lemma genome_eqb_eq (x y : Genome) : genome_eqb x y = true <-> x = y.
Proof.
  revert y. induction x as [|a x IH]; intros [|b y]; simpl; try (split; congruence).
  rewrite andb_true_iff, dna_eqb_eq, IH. split; [intros [-> ->]; reflexivity|].
  intros H. inversion H. auto.
Qed.

Lemma firstn_rc (n : nat) (s : Genome) :
  firstn n (reverse_complement s) = reverse_complement (skipn (List.length s - n) s).
Proof. unfold reverse_complement. rewrite firstn_rev, length_map, skipn_map. reflexivity. Qed.

(** The self-mirror-edge test compares the (k-1)-suffix with the reverse
    complement of the (k-1)-prefix. *)
Lemma edge_is_self_mirror_kmers (kmer_size : nat) (s : Genome) :
  edge_is_self_mirror kmer_size s = true <->
  skipn (List.length s - (kmer_size - 1)) s = reverse_complement (firstn (kmer_size - 1) s).
Proof.
  rewrite edge_is_self_mirror_iff, firstn_rc. rewrite rc_swap. split; intros H; symmetry; exact H.
Qed.

Lemma edge_eqb_eq (e1 e2 : PlainBCalm2Edge) : edge_eqb e1 e2 = true <-> e1 = e2.
Proof.
  destruct e1 as [a1 b1 c1], e2 as [a2 b2 c2]. unfold edge_eqb. simpl.
  rewrite !andb_true_iff, !Bool.eqb_true_iff, Nat.eqb_eq.
  split; [intros [[-> ->] ->]; reflexivity|intros H; inversion H; auto].
Qed.

Lemma existsb_edge_eqb (e : PlainBCalm2Edge) (l : list PlainBCalm2Edge) :
  existsb (edge_eqb e) l = true <-> In e l.
Proof.
  rewrite existsb_exists. split.
  - intros (x & Hx & E). apply edge_eqb_eq in E. subst. exact Hx.
  - intros H. exists e. split; [exact H|]. apply edge_eqb_eq. reflexivity.
Qed.

(* ------------------------------------------------------------------ *)
(** ** Neighbour slots, classes and agreeing values *)

Lemma bool_eqb_comm (a b : bool) : Bool.eqb a b = Bool.eqb b a.
Proof. destruct a, b; reflexivity. Qed.

Lemma fwd_of_mirror (v : MappedNode) : fwd_of (mirror v) = bwd_of v.
Proof. destruct v; reflexivity. Qed.

Lemma bwd_of_mirror (v : MappedNode) : bwd_of (mirror v) = fwd_of v.
Proof. destruct v; reflexivity. Qed.

Section Classes.

Variable kap : nat -> Genome.
Variable M : nat.

Lemma adjacent_iff (s t : nat) :
  adjacent kap M s t <->
  s < M /\ t < M /\ slot_out kap s = reverse_complement (slot_out kap t).
Proof.
  unfold adjacent, slot_out.
  destruct (Nat.even s), (Nat.even t); simpl;
    rewrite ?rc_involutive, ?rc_inj; try reflexivity.
  split; intros (? & ? & H); (split; [lia|split; [lia|]]); apply rc_swap; exact H.
Qed.

Lemma same_class_iff (s u : nat) :
  same_class kap s u <->
  slot_out kap u = slot_out kap s \/ slot_out kap u = reverse_complement (slot_out kap s).
Proof.
  unfold same_class, slot_out.
  destruct (Nat.even s), (Nat.even u); rewrite ?rc_involutive, ?rc_inj.
  - rewrite <- (rc_swap (kap u) (kap s)). reflexivity.
  - apply or_comm.
  - rewrite <- (rc_swap (kap u) (kap s)). apply or_comm.
  - reflexivity.
Qed.

Lemma adjacent_sym (s t : nat) : adjacent kap M s t -> adjacent kap M t s.
Proof.
  rewrite !adjacent_iff. intros (? & ? & H). split; [lia|]. split; [lia|].
  apply rc_swap. symmetry. exact H.
Qed.

Lemma adjacent_lt (s t : nat) : adjacent kap M s t -> s < M /\ t < M.
Proof. intros (? & ? & _). auto. Qed.

Lemma adjacent_class (s t : nat) : adjacent kap M s t -> same_class kap s t.
Proof.
  rewrite adjacent_iff, same_class_iff. intros (_ & _ & H). right. apply rc_swap. symmetry. exact H.
Qed.

Lemma class_refl (s : nat) : same_class kap s s.
Proof. left. reflexivity. Qed.

Lemma class_sym (s t : nat) : same_class kap s t -> same_class kap t s.
Proof.
  unfold same_class. intros [H|H]; [left; auto|right]. apply rc_swap. symmetry. exact H.
Qed.

Lemma class_trans (s t u : nat) :
  same_class kap s t -> same_class kap t u -> same_class kap s u.
Proof.
  unfold same_class. intros [H1|H1] [H2|H2]; rewrite H2, H1; auto.
  left. apply rc_involutive.
Qed.

Lemma same_class_neighbors (s u : nat) :
  s < M -> u < M -> same_class kap s u ->
  adjacent kap M s u \/ forall t, adjacent kap M s t <-> adjacent kap M u t.
Proof.
  intros Hs Hu Hc. apply same_class_iff in Hc. setoid_rewrite adjacent_iff.
  destruct Hc as [Hc|Hc].
  - right. intros t. rewrite Hc. split; intros (? & ? & ?); auto.
  - left. split; [lia|]. split; [lia|]. rewrite Hc, rc_involutive. reflexivity.
Qed.

Lemma live_lt (s : nat) : live kap M s -> s < M.
Proof. intros (t & Ht). apply adjacent_lt in Ht. tauto. Qed.

Lemma agree_not_class (a b : nat) (va vb : MappedNode) :
  ~ same_class kap a b -> agree_values kap a va b vb.
Proof. intros Hn. split; intros H; exfalso; apply Hn; [left|right]; exact H. Qed.

Lemma agree_refl (s : nat) (v : MappedNode) :
  (kap s = reverse_complement (kap s) -> mirror v = v) -> agree_values kap s v s v.
Proof. intros Hsm. split; [auto|]. intros H. symmetry. auto. Qed.

Lemma agree_sym (a b : nat) (va vb : MappedNode) :
  agree_values kap a va b vb -> agree_values kap b vb a va.
Proof.
  intros [H1 H2]. split.
  - intros E. symmetry. auto.
  - intros E. rewrite H2, mirror_involutive; [reflexivity|]. apply rc_swap. symmetry. exact E.
Qed.

Lemma agree_trans (s a b : nat) (vs va vb : MappedNode) :
  same_class kap s a ->
  agree_values kap s vs a va -> agree_values kap s vs b vb -> agree_values kap a va b vb.
Proof.
  intros Hc A B. unfold agree_values in *. destruct A as [A1 A2], B as [B1 B2].
  destruct Hc as [Ha|Ha].
  - rewrite (A1 Ha). split; intros E; [apply B1|apply B2]; congruence.
  - rewrite (A2 Ha). rewrite mirror_involutive. split; intros E.
    + apply B2. congruence.
    + apply B1. rewrite E, Ha. apply rc_involutive.
Qed.

Lemma adjacent_agree (s b : nat) (vs : MappedNode) :
  adjacent kap M s b ->
  (kap s = reverse_complement (kap s) -> mirror vs = vs) ->
  agree_values kap s vs b (orient s b vs).
Proof.
  unfold adjacent, agree_values, orient. intros (_ & _ & H) Hsm.
  destruct (Bool.eqb (Nat.even s) (Nat.even b)).
  - split; intros E; [|reflexivity]. apply Hsm. rewrite <- E at 2. exact H.
  - split; intros E; [reflexivity|]. symmetry. apply Hsm. rewrite H at 1. exact E.
Qed.

Lemma adjacent_agree_inv (s u : nat) (vs w : MappedNode) :
  adjacent kap M s u -> agree_values kap s vs u w -> w = orient s u vs.
Proof.
  unfold adjacent, agree_values, orient. intros (_ & _ & H) [A1 A2].
  destruct (Bool.eqb (Nat.even s) (Nat.even u)).
  - apply A2. apply rc_swap. symmetry. exact H.
  - apply A1. symmetry. exact H.
Qed.

Lemma orient_sym (s t : nat) (v : MappedNode) : orient s t v = orient t s v.
Proof. unfold orient. rewrite bool_eqb_comm. reflexivity. Qed.

Lemma orient_mirror (s t : nat) (v : MappedNode) : orient s t (mirror v) = mirror (orient s t v).
Proof. unfold orient. destruct (Bool.eqb _ _); reflexivity. Qed.

Lemma orient_unmapped (s t : nat) (v : MappedNode) : orient s t v = Unmapped <-> v = Unmapped.
Proof. unfold orient. destruct (Bool.eqb _ _); [apply mirror_unmapped|reflexivity]. Qed.

Lemma registered_orient (g : Graph) (s t : nat) (v : MappedNode) :
  registered g (orient s t v) <-> registered g v.
Proof. unfold orient. destruct (Bool.eqb _ _); [apply registered_mirror|reflexivity]. Qed.

Lemma adjacent_label (lab : nat -> Genome) (s t : nat) (vs : MappedNode) :
  adjacent kap M s t ->
  lab (fwd_of vs) = kap s /\ lab (bwd_of vs) = reverse_complement (kap s) ->
  lab (fwd_of (orient s t vs)) = kap t /\
  lab (bwd_of (orient s t vs)) = reverse_complement (kap t).
Proof.
  unfold adjacent, orient. intros (_ & _ & H) [L1 L2].
  destruct (Bool.eqb (Nat.even s) (Nat.even t)).
  - rewrite fwd_of_mirror, bwd_of_mirror, L1, L2, H, rc_involutive. auto.
  - rewrite L1, L2, H. auto.
Qed.

Lemma palindrome_class (s t : nat) :
  same_class kap s t -> kap t = reverse_complement (kap t) ->
  kap s = reverse_complement (kap s).
Proof.
  intros [H|H] Hp; rewrite H in Hp; [exact Hp|].
  apply rc_swap in Hp. rewrite rc_involutive in Hp. exact Hp.
Qed.

End Classes.


(* ------------------------------------------------------------------ *)
(** ** The blocks on inputs whose links are the (k-1)-overlaps *)

Lemma assign_exact (side : bool) (n : nat) (vs : MappedNode) (es : list PlainBCalm2Edge) :
  forall node_map,
  n < List.length node_map -> slot node_map n = vs ->
  (forall e, In e es -> edge_slot e < List.length node_map) ->
  (forall e, In e es -> edge_slot e = n -> oriented side e vs = vs) ->
  exists node_map', assign_to_neighbors side n node_map es = Ok node_map' /\
    List.length node_map' = List.length node_map /\
    forall u, (exists e, In e es /\ edge_slot e = u /\ slot node_map' u = oriented side e vs) \/
              ((forall e, In e es -> edge_slot e <> u) /\ slot node_map' u = slot node_map u).
Proof.
  induction es as [|e es IH]; intros nm Hn Hv Hin Hself; simpl.
  - exists nm. split; [reflexivity|]. split; [reflexivity|].
    intros u. right. split; [intros e []|reflexivity].
  - rewrite (vget_slot nm n Hn), bind_ok, Hv.
    assert (He : edge_slot e < List.length nm) by (apply Hin; left; reflexivity).
    rewrite (vset_ok _ _ _ He), bind_ok.
    set (nm1 := update nm (edge_slot e) (oriented side e vs)).
    assert (Hs1 : forall u, slot nm1 u = if u =? edge_slot e then oriented side e vs
                                         else slot nm u)
      by (intros; apply slot_update; exact He).
    assert (Hl1 : List.length nm1 = List.length nm) by apply length_update.
    destruct (IH nm1) as (nm' & Ha & Hl & Hu).
    + lia.
    + rewrite Hs1. destruct (Nat.eqb_spec n (edge_slot e)) as [E|E]; auto.
      apply Hself; [left; reflexivity|]. symmetry. exact E.
    + intros e' He'. rewrite Hl1. apply Hin. right. exact He'.
    + intros e' He'. apply Hself. right. exact He'.
    + exists nm'. split; [exact Ha|]. split; [lia|]. intros u.
      destruct (Hu u) as [(e' & He' & Heq & Hs)|(Hno & Hs)].
      * left. exists e'. split; [right; exact He'|]. auto.
      * rewrite Hs, Hs1. destruct (Nat.eqb_spec u (edge_slot e)) as [->|Hne].
        -- left. exists e. split; [left; reflexivity|]. auto.
        -- right. split; [|reflexivity]. intros e'' [<-|He''].
           ++ intros E. apply Hne. symmetry. exact E.
           ++ apply Hno. exact He''.
Qed.

Lemma search_ok (side : bool) (n : nat) (es : list PlainBCalm2Edge) :
  forall node_map, n < List.length node_map ->
  exists node_map' found, search_neighbors side n node_map es = Ok (node_map', found).
Proof.
  induction es as [|e es IH]; intros nm Hn; simpl.
  - eauto.
  - destruct (grown_slot nm (edge_slot e)) as (Hs & Hl & Ht). revert Hs Hl Ht.
    generalize (if List.length nm <=? edge_slot e
                then resize nm (edge_slot e + 1) Unmapped else nm).
    intros nm' Hs Hl Ht. rewrite (vget_slot nm' _ Ht), bind_ok.
    destruct (negb (mapped_eqb (slot nm' (edge_slot e)) Unmapped)).
    + rewrite vset_ok by lia. rewrite bind_ok. eauto.
    + apply IH. lia.
Qed.

Lemma search_len (side : bool) (n B : nat) (es : list PlainBCalm2Edge) :
  forall node_map node_map' found,
  search_neighbors side n node_map es = Ok (node_map', found) ->
  (forall e, In e es -> edge_slot e < B) -> List.length node_map <= B ->
  List.length node_map' <= B.
Proof.
  induction es as [|e es IH]; intros nm nm' found H Hin Hl; simpl in H.
  - inversion H; subst. exact Hl.
  - assert (Hl' : List.length (if List.length nm <=? edge_slot e
                               then resize nm (edge_slot e + 1) Unmapped else nm) <= B).
    { destruct (List.length nm <=? edge_slot e) eqn:E; [|lia].
      apply Nat.leb_le in E. rewrite resize_grow by lia. rewrite length_app, repeat_length.
      specialize (Hin e (or_introl eq_refl)). lia. }
    revert H Hl'. generalize (if List.length nm <=? edge_slot e
                              then resize nm (edge_slot e + 1) Unmapped else nm).
    intros nm1 H Hl'.
    destruct (vget nm1 (edge_slot e)) as [v| |]; simpl in H; try discriminate.
    destruct (negb (mapped_eqb v Unmapped)); simpl in H.
    + destruct (vset nm1 n _) as [nm2| |] eqn:Hs; simpl in H; try discriminate.
      inversion H; subst. apply vset_ok_inv in Hs as [_ ->]. rewrite length_update. exact Hl'.
    + eapply IH; [exact H| |exact Hl']. intros e' He'. apply Hin. right. exact He'.
Qed.

Lemma registered_lt (g : Graph) (v : MappedNode) :
  registered g v -> v <> Unmapped -> fwd_of v < node_count g /\ bwd_of v < node_count g.
Proof.
  destruct v as [|f b|m]; simpl; [congruence| |].
  - intros [H1 H2] _. split; eapply mirror_node_lt; eauto.
  - intros H _. split; eapply mirror_node_lt; eauto.
Qed.

Lemma endpoints_of_mapped (v : MappedNode) :
  v <> Unmapped -> endpoints_of v = Ok (fwd_of v, bwd_of v).
Proof. destruct v; simpl; congruence. Qed.

Section ConsistentReader.

Variable kap : nat -> Genome.
Variable M : nat.

Lemma consistent_empty : consistent_state kap M [] empty_graph (fun _ => []).
Proof.
  assert (Hs : forall u, slot [] u = Unmapped) by (intros [|u]; reflexivity).
  split; [simpl; lia|]. split; [apply registered_empty|].
  split; [intros s H; contradiction (H (Hs s))|].
  split; [intros s H; contradiction (H (Hs s))|].
  split; [intros s t _ _ H; contradiction (H (Hs s))|].
  intros s _ H. contradiction (H (Hs s)).
Qed.

Lemma consistent_slots (nm nm' : list MappedNode) (g : Graph) (lab : nat -> Genome) :
  consistent_state kap M nm g lab -> (forall u, slot nm' u = slot nm u) ->
  List.length nm' <= M -> consistent_state kap M nm' g lab.
Proof.
  unfold consistent_state. intros C Hs Hl. setoid_rewrite Hs. destruct C as (_ & C).
  split; [exact Hl|exact C].
Qed.

Lemma consistent_ext (nm : list MappedNode) (g g' : Graph) (lab lab' : nat -> Genome) :
  consistent_state kap M nm g lab -> graph_ext g g' ->
  (forall n, n < node_count g -> lab' n = lab n) ->
  consistent_state kap M nm g' lab'.
Proof.
  intros (Hlen & Hr & Hl & Hsm & Hcc & Hj) Hext Hlab.
  split; [exact Hlen|]. split; [intros u; apply (registered_ext g); auto|].
  split; [|auto]. intros s Hm. destruct (registered_lt g _ (Hr s) Hm) as [H1 H2].
  rewrite !Hlab by assumption. auto.
Qed.

Lemma consistent_same_mirrors (nm : list MappedNode) (g g' : Graph) (lab : nat -> Genome) :
  consistent_state kap M nm g lab -> mirrors g' = mirrors g ->
  consistent_state kap M nm g' lab.
Proof.
  intros (Hlen & Hr & C) Hm. split; [exact Hlen|]. split; [|exact C].
  intros u. specialize (Hr u). unfold registered, mirror_node in *. rewrite Hm. exact Hr.
Qed.

(** A slot whose class has a live mapped slot, but which is itself
    unmapped, has all its neighbours mapped. *)
Lemma unmapped_neighbors_mapped (nm : list MappedNode) (g : Graph) (lab : nat -> Genome)
    (a s : nat) :
  consistent_state kap M nm g lab -> live kap M a -> slot nm a <> Unmapped ->
  same_class kap a s -> s < M -> slot nm s = Unmapped ->
  forall t, adjacent kap M s t -> slot nm t <> Unmapped.
Proof.
  intros (_ & _ & _ & _ & _ & Hj) Ha Hm Hc Hs Hu t Ht.
  destruct (Hj a Ha Hm) as (u & Hlu & Hcu & Hmu & Hall).
  assert (Hsu : same_class kap s u) by (eapply class_trans; [apply class_sym; exact Hc|exact Hcu]).
  destruct (same_class_neighbors kap M s u Hs (live_lt kap M u Hlu) Hsu) as [Hsu'|Heq].
  - exfalso. apply (Hall s (adjacent_sym kap M _ _ Hsu')). exact Hu.
  - apply Hall. apply Heq. exact Ht.
Qed.

Lemma agree_trans_class (s a b : nat) (vs va vb : MappedNode) :
  same_class kap s a -> agree_values kap s vs a va ->
  (same_class kap s b -> agree_values kap s vs b vb) -> agree_values kap a va b vb.
Proof.
  intros Ha A B. split; intros E.
  - assert (Hab : same_class kap a b) by (left; exact E).
    exact (proj1 (agree_trans kap s a b vs va vb Ha A (B (class_trans kap s a b Ha Hab))) E).
  - assert (Hab : same_class kap a b) by (right; exact E).
    exact (proj2 (agree_trans kap s a b vs va vb Ha A (B (class_trans kap s a b Ha Hab))) E).
Qed.

(** Writing a value into an unmapped slot and propagating it to the
    neighbour slots keeps the invariant. *)
Lemma propagate (side : bool) (s : nat) (L : list PlainBCalm2Edge)
    (nm nm1 : list MappedNode) (g : Graph) (lab : nat -> Genome) (vs : MappedNode) :
  consistent_state kap M nm g lab ->
  slot nm s = Unmapped -> s < List.length nm1 -> List.length nm1 <= M ->
  (forall u, slot nm1 u = if u =? s then vs else slot nm u) ->
  vs <> Unmapped -> registered g vs ->
  lab (fwd_of vs) = kap s /\ lab (bwd_of vs) = reverse_complement (kap s) ->
  (kap s = reverse_complement (kap s) -> mirror vs = vs) ->
  (live kap M s -> forall a, live kap M a -> slot nm a <> Unmapped -> same_class kap s a ->
     agree_values kap a (slot nm a) s vs) ->
  neighbors_listed kap M side s L ->
  (forall t, adjacent kap M s t -> t < List.length nm1) ->
  exists nm2, assign_to_neighbors side s nm1 L = Ok nm2 /\
    consistent_state kap M nm2 g lab /\ slot nm2 s = vs /\
    (forall u, slot nm u <> Unmapped -> slot nm2 u = slot nm u) /\
    List.length nm2 = List.length nm1.
Proof.
  intros C Hsu Hs1 HlM Hnm1 Hvs Hreg Hlab Hsm Hagr [HL1 HL2] Hrange.
  destruct C as (Hlen & Hr & Hl & Hsm0 & Hcc & Hj).
  assert (Hv1 : slot nm1 s = vs) by (rewrite Hnm1, Nat.eqb_refl; reflexivity).
  assert (Hself : adjacent kap M s s -> mirror vs = vs).
  { intros (_ & _ & Hk). rewrite eqb_reflx in Hk. apply Hsm. exact Hk. }
  destruct (assign_exact side s vs L nm1 Hs1 Hv1) as (nm2 & Ha & Hl2 & Hu).
  { intros e He. apply Hrange. apply HL1. exact He. }
  { intros e He Heq. destruct (HL1 e He) as [Hadj Hor]. rewrite Hor, Heq.
    rewrite Heq in Hadj. unfold orient. rewrite eqb_reflx. apply Hself. exact Hadj. }
  assert (Hnew : forall u, (adjacent kap M s u /\ slot nm2 u = orient s u vs) \/
                           (~ adjacent kap M s u /\ slot nm2 u = slot nm1 u)).
  { intros u. destruct (Hu u) as [(e & He & Heq & Hsl)|(Hno & Hsl)].
    - left. destruct (HL1 e He) as [Hadj Hor]. rewrite Heq in Hadj, Hor.
      split; [exact Hadj|]. rewrite Hsl. apply Hor.
    - right. split; [|exact Hsl]. intros Hadj.
      destruct (HL2 u Hadj) as (e & He & Heq). exact (Hno e He Heq). }
  assert (Hstable : forall u, slot nm u <> Unmapped -> slot nm2 u = slot nm u).
  { intros u Hm. destruct (Hnew u) as [(Hadj & Hsl)|(_ & Hsl)].
    - rewrite Hsl. symmetry. apply (adjacent_agree_inv kap M s u vs); [exact Hadj|].
      apply agree_sym. apply Hagr; [exists u; exact Hadj|
        exists s; apply adjacent_sym; exact Hadj|exact Hm|apply adjacent_class with M; exact Hadj].
    - rewrite Hsl, Hnm1. destruct (Nat.eqb_spec u s); [subst; contradiction|reflexivity]. }
  assert (Hs2 : slot nm2 s = vs).
  { destruct (Hnew s) as [(Hadj & Hsl)|(_ & Hsl)]; [|rewrite Hsl; exact Hv1].
    rewrite Hsl. unfold orient. rewrite eqb_reflx. apply Hself. exact Hadj. }
  assert (Hcase : forall u, slot nm2 u <> Unmapped ->
            (u = s /\ slot nm2 u = vs) \/
            (adjacent kap M s u /\ slot nm2 u = orient s u vs) \/
            (slot nm u <> Unmapped /\ slot nm2 u = slot nm u)).
  { intros u Hm. destruct (Nat.eq_dec u s) as [->|Hne]; [left; auto|].
    destruct (Hnew u) as [H|(Hna & Hsl)]; [right; left; exact H|].
    right; right. rewrite Hsl, Hnm1 in *. apply Nat.eqb_neq in Hne. rewrite Hne in *. auto. }
  assert (Hwith : live kap M s -> forall x, live kap M x -> slot nm2 x <> Unmapped ->
            same_class kap s x -> agree_values kap s vs x (slot nm2 x)).
  { intros Hls x Hlx Hmx Hcx.
    destruct (Hcase x Hmx) as [(-> & Hx)|[(Hadj & Hx)|(Hmx' & Hx)]]; rewrite Hx.
    - apply agree_refl. exact Hsm.
    - apply adjacent_agree with M; auto.
    - apply agree_sym. apply Hagr; auto. }
  assert (Hnewagree : forall x y, live kap M x -> live kap M y ->
            slot nm2 x <> Unmapped -> slot nm2 y <> Unmapped ->
            (x = s \/ adjacent kap M s x) -> agree_values kap x (slot nm2 x) y (slot nm2 y)).
  { intros x y Hlx Hly Hmx Hmy Hx.
    assert (Hls : live kap M s) by (destruct Hx as [->|Hx]; [exact Hlx|exists x; exact Hx]).
    assert (Hcx : same_class kap s x)
      by (destruct Hx as [->|Hx]; [apply class_refl|apply adjacent_class with M; exact Hx]).
    apply (agree_trans_class s x y vs); [exact Hcx|apply Hwith; auto|].
    intros Hcy. apply Hwith; auto. }
  exists nm2. split; [exact Ha|].
  split; [|split; [exact Hs2|split; [exact Hstable|exact Hl2]]].
  split; [lia|]. split; [|split; [|split; [|split]]].
  - intros u. destruct (Hnew u) as [(_ & Hsl)|(_ & Hsl)]; rewrite Hsl.
    + apply registered_orient. exact Hreg.
    + rewrite Hnm1. destruct (u =? s); auto.
  - intros u Hm. destruct (Hcase u Hm) as [(-> & Hx)|[(Hadj & Hx)|(Hm' & Hx)]]; rewrite Hx.
    + exact Hlab.
    + apply adjacent_label with M; assumption.
    + apply Hl. exact Hm'.
  - intros u Hm Hp. destruct (Hcase u Hm) as [(-> & Hx)|[(Hadj & Hx)|(Hm' & Hx)]]; rewrite Hx.
    + apply Hsm. exact Hp.
    + rewrite <- orient_mirror.
      rewrite (Hsm (palindrome_class kap s u (adjacent_class kap M s u Hadj) Hp)).
      reflexivity.
    + apply Hsm0; assumption.
  - intros a b Hla Hlb Hma Hmb.
    destruct (Hcase a Hma) as [(-> & _)|[(Hadj & _)|(Hma' & Ha2)]].
    + apply Hnewagree; auto.
    + apply Hnewagree; auto.
    + destruct (Hcase b Hmb) as [(-> & _)|[(Hadj & _)|(Hmb' & Hb2)]].
      * apply agree_sym. apply Hnewagree; auto.
      * apply agree_sym. apply Hnewagree; auto.
      * rewrite Ha2, Hb2. apply Hcc; auto.
  - intros a Hla Hma.
    assert (Hall : forall t, adjacent kap M s t -> slot nm2 t <> Unmapped).
    { intros t Ht. destruct (Hnew t) as [(_ & Hsl)|(Hna & _)]; [|contradiction].
      rewrite Hsl, orient_unmapped. exact Hvs. }
    destruct (Hcase a Hma) as [(-> & _)|[(Hadj & _)|(Hma' & _)]].
    + exists s. split; [exact Hla|]. split; [apply class_refl|].
      split; [rewrite Hs2; exact Hvs|exact Hall].
    + exists s. split; [exists a; exact Hadj|]. split; [apply class_sym, adjacent_class with M; exact Hadj|].
      split; [rewrite Hs2; exact Hvs|exact Hall].
    + destruct (Hj a Hla Hma') as (u & Hlu & Hcu & Hmu & Hall').
      exists u. split; [exact Hlu|]. split; [exact Hcu|].
      split; [rewrite Hstable; auto|]. intros t Ht. rewrite Hstable; auto.
Qed.

End ConsistentReader.


Section ConsistentBlocks.

Variable kap : nat -> Genome.
Variable M : nat.

(** A block on such an input: the slot gets the value of the binode of
    its (k-1)-mer class, the invariant is kept and mapped slots keep
    their values. *)
Lemma block_consistent (side : bool) (s : nat) (f : bool) (L : list PlainBCalm2Edge)
    (nm : list MappedNode) (g : Graph) (lab : nat -> Genome) :
  consistent_state kap M nm g lab -> s < List.length nm ->
  neighbors_listed kap M side s L ->
  (f = true <-> kap s = reverse_complement (kap s)) ->
  exists nm' g' lab', resolve_block side s f L nm g = Ok (nm', g') /\
    consistent_state kap M nm' g' lab' /\ slot nm' s <> Unmapped /\
    (forall u, slot nm u <> Unmapped -> slot nm' u = slot nm u) /\
    graph_ext g g' /\ List.length nm <= List.length nm'.
Proof.
  intros C Hs HL Hf. pose proof C as (Hlen & Hr & Hl & Hsm0 & Hcc & Hj).
  pose proof HL as [HL1 HL2].
  unfold resolve_block. rewrite (vget_slot nm s Hs), bind_ok.
  destruct (mapped_eqb (slot nm s) Unmapped) eqn:Hu.
  2:{ exists nm, g, lab. split; [reflexivity|]. split; [exact C|].
      split; [intros E; rewrite E in Hu; discriminate|].
      split; [auto|]. split; [apply graph_ext_refl|lia]. }
  apply mapped_eqb_unmapped in Hu.
  assert (HsM : s < M) by lia.
  unfold search_or_create.
  destruct (search_ok side s L nm Hs) as (nm0 & found & Hsearch).
  rewrite Hsearch, bind_ok. cbn beta iota.
  destruct (search_spec _ _ _ _ _ _ Hsearch) as (Hl0 & Hf0 & Ht0).
  assert (HlM0 : List.length nm0 <= M).
  { apply (search_len side s M L nm nm0 found Hsearch); [|lia].
    intros e He. destruct (HL1 e He) as [Hadj _]. apply adjacent_lt in Hadj. tauto. }
  assert (Hs0 : s < List.length nm0) by lia.
  rewrite (vget_slot nm0 s Hs0), bind_ok.
  destruct found.
  - destruct (Ht0 eq_refl) as (_ & e & He & Hm & Hsl).
    destruct (HL1 e He) as [Hadj Hor].
    set (t := edge_slot e) in *.
    set (vs := oriented side e (slot nm t)) in *.
    assert (Hvs : vs = orient s t (slot nm t)) by apply Hor.
    assert (Hvs0 : slot nm0 s = vs) by (rewrite Hsl, Nat.eqb_refl; reflexivity).
    assert (Hvn : vs <> Unmapped) by (rewrite Hvs, orient_unmapped; exact Hm).
    rewrite Hvs0.
    replace (mapped_eqb vs Unmapped) with false
      by (symmetry; apply Bool.not_true_iff_false; rewrite mapped_eqb_unmapped; exact Hvn).
    cbn beta iota.
    assert (Hlt : live kap M t) by (exists s; apply adjacent_sym; exact Hadj).
    assert (Hct : same_class kap t s) by (apply class_sym, adjacent_class with M; exact Hadj).
    destruct (propagate kap M side s L nm nm0 g lab vs C Hu Hs0 HlM0) as (nm2 & Ha & C2 & Hs2 & Hst & Hl2).
    + intros u. rewrite Hsl. destruct (u =? s); reflexivity.
    + exact Hvn.
    + rewrite Hvs. apply registered_orient. apply Hr.
    + rewrite Hvs, orient_sym. apply adjacent_label with M.
      * apply adjacent_sym. exact Hadj.
      * apply Hl. exact Hm.
    + intros Hp. rewrite Hvs, <- orient_mirror, Hsm0; [reflexivity|exact Hm|].
      apply (palindrome_class kap t s); [exact Hct|exact Hp].
    + intros Hls a Hla Hma Hca.
      apply (agree_trans kap t a s (slot nm t)).
      * exact (class_trans kap t s a Hct Hca).
      * apply Hcc; auto.
      * rewrite Hvs, orient_sym. apply adjacent_agree with M.
        -- apply adjacent_sym. exact Hadj.
        -- apply Hsm0. exact Hm.
    + exact HL.
    + intros t' Ht'.
      pose proof (unmapped_neighbors_mapped kap M nm g lab t s C Hlt Hm Hct HsM Hu t' Ht') as Hm'.
      apply slot_beyond in Hm'. lia.
    + rewrite bind_ok. cbn beta iota.
      exists nm2, g, lab. rewrite Ha, bind_ok. split; [reflexivity|].
      split; [exact C2|]. split; [rewrite Hs2; exact Hvn|].
      split; [exact Hst|]. split; [apply graph_ext_refl|lia].
  - destruct (Hf0 eq_refl) as (Hsl & Hin).
    rewrite Hsl, Hu. cbn beta iota delta [mapped_eqb].
    destruct (create_binode_spec f g) as (b & g2 & Hc & Hext & Hreg & Hb & Hbt & Hbf & Hcnt).
    rewrite Hc, bind_ok. cbn beta iota.
    rewrite (vset_ok _ _ _ Hs0), bind_ok.
    set (c := node_count g).
    set (lab2 := fun n => if n <? c then lab n
                          else if n =? c then kap s else reverse_complement (kap s)).
    assert (C2 : consistent_state kap M nm g2 lab2).
    { apply consistent_ext with g lab; auto. intros n Hn. unfold lab2.
      rewrite (proj2 (Nat.ltb_lt n c) Hn). reflexivity. }
    destruct (propagate kap M side s L nm (update nm0 s b) g2 lab2 b C2 Hu)
      as (nm2 & Ha & C3 & Hs2 & Hst & Hl2).
    + rewrite length_update. exact Hs0.
    + rewrite length_update. exact HlM0.
    + intros u. rewrite slot_update by exact Hs0. rewrite Hsl. reflexivity.
    + exact Hb.
    + exact Hreg.
    + unfold lab2. destruct f.
      * rewrite (Hbt eq_refl). simpl. rewrite Nat.ltb_irrefl, Nat.eqb_refl.
        split; [reflexivity|]. apply Hf. reflexivity.
      * rewrite (Hbf eq_refl). cbn [fwd_of bwd_of]. fold c. rewrite Nat.ltb_irrefl, Nat.eqb_refl.
        replace (S c <? c) with false by (symmetry; apply Nat.ltb_ge; lia).
        replace (S c =? c) with false by (symmetry; apply Nat.eqb_neq; lia). auto.
    + intros Hp. apply Hf in Hp. rewrite (Hbt Hp). reflexivity.
    + intros (t & Ht) a Hla Hma Hca. exfalso.
      pose proof (unmapped_neighbors_mapped kap M nm g lab a s C Hla Hma
                    (class_sym kap s a Hca) HsM Hu t Ht) as Hmt.
      destruct (HL2 t Ht) as (e & He & <-). apply Hmt, Hin. exact He.
    + exact HL.
    + intros t Ht. destruct (HL2 t Ht) as (e & He & <-). rewrite length_update.
      apply Hin. exact He.
    + rewrite bind_ok. cbn beta iota.
      exists nm2, g2, lab2. rewrite Ha, bind_ok. split; [reflexivity|].
      split; [exact C3|]. split; [rewrite Hs2; exact Hb|].
      split; [exact Hst|]. split; [exact Hext|]. rewrite Hl2, length_update. exact Hl0.
Qed.

(** The self-mirror-edge shortcut on such an input: the tail slot gets
    the mirror of the head slot, which is the binode of its class. *)
Lemma shortcut_consistent (n1 s : nat) (f : bool) (es : list PlainBCalm2Edge)
    (nm : list MappedNode) (g : Graph) (lab : nat -> Genome) :
  consistent_state kap M nm g lab -> slot nm n1 <> Unmapped -> s < List.length nm ->
  kap s = reverse_complement (kap n1) ->
  neighbors_listed kap M true s (relevant_edges true es) ->
  exists nm', resolve_tail n1 s f true es nm g = Ok (nm', g) /\
    consistent_state kap M nm' g lab /\ slot nm' s <> Unmapped /\
    (forall u, slot nm u <> Unmapped -> slot nm' u = slot nm u) /\
    List.length nm <= List.length nm'.
Proof.
  intros C Hm1 Hs Hk HL. pose proof C as (Hlen & Hr & Hl & Hsm0 & Hcc & Hj).
  unfold resolve_tail. rewrite (vget_slot nm s Hs), bind_ok.
  destruct (mapped_eqb (slot nm s) Unmapped) eqn:Hu.
  2:{ exists nm. split; [reflexivity|]. split; [exact C|].
      split; [intros E; rewrite E in Hu; discriminate|]. split; [auto|lia]. }
  apply mapped_eqb_unmapped in Hu.
  assert (HsM : s < M) by lia.
  pose proof (slot_beyond nm n1 Hm1) as Hn1.
  unfold tail_shortcut. rewrite (vget_slot nm n1 Hn1), bind_ok, (vset_ok _ _ _ Hs), bind_ok.
  cbn beta iota. rewrite bind_ok. cbn beta iota.
  set (vs := mirror (slot nm n1)).
  assert (Hc1 : same_class kap n1 s) by (right; exact Hk).
  assert (Hl1 : live kap M s -> live kap M n1).
  { intros (t & Ht).
    destruct (same_class_neighbors kap M s n1 HsM ltac:(lia) (class_sym kap n1 s Hc1))
      as [Hadj|Heq].
    - exists s. apply adjacent_sym. exact Hadj.
    - exists t. apply Heq. exact Ht. }
  assert (Hp1 : kap s = reverse_complement (kap s) -> mirror (slot nm n1) = slot nm n1).
  { intros Hp. apply Hsm0; [exact Hm1|]. apply (palindrome_class kap n1 s Hc1 Hp). }
  destruct (propagate kap M true s (relevant_edges true es) nm (update nm s vs) g lab vs C Hu)
    as (nm2 & Ha & C2 & Hs2 & Hst & Hl2).
  - rewrite length_update. exact Hs.
  - rewrite length_update. exact Hlen.
  - intros u. apply slot_update. exact Hs.
  - unfold vs. rewrite mirror_unmapped. exact Hm1.
  - unfold vs. apply registered_mirror. apply Hr.
  - unfold vs. rewrite fwd_of_mirror, bwd_of_mirror. destruct (Hl n1 Hm1) as [L1 L2].
    rewrite L1, L2, Hk, rc_involutive. auto.
  - intros Hp. unfold vs. rewrite Hp1 by exact Hp. exact (Hp1 Hp).
  - intros Hls a Hla Hma Hca.
    apply (agree_trans kap n1 a s (slot nm n1)).
    + exact (class_trans kap n1 s a Hc1 Hca).
    + apply Hcc; auto.
    + split; intros E; [|reflexivity]. unfold vs. apply Hp1. rewrite E at 2. exact Hk.
  - exact HL.
  - intros t Ht. rewrite length_update.
    assert (Hls : live kap M s) by (exists t; exact Ht).
    pose proof (unmapped_neighbors_mapped kap M nm g lab n1 s C (Hl1 Hls) Hm1 Hc1 HsM Hu t Ht)
      as Hmt.
    apply slot_beyond in Hmt. exact Hmt.
  - exists nm2. rewrite Ha, bind_ok. split; [reflexivity|].
    split; [exact C2|]. split; [rewrite Hs2; unfold vs; rewrite mirror_unmapped; exact Hm1|].
    split; [exact Hst|]. rewrite Hl2, length_update. lia.
Qed.

End ConsistentBlocks.


(* ------------------------------------------------------------------ *)
(** ** Slots of inputs whose links are the (k-1)-overlaps *)

Lemma slot_parts (j : nat) (b : bool) :
  (j * 2 + (if b then 0 else 1)) / 2 = j /\ Nat.even (j * 2 + (if b then 0 else 1)) = b.
Proof.
  destruct b.
  - rewrite Nat.add_0_r. split; [apply Nat.div_mul; lia|].
    rewrite Nat.even_mul, orb_comm. reflexivity.
  - split; [|rewrite Nat.even_add, Nat.even_mul, orb_comm; reflexivity].
    rewrite Nat.div_add_l by lia. simpl. lia.
Qed.

Lemma slot_decompose (t : nat) : exists j (b : bool), t = j * 2 + (if b then 0 else 1).
Proof.
  destruct (Nat.Even_or_Odd t) as [[m ->]|[m ->]];
    [exists m, true | exists m, false]; lia.
Qed.

Lemma edge_slot_parts (e : PlainBCalm2Edge) :
  edge_slot e / 2 = to_node e /\ Nat.even (edge_slot e) = to_side e.
Proof. apply slot_parts. Qed.

Lemma some_inj_iff {A : Type} (x y : A) : Some x = Some y <-> x = y.
Proof. split; [intros [= ->]|intros ->]; reflexivity. Qed.

Section Overlap.

Variable kmer_size : nat.
Variable ds : list PlainBCalm2NodeData.
Variable store : SequenceStore.
Hypothesis Hov : overlap_adjacency kmer_size ds store.

Lemma kappa_slot (j : nat) (b : bool) (d : PlainBCalm2NodeData) :
  nth_error ds j = Some d ->
  kappa kmer_size ds store (j * 2 + (if b then 0 else 1))
  = if b then head_kmer kmer_size store d else tail_kmer kmer_size store d.
Proof.
  intros Hj. unfold kappa. destruct (slot_parts j b) as [-> ->]. rewrite Hj. reflexivity.
Qed.

Lemma overlap_edges (i : nat) (d : PlainBCalm2NodeData) (side : bool) (e : PlainBCalm2Edge) :
  nth_error ds i = Some d -> from_side e = side ->
  (In e (edges d) <->
   adjacent (kappa kmer_size ds store) (List.length ds * 2)
     (i * 2 + (if negb side then 0 else 1)) (edge_slot e)).
Proof.
  intros Hi Hs. destruct (Hov i d Hi) as [_ He]. rewrite He. clear He.
  assert (HiM : i < List.length ds) by (apply nth_error_Some; congruence).
  unfold entering_kmer, leaving_kmer, adjacent. rewrite Hs.
  rewrite (kappa_slot i (negb side) d Hi), (proj2 (slot_parts i (negb side))).
  unfold edge_slot.
  destruct (nth_error ds (to_node e)) as [d'|] eqn:Hd'.
  - rewrite (kappa_slot (to_node e) (to_side e) d' Hd'), (proj2 (slot_parts _ _)).
    assert (to_node e < List.length ds) by (apply nth_error_Some; congruence).
    rewrite some_inj_iff.
    assert (Heq :
      (if to_side e then head_kmer kmer_size store d'
       else reverse_complement (tail_kmer kmer_size store d'))
      = (if side then tail_kmer kmer_size store d
         else reverse_complement (head_kmer kmer_size store d)) <->
      (if Bool.eqb (negb side) (to_side e)
       then (if negb side then head_kmer kmer_size store d else tail_kmer kmer_size store d)
            = reverse_complement (if to_side e then head_kmer kmer_size store d'
                                  else tail_kmer kmer_size store d')
       else (if negb side then head_kmer kmer_size store d else tail_kmer kmer_size store d)
            = (if to_side e then head_kmer kmer_size store d'
               else tail_kmer kmer_size store d'))).
    { destruct side, (to_side e); simpl.
      - split; intros Hx; symmetry; exact Hx.
      - split; intros Hx; symmetry; exact Hx.
      - rewrite rc_swap. split; intros Hx; symmetry; exact Hx.
      - rewrite rc_inj. split; intros Hx; symmetry; exact Hx. }
    rewrite Heq. split.
    + intros Hx. split; [destruct side; simpl; lia|].
      split; [destruct (to_side e); lia|exact Hx].
    + intros (_ & _ & Hx). exact Hx.
  - apply nth_error_None in Hd'. split; [discriminate|].
    intros (_ & Ht & _). exfalso. destruct (to_side e); lia.
Qed.

Lemma listed_side (i : nat) (d : PlainBCalm2NodeData) (side : bool) :
  nth_error ds i = Some d ->
  neighbors_listed (kappa kmer_size ds store) (List.length ds * 2) side
    (i * 2 + (if negb side then 0 else 1)) (relevant_edges side (edges d)).
Proof.
  intros Hi. split.
  - intros e He. unfold relevant_edges in He. apply filter_In in He as [Hin Hs].
    apply Bool.eqb_prop in Hs.
    split; [apply (overlap_edges i d side e Hi Hs); exact Hin|].
    intros v. unfold oriented, orient.
    rewrite (proj2 (slot_parts i (negb side))), (proj2 (edge_slot_parts e)).
    destruct side, (to_side e); reflexivity.
  - intros t Ht. destruct (slot_decompose t) as (j & b & ->).
    exists {| from_side := side; to_node := j; to_side := b |}.
    split; [|reflexivity]. unfold relevant_edges. apply filter_In. split.
    + apply (overlap_edges i d side {| from_side := side; to_node := j; to_side := b |} Hi
               eq_refl). exact Ht.
    + simpl. apply Bool.eqb_reflx.
Qed.

Lemma self_flag (i : nat) (d : PlainBCalm2NodeData) (side : bool) :
  nth_error ds i = Some d ->
  (existsb (edge_eqb {| from_side := side; to_node := id d; to_side := negb side |}) (edges d)
   = true <->
   kappa kmer_size ds store (i * 2 + (if negb side then 0 else 1))
   = reverse_complement (kappa kmer_size ds store (i * 2 + (if negb side then 0 else 1)))).
Proof.
  intros Hi. destruct (Hov i d Hi) as [Hid _].
  assert (HiM : i < List.length ds) by (apply nth_error_Some; congruence).
  rewrite existsb_edge_eqb,
    (overlap_edges i d side {| from_side := side; to_node := id d; to_side := negb side |}
       Hi eq_refl).
  unfold adjacent, edge_slot. simpl. rewrite Hid, Bool.eqb_reflx.
  split; [intros (_ & _ & H); exact H|intros H].
  split; [destruct side; simpl; lia|split; [destruct side; simpl; lia|exact H]].
Qed.

Lemma esm_kappa (i : nat) (d : PlainBCalm2NodeData) :
  nth_error ds i = Some d ->
  (edge_is_self_mirror kmer_size (record_sequence store d) = true <->
   kappa kmer_size ds store (i * 2 + 1)
   = reverse_complement (kappa kmer_size ds store (i * 2))).
Proof.
  intros Hi. rewrite edge_is_self_mirror_kmers.
  pose proof (kappa_slot i false d Hi) as H1. pose proof (kappa_slot i true d Hi) as H0.
  simpl in H1, H0. rewrite Nat.add_0_r in H0. rewrite H1, H0. reflexivity.
Qed.

End Overlap.


Lemma add_edge_ok (g : Graph) (a b : nat) (d : PlainBCalm2NodeData) :
  a < node_count g -> b < node_count g ->
  add_edge g a b d = Ok {| mirrors := mirrors g; graph_edges := graph_edges g ++ [(a, b, d)] |}.
Proof.
  intros Ha Hb. unfold add_edge. apply Nat.ltb_lt in Ha, Hb. rewrite Ha, Hb. reflexivity.
Qed.

Lemma length_grown (v : list MappedNode) (t B : nat) :
  List.length v <= B -> t < B ->
  List.length (if List.length v <=? t then resize v (t + 1) Unmapped else v) <= B.
Proof.
  intros H1 H2. destruct (List.length v <=? t) eqn:E; [|exact H1].
  apply Nat.leb_le in E. rewrite resize_grow by lia.
  rewrite length_app, repeat_length. lia.
Qed.

Section OverlapReader.

Variable kmer_size : nat.
Variable ds : list PlainBCalm2NodeData.
Variable store : SequenceStore.
Hypothesis Hov : overlap_adjacency kmer_size ds store.

Local Abbreviation kap := (kappa kmer_size ds store).
Local Abbreviation M := (List.length ds * 2).

(** One record of such an input keeps the invariant, maps both slots of
    the record and adds the edges of its endpoints. *)
Lemma step_consistent (i : nat) (d : PlainBCalm2NodeData) (st : SequenceStore)
    (nm : list MappedNode) (g : Graph) (lab : nat -> Genome) :
  nth_error ds i = Some d -> store_get st (sequence_handle d) = record_sequence store d ->
  kmer_size <> 0 -> consistent_state kap M nm g lab ->
  exists nm' g' lab', build_step kmer_size st d nm g = Ok (nm', g') /\
    consistent_state kap M nm' g' lab' /\
    slot nm' (i * 2) <> Unmapped /\ slot nm' (i * 2 + 1) <> Unmapped /\
    (forall u, slot nm u <> Unmapped -> slot nm' u = slot nm u) /\
    graph_edges g' = graph_edges g ++ edge_pair (record_endpoints nm' d) /\
    (forall n m, mirror_node g n = Some m -> mirror_node g' n = Some m).
Proof.
  intros Hi Hst Hk C. destruct (Hov i d Hi) as [Hid _].
  assert (HiM : i < List.length ds) by (apply nth_error_Some; congruence).
  unfold build_step. rewrite Hst, Hid.
  replace (kmer_size =? 0) with false by (symmetry; apply Nat.eqb_neq; exact Hk).
  cbn beta iota zeta. rewrite bind_ok.
  destruct (grown_slot nm (i * 2 + 1)) as (Hs0 & Hl0 & Ht0).
  assert (HlM0 := length_grown nm (i * 2 + 1) M (proj1 C) ltac:(lia)).
  set (nm0 := if List.length nm <=? i * 2 + 1 then resize nm (i * 2 + 1 + 1) Unmapped else nm)
    in *.
  pose proof (consistent_slots kap M nm nm0 g lab C Hs0 HlM0) as C0.
  assert (HL0 : neighbors_listed kap M false (i * 2) (relevant_edges false (edges d))).
  { replace (i * 2) with (i * 2 + (if negb false then 0 else 1)) by (simpl; lia).
    apply listed_side; assumption. }
  assert (HF0 : existsb (edge_eqb (head_self_mirror_edge d)) (edges d) = true <->
                kap (i * 2) = reverse_complement (kap (i * 2))).
  { replace (i * 2) with (i * 2 + (if negb false then 0 else 1)) by (simpl; lia).
    exact (self_flag kmer_size ds store Hov i d false Hi). }
  rewrite resolve_head_block.
  destruct (block_consistent kap M false (i * 2) _ (relevant_edges false (edges d)) nm0 g lab
              C0 ltac:(lia) HL0 HF0)
    as (nm1 & g1 & lab1 & Hb1 & C1 & Hm1 & Hst1 & Hx1 & Hl1).
  rewrite Hb1, bind_ok. cbn beta iota.
  assert (HT : exists nm2 g2 lab2,
    resolve_tail (i * 2) (i * 2 + 1) (existsb (edge_eqb (tail_self_mirror_edge d)) (edges d))
      (edge_is_self_mirror kmer_size (record_sequence store d)) (edges d) nm1 g1
    = Ok (nm2, g2) /\ consistent_state kap M nm2 g2 lab2 /\
    slot nm2 (i * 2 + 1) <> Unmapped /\
    (forall u, slot nm1 u <> Unmapped -> slot nm2 u = slot nm1 u) /\ graph_ext g1 g2).
  { assert (HL1 : neighbors_listed kap M true (i * 2 + 1) (relevant_edges true (edges d))).
    { exact (listed_side kmer_size ds store Hov i d true Hi). }
    destruct (edge_is_self_mirror kmer_size (record_sequence store d)) eqn:He.
    - destruct (shortcut_consistent kap M (i * 2) (i * 2 + 1)
                  (existsb (edge_eqb (tail_self_mirror_edge d)) (edges d)) (edges d) nm1 g1 lab1 C1 Hm1
                  ltac:(lia) (proj1 (esm_kappa kmer_size ds store i d Hi) He) HL1)
        as (nm2 & Hr2 & C2 & Hm2 & Hst2 & _).
      exists nm2, g1, lab1. split; [exact Hr2|]. split; [exact C2|].
      split; [exact Hm2|]. split; [exact Hst2|apply graph_ext_refl].
    - rewrite resolve_tail_block.
      destruct (block_consistent kap M true (i * 2 + 1) _ (relevant_edges true (edges d))
                  nm1 g1 lab1 C1 ltac:(lia) HL1
                  (self_flag kmer_size ds store Hov i d true Hi))
        as (nm2 & g2 & lab2 & Hb2 & C2 & Hm2 & Hst2 & Hx2 & _).
      exists nm2, g2, lab2. auto. }
  destruct HT as (nm2 & g2 & lab2 & Hr2 & C2 & Hm2 & Hst2 & Hx2).
  rewrite Hr2, bind_ok. cbn beta iota.
  assert (Hm1' : slot nm2 (i * 2) <> Unmapped) by (rewrite Hst2 by exact Hm1; exact Hm1).
  rewrite (vget_slot nm2 (i * 2) (slot_beyond nm2 _ Hm1')), bind_ok.
  rewrite (endpoints_of_mapped _ Hm1'), bind_ok. cbn beta iota.
  rewrite (vget_slot nm2 (i * 2 + 1) (slot_beyond nm2 _ Hm2)), bind_ok.
  rewrite (endpoints_of_mapped _ Hm2), bind_ok. cbn beta iota.
  destruct C2 as (Cl & Creg & Crest).
  destruct (registered_lt g2 _ (Creg (i * 2)) Hm1') as [Ha Ha'].
  destruct (registered_lt g2 _ (Creg (i * 2 + 1)) Hm2) as [Hb Hb'].
  rewrite (add_edge_ok g2 _ _ d Ha Hb), bind_ok.
  rewrite add_edge_ok by assumption. rewrite bind_ok.
  eexists _, _, lab2. split; [reflexivity|].
  split; [apply (consistent_same_mirrors kap M nm2 g2); [split; auto|reflexivity]|].
  split; [exact Hm1'|]. split; [exact Hm2|].
  split.
  { intros u Hu. assert (H0 : slot nm0 u <> Unmapped) by (rewrite Hs0; exact Hu).
    assert (H1 : slot nm1 u = slot nm0 u) by (apply Hst1, H0).
    rewrite Hst2 by (rewrite H1; exact H0). rewrite H1. apply Hs0. }
  destruct Hx1 as (He1 & _ & Hmi1). destruct Hx2 as (He2 & _ & Hmi2).
  split.
  - simpl. rewrite <- app_assoc, He2, He1. unfold record_endpoints. rewrite Hid. reflexivity.
  - intros n m Hn. unfold mirror_node in *. simpl. apply Hmi2, Hmi1. exact Hn.
Qed.

End OverlapReader.


Lemma parse_records_prefix (rs : list FastaRecord) :
  forall st ds' st', parse_records rs st = Ok (ds', st') -> exists rest, st' = st ++ rest.
Proof.
  induction rs as [|r rs IH]; simpl; intros st ds' st' H.
  - injection H as _ <-. exists []. rewrite app_nil_r. reflexivity.
  - destruct (parse_bcalm2_fasta_record r st) as [[d st1]| |] eqn:Hp; simpl in H;
      try discriminate.
    destruct (parse_records rs st1) as [[ds'' st2]| |] eqn:Hq; simpl in H; try discriminate.
    injection H as _ <-.
    destruct (parse_ok_inv _ _ _ _ Hp) as (g0 & _ & -> & _).
    destruct (IH _ _ _ Hq) as (rest & ->). exists (g0 :: rest).
    rewrite <- app_assoc. reflexivity.
Qed.

Lemma parse_records_data (rs : list FastaRecord) :
  forall st ds' st', parse_records rs st = Ok (ds', st') ->
  List.length ds' = List.length rs /\
  forall j d, nth_error ds' j = Some d ->
    sequence_handle d = List.length st + j /\ forwards d = true.
Proof.
  induction rs as [|r rs IH]; simpl; intros st ds' st' H.
  - injection H as <- _. split; [reflexivity|]. intros [|j]; discriminate.
  - destruct (parse_bcalm2_fasta_record r st) as [[d st1]| |] eqn:Hp; simpl in H;
      try discriminate.
    destruct (parse_records rs st1) as [[ds'' st2]| |] eqn:Hq; simpl in H; try discriminate.
    injection H as <- _.
    destruct (parse_ok_inv _ _ _ _ Hp) as (g0 & _ & -> & _ & Hh & Hfw & _).
    destruct (IH _ _ _ Hq) as [Hl Hd]. split; [simpl; congruence|].
    intros [|j] d' Hj; simpl in Hj.
    + injection Hj as <-. split; [lia|exact Hfw].
    + destruct (Hd _ _ Hj) as [H1 H2]. rewrite length_app in H1. simpl in H1.
      split; [lia|exact H2].
Qed.

Lemma even_double (j : nat) : Nat.even (j * 2) = true.
Proof. rewrite Nat.even_mul, orb_comm. reflexivity. Qed.

Lemma even_double_1 (j : nat) : Nat.even (j * 2 + 1) = false.
Proof. rewrite Nat.even_add, even_double. reflexivity. Qed.

Lemma slot_cases (t : nat) : exists j, t = j * 2 \/ t = j * 2 + 1.
Proof. destruct (Nat.Even_or_Odd t) as [[m ->]|[m ->]]; exists m; lia. Qed.

Lemma div_double (j : nat) : j * 2 / 2 = j.
Proof. apply Nat.div_mul. lia. Qed.

Lemma div_double_1 (j : nat) : (j * 2 + 1) / 2 = j.
Proof. rewrite Nat.div_add_l by lia. simpl. lia. Qed.

(** The other slot of the same record. *)
Lemma even_partner (e : nat) :
  Nat.even (if Nat.even e then S e else pred e) = negb (Nat.even e) /\
  (if Nat.even e then S e else pred e) / 2 = e / 2.
Proof.
  destruct (slot_cases e) as (j & [-> | ->]).
  - rewrite even_double. replace (S (j * 2)) with (j * 2 + 1) by lia.
    rewrite even_double_1, div_double, div_double_1. auto.
  - rewrite even_double_1. replace (pred (j * 2 + 1)) with (j * 2) by lia.
    rewrite even_double, div_double, div_double_1. auto.
Qed.

(** The endpoints of the edges of a pair graph, given by a function of
    the slot and of the side. *)
Lemma pair_endpoints (q : list (nat * nat * nat * nat * PlainBCalm2NodeData))
    (phi : nat -> bool -> nat) :
  (forall j a a' b b' d, nth_error q j = Some (a, a', b, b', d) ->
     a = phi (j * 2) true /\ a' = phi (j * 2) false /\
     b = phi (j * 2 + 1) true /\ b' = phi (j * 2 + 1) false) ->
  forall e x, nth_error (flat_map edge_pair q) e = Some x ->
    edge_from x = phi e (Nat.even e) /\
    edge_to x = phi (if Nat.even e then S e else pred e) (Nat.even e).
Proof.
  intros Hq e x Hx.
  assert (He : e < List.length q * 2).
  { rewrite <- length_flat_map_pair. apply nth_error_Some. congruence. }
  destruct (slot_cases e) as (j & Hj).
  destruct (nth_error q j) as [[[[[a a'] b] b'] d]|] eqn:Hqj;
    [|apply nth_error_None in Hqj; lia].
  destruct (nth_error_flat_map_pair _ _ _ _ _ _ _ Hqj) as [H0 H1].
  destruct (Hq _ _ _ _ _ _ Hqj) as (-> & -> & -> & ->).
  destruct Hj as [-> | ->].
  - rewrite H0 in Hx. injection Hx as <-. rewrite even_double.
    replace (S (j * 2)) with (j * 2 + 1) by lia. auto.
  - rewrite H1 in Hx. injection Hx as <-. rewrite even_double_1.
    replace (pred (j * 2 + 1)) with (j * 2) by lia. auto.
Qed.

Lemma registered_endpoints (g : Graph) (v : MappedNode) :
  registered g v -> v <> Unmapped ->
  mirror_node g (fwd_of v) = Some (bwd_of v) /\ mirror_node g (bwd_of v) = Some (fwd_of v).
Proof. destruct v; simpl; auto. intros _ []. reflexivity. Qed.

Section OverlapLoop.

Variable kmer_size : nat.
Variable ds : list PlainBCalm2NodeData.
Variable store : SequenceStore.
Hypothesis Hov : overlap_adjacency kmer_size ds store.

Local Abbreviation kap := (kappa kmer_size ds store).
Local Abbreviation M := (List.length ds * 2).

Lemma loop_consistent (rs : list FastaRecord) :
  forall st nm g lab pre ds',
  parse_records rs st = Ok (ds', store) -> ds = pre ++ ds' -> kmer_size <> 0 ->
  consistent_state kap M nm g lab ->
  exists nm' g' lab', edge_centric_loop kmer_size rs st nm g = Ok (nm', g', store) /\
    consistent_state kap M nm' g' lab' /\
    (forall u, slot nm u <> Unmapped -> slot nm' u = slot nm u) /\
    (forall j, List.length pre <= j < List.length ds ->
       slot nm' (j * 2) <> Unmapped /\ slot nm' (j * 2 + 1) <> Unmapped) /\
    graph_edges g' = graph_edges g ++ flat_map edge_pair (map (record_endpoints nm') ds').
Proof.
  induction rs as [|r rs IH]; intros st nm g lab pre ds' Hp Hds Hk C; simpl in Hp.
  - injection Hp as <- ->. rewrite app_nil_r in Hds. subst ds.
    exists nm, g, lab. split; [reflexivity|]. split; [exact C|].
    split; [auto|]. split; [intros j Hj; lia|]. simpl. rewrite app_nil_r. reflexivity.
  - destruct (parse_bcalm2_fasta_record r st) as [[d st1]| |] eqn:Hr; simpl in Hp;
      try discriminate.
    destruct (parse_records rs st1) as [[ds'' st2]| |] eqn:Hq; simpl in Hp; try discriminate.
    injection Hp as <- ->.
    destruct (parse_ok_inv _ _ _ _ Hr) as (g0 & _ & Hst1 & _ & Hh & _).
    destruct (parse_records_prefix _ _ _ _ Hq) as (rest & Hrest).
    assert (Hi : nth_error ds (List.length pre) = Some d).
    { rewrite Hds, nth_error_app2, Nat.sub_diag by lia. reflexivity. }
    destruct (Hov _ _ Hi) as [Hid _].
    assert (Hsg : store_get st1 (sequence_handle d) = record_sequence store d).
    { unfold record_sequence, store_get. rewrite Hrest, app_nth1; [reflexivity|].
      rewrite Hst1, length_app. simpl. lia. }
    destruct (step_consistent kmer_size ds store Hov _ d st1 nm g lab Hi Hsg Hk C)
      as (nm1 & g1 & lab1 & Hb & C1 & Hm1a & Hm1b & Hst1' & Hed1 & _).
    destruct (IH st1 nm1 g1 lab1 (pre ++ [d]) ds'' Hq
                ltac:(rewrite Hds, <- app_assoc; reflexivity) Hk C1)
      as (nm' & g' & lab' & Hl & C' & Hst' & Hmap' & Hed').
    exists nm', g', lab'. split.
    { cbn [edge_centric_loop]. rewrite Hr, bind_ok. cbn beta iota.
      rewrite Hb, bind_ok. exact Hl. }
    split; [exact C'|]. split.
    { intros u Hu. rewrite Hst'; rewrite Hst1'; auto. }
    split.
    { intros j Hj. rewrite length_app in Hmap'. simpl in Hmap'.
      destruct (Nat.eq_dec j (List.length pre)) as [->|Hne]; [|apply Hmap'; lia].
      rewrite (Hst' _ Hm1a), (Hst' _ Hm1b). auto. }
    rewrite Hed', Hed1. cbn [map flat_map]. rewrite <- app_assoc. f_equal. f_equal.
    unfold record_endpoints. rewrite Hid, (Hst' _ Hm1a), (Hst' _ Hm1b). reflexivity.
Qed.

(** The new reader on such an input: every slot is mapped and the edges
    are the pairs of the records' endpoints. *)
Lemma new_reader_consistent (records : list FastaRecord) (st0 : SequenceStore) :
  parse_records records st0 = Ok (ds, store) -> kmer_size <> 0 ->
  exists nm g lab,
    edge_centric_loop kmer_size records st0 [] empty_graph = Ok (nm, g, store) /\
    consistent_state kap M nm g lab /\ (forall s, s < M -> slot nm s <> Unmapped) /\
    graph_edges g = flat_map edge_pair (map (record_endpoints nm) ds).
Proof.
  intros Hp Hk.
  destruct (loop_consistent records st0 [] empty_graph (fun _ => []) [] ds Hp eq_refl Hk
              (consistent_empty kap M))
    as (nm & g & lab & Hl & C & _ & Hmap & Hed).
  exists nm, g, lab. split; [exact Hl|]. split; [exact C|]. split; [|exact Hed].
  intros s Hs. destruct (slot_cases s) as (j & [-> | ->]); apply Hmap; simpl; lia.
Qed.

End OverlapLoop.


Section Endpoints.

Variable kap : nat -> Genome.
Variable M : nat.

(** In a consistent state where both slots are mapped, the node leaving
    slot [s] is the node entering slot [t] exactly when their (k-1)-mers
    are equal. *)
Lemma endpoint_labels (nm : list MappedNode) (g : Graph) (lab : nat -> Genome) (s t : nat) :
  consistent_state kap M nm g lab -> slot nm s <> Unmapped -> slot nm t <> Unmapped ->
  s < M -> t < M ->
  (endpoint (slot nm s) (negb (Nat.even s)) = endpoint (slot nm t) (Nat.even t) <->
   end_kmer kap s (negb (Nat.even s)) = end_kmer kap t (Nat.even t)).
Proof.
  intros C Hs Ht HsM HtM. destruct C as (_ & _ & LAB & _ & CC & _).
  assert (Hlab : forall u b, slot nm u <> Unmapped ->
                 lab (endpoint (slot nm u) b) = end_kmer kap u b).
  { intros u b Hu. destruct (LAB u Hu) as [H1 H2]. unfold endpoint, end_kmer.
    destruct b; assumption. }
  split.
  - intros E. rewrite <- (Hlab s _ Hs), <- (Hlab t _ Ht), E. reflexivity.
  - intros E.
    assert (Hadj : adjacent kap M s t).
    { apply (adjacent_iff kap M). split; [exact HsM|split; [exact HtM|]].
      unfold slot_out, end_kmer in *.
      destruct (Nat.even s), (Nat.even t); simpl in E |- *; rewrite ?rc_involutive; exact E. }
    assert (Hls : live kap M s) by (exists t; exact Hadj).
    assert (Hlt : live kap M t) by (exists s; apply (adjacent_sym kap M); exact Hadj).
    rewrite (adjacent_agree_inv kap M s t _ _ Hadj (CC s t Hls Hlt Hs Ht)).
    unfold orient, endpoint.
    destruct (Nat.even s), (Nat.even t); simpl; rewrite ?fwd_of_mirror, ?bwd_of_mirror;
      reflexivity.
Qed.

End Endpoints.

Lemma genome_eqb_neq (x y : Genome) : genome_eqb x y = false <-> x <> y.
Proof.
  rewrite <- genome_eqb_eq. destruct (genome_eqb x y); split; congruence.
Qed.

Lemma id_map_get_filter (m : list (Genome * nat)) (k y : Genome) :
  y <> k ->
  id_map_get (filter (fun kv => negb (genome_eqb k (fst kv))) m) y = id_map_get m y.
Proof.
  intros Hy. induction m as [|[k' v] m IH]; simpl; [reflexivity|].
  destruct (genome_eqb k k') eqn:E; simpl.
  - apply genome_eqb_eq in E. subst k'.
    rewrite (proj2 (genome_eqb_neq y k) Hy). exact IH.
  - destruct (genome_eqb y k'); [reflexivity|exact IH].
Qed.

Lemma id_map_get_insert (m : list (Genome * nat)) (k : Genome) (v : nat) (y : Genome) :
  id_map_get (id_map_insert m k v) y = if genome_eqb y k then Some v else id_map_get m y.
Proof.
  unfold id_map_insert. simpl. destruct (genome_eqb y k) eqn:E; [reflexivity|].
  apply id_map_get_filter. apply genome_eqb_neq. exact E.
Qed.

Lemma get_or_create_new (g : Graph) (idm : list (Genome * nat)) (x : Genome) :
  id_map_get idm x = None ->
  get_or_create_node g idm x =
  if genome_eqb (reverse_complement x) x then
    Ok (node_count g,
        {| mirrors := mirrors g ++ [Some (node_count g)]; graph_edges := graph_edges g |},
        id_map_insert idm x (node_count g))
  else
    Ok (node_count g,
        {| mirrors := mirrors g ++ [Some (S (node_count g)); Some (node_count g)];
           graph_edges := graph_edges g |},
        id_map_insert (id_map_insert idm (reverse_complement x) (S (node_count g)))
          x (node_count g)).
Proof.
  intros E. unfold get_or_create_node. rewrite E.
  unfold add_node, set_mirror_nodes, node_count.
  destruct (genome_eqb (reverse_complement x) x); simpl.
  - rewrite vset_ok by (rewrite length_app; simpl; lia).
    rewrite update_at_length. simpl.
    rewrite vset_ok by (rewrite length_app; simpl; lia).
    rewrite update_at_length. reflexivity.
  - rewrite length_app. simpl. rewrite <- app_assoc. simpl.
    rewrite vset_ok by (rewrite length_app; simpl; lia).
    rewrite update_at_length. simpl.
    rewrite vset_ok by (rewrite length_app; simpl; lia).
    rewrite Nat.add_1_r, update_after_length. reflexivity.
Qed.


Lemma genome_eqb_refl (x : Genome) : genome_eqb x x = true.
Proof. apply genome_eqb_eq. reflexivity. Qed.

(** [get_or_create_node] keeps the invariant of the old reader and only
    extends the map and the graph. *)
Lemma get_or_create_spec (g : Graph) (idm : list (Genome * nat)) (x : Genome) (n : nat)
    (g' : Graph) (idm' : list (Genome * nat)) :
  get_or_create_node g idm x = Ok (n, g', idm') -> id_map_ok idm g ->
  id_map_ok idm' g' /\ id_map_get idm' x = Some n /\
  (forall y m, id_map_get idm y = Some m -> id_map_get idm' y = Some m) /\ graph_ext g g'.
Proof.
  intros H [Hcl Hinj]. destruct (id_map_get idm x) as [n0|] eqn:E.
  - unfold get_or_create_node in H. rewrite E in H. injection H as <- <- <-.
    split; [split; assumption|]. split; [exact E|]. split; [auto|apply graph_ext_refl].
  - rewrite (get_or_create_new g idm x E) in H.
    assert (Hfresh : forall y m, id_map_get idm y = Some m -> m < node_count g)
      by (intros y m Hy; exact (proj1 (Hcl y m Hy))).
    destruct (genome_eqb (reverse_complement x) x) eqn:Hp; injection H as <- <- <-.
    + apply genome_eqb_eq in Hp.
      set (g1 := {| mirrors := mirrors g ++ [Some (node_count g)];
                    graph_edges := graph_edges g |}).
      assert (Hext : graph_ext g g1) by apply graph_ext_app.
      assert (Hc : node_count g1 = S (node_count g))
        by (unfold g1, node_count; simpl; rewrite length_app; simpl; lia).
      assert (Hmc : mirror_node g1 (node_count g) = Some (node_count g)).
      { unfold g1. rewrite mirror_node_app, Nat.ltb_irrefl, Nat.sub_diag. reflexivity. }
      split; [split|].
      * intros y m Hy. rewrite id_map_get_insert in Hy.
        destruct (genome_eqb y x) eqn:Ey.
        -- apply genome_eqb_eq in Ey. subst y. injection Hy as <-. split; [lia|].
           exists (node_count g). rewrite id_map_get_insert, Hp, genome_eqb_refl. auto.
        -- destruct (Hcl y m Hy) as (Hm & m' & Hm' & Hmir). split; [lia|]. exists m'.
           rewrite id_map_get_insert.
           destruct (genome_eqb (reverse_complement y) x) eqn:Eyx.
           ++ apply genome_eqb_eq in Eyx. exfalso. apply genome_eqb_neq in Ey. apply Ey.
              rewrite <- Hp, <- Eyx, rc_involutive. reflexivity.
           ++ split; [exact Hm'|]. apply (proj2 (proj2 Hext)). exact Hmir.
      * intros y1 y2 m H1 H2. rewrite id_map_get_insert in H1, H2.
        destruct (genome_eqb y1 x) eqn:E1, (genome_eqb y2 x) eqn:E2.
        -- apply genome_eqb_eq in E1, E2. congruence.
        -- injection H1 as <-. apply Hfresh in H2. lia.
        -- injection H2 as <-. apply Hfresh in H1. lia.
        -- exact (Hinj y1 y2 m H1 H2).
      * split; [rewrite id_map_get_insert, genome_eqb_refl; reflexivity|].
        split; [|exact Hext].
        intros y m Hy. rewrite id_map_get_insert. destruct (genome_eqb y x) eqn:Ey; [|exact Hy].
        apply genome_eqb_eq in Ey. subst y. congruence.
    + apply genome_eqb_neq in Hp.
      set (c := node_count g) in *.
      set (g1 := {| mirrors := mirrors g ++ [Some (S c); Some c];
                    graph_edges := graph_edges g |}).
      assert (Hext : graph_ext g g1) by apply graph_ext_app.
      assert (Hc : node_count g1 = S (S c))
        by (unfold g1, c, node_count; simpl; rewrite length_app; simpl; lia).
      assert (Hmc : mirror_node g1 c = Some (S c)).
      { unfold g1. rewrite mirror_node_app. fold c. rewrite Nat.ltb_irrefl, Nat.sub_diag.
        reflexivity. }
      assert (Hmc' : mirror_node g1 (S c) = Some c).
      { unfold g1. rewrite mirror_node_app. fold c.
        replace (S c <? c) with false by (symmetry; apply Nat.ltb_ge; lia).
        replace (S c - c) with 1 by lia. reflexivity. }
      assert (Hrx : reverse_complement x <> x) by exact Hp.
      assert (Hxr : x <> reverse_complement x) by congruence.
      assert (Hget : forall y, id_map_get
        (id_map_insert (id_map_insert idm (reverse_complement x) (S c)) x c) y =
        if genome_eqb y x then Some c
        else if genome_eqb y (reverse_complement x) then Some (S c) else id_map_get idm y).
      { intros y. rewrite !id_map_get_insert. reflexivity. }
      assert (Hnrx : id_map_get idm (reverse_complement x) = None).
      { destruct (id_map_get idm (reverse_complement x)) as [m|] eqn:Em; [|reflexivity].
        destruct (Hcl _ _ Em) as (_ & m' & Hm' & _). rewrite rc_involutive in Hm'.
        congruence. }
      split; [split|].
      * intros y m Hy. rewrite Hget in Hy. rewrite Hget.
        destruct (genome_eqb y x) eqn:E1.
        -- apply genome_eqb_eq in E1. subst y. injection Hy as <-. split; [lia|].
           exists (S c). rewrite (proj2 (genome_eqb_neq _ _) Hrx), genome_eqb_refl. auto.
        -- destruct (genome_eqb y (reverse_complement x)) eqn:E2.
           ++ apply genome_eqb_eq in E2. subst y. injection Hy as <-. split; [lia|].
              exists c. rewrite rc_involutive, genome_eqb_refl. auto.
           ++ destruct (Hcl y m Hy) as (Hm & m' & Hm' & Hmir). split; [lia|]. exists m'.
              apply genome_eqb_neq in E1, E2.
              rewrite (proj2 (genome_eqb_neq (reverse_complement y) x)).
              2:{ intros Hyx. apply E2. rewrite <- Hyx, rc_involutive. reflexivity. }
              rewrite (proj2 (genome_eqb_neq (reverse_complement y) (reverse_complement x))).
              2:{ rewrite rc_inj. exact E1. }
              split; [exact Hm'|]. apply (proj2 (proj2 Hext)). exact Hmir.
      * intros y1 y2 m H1 H2. rewrite Hget in H1, H2.
        destruct (genome_eqb y1 x) eqn:E1, (genome_eqb y2 x) eqn:E2;
          try (apply genome_eqb_eq in E1); try (apply genome_eqb_eq in E2);
          try congruence;
          destruct (genome_eqb y1 (reverse_complement x)) eqn:F1;
          try (apply genome_eqb_eq in F1);
          destruct (genome_eqb y2 (reverse_complement x)) eqn:F2;
          try (apply genome_eqb_eq in F2); try congruence;
          repeat match goal with
          | H : Some _ = Some _ |- _ => injection H as H
          end; subst;
          try (apply Hfresh in H1; lia); try (apply Hfresh in H2; lia); try lia;
          exact (Hinj y1 y2 m H1 H2).
      * split; [rewrite Hget, genome_eqb_refl; reflexivity|].
        split; [|exact Hext].
        intros y m Hy. rewrite Hget.
        destruct (genome_eqb y x) eqn:E1; [apply genome_eqb_eq in E1; subst y; congruence|].
        destruct (genome_eqb y (reverse_complement x)) eqn:E2; [|exact Hy].
        apply genome_eqb_eq in E2. subst y. congruence.
Qed.


Lemma id_map_ok_mirrors (idm : list (Genome * nat)) (g g' : Graph) :
  id_map_ok idm g -> mirrors g' = mirrors g -> id_map_ok idm g'.
Proof. unfold id_map_ok, node_count, mirror_node. intros H ->. exact H. Qed.

(** One record of the old reader: the invariant is kept, the four
    (k-1)-mers of the record are in the map, and the two edges join their
    nodes. *)
Lemma old_step_spec (k' : nat) (st : SequenceStore) (d : PlainBCalm2NodeData)
    (idm idm' : list (Genome * nat)) (g g' : Graph) :
  old_step k' st d idm g = Ok (idm', g') -> id_map_ok idm g ->
  id_map_ok idm' g' /\
  (forall y m, id_map_get idm y = Some m -> id_map_get idm' y = Some m) /\
  (forall n m, mirror_node g n = Some m -> mirror_node g' n = Some m) /\
  graph_edges g' = graph_edges g ++ edge_pair (old_record_endpoints k' st idm' d) /\
  (forall x, x = firstn k' (record_sequence st d) \/
             x = skipn (List.length (record_sequence st d) - k') (record_sequence st d) ->
     id_map_get idm' x <> None /\ id_map_get idm' (reverse_complement x) <> None).
Proof.
  intros H Hok. unfold old_step in H.
  apply bind_inv in H. destruct H as (pre & Hpre & H).
  apply bind_inv in H. destruct H as (suf & Hsuf & H).
  unfold prefix in Hpre. unfold suffix in Hsuf.
  destruct (k' <=? List.length (store_get st (sequence_handle d))); [|discriminate].
  injection Hpre as <-. injection Hsuf as <-.
  apply bind_inv in H. destruct H as ([[n1 g1] idm1] & H1 & H). cbn beta iota in H.
  apply bind_inv in H. destruct H as ([[n2 g2] idm2] & H2 & H). cbn beta iota in H.
  apply bind_inv in H. destruct H as ([[n3 g3] idm3] & H3 & H). cbn beta iota in H.
  apply bind_inv in H. destruct H as ([[n4 g4] idm4] & H4 & H). cbn beta iota in H.
  apply bind_inv in H. destruct H as (g5 & H5 & H).
  apply bind_inv in H. destruct H as (g6 & H6 & H). injection H as <- <-.
  destruct (get_or_create_spec _ _ _ _ _ _ H1 Hok) as (Ok1 & K1 & E1 & X1).
  destruct (get_or_create_spec _ _ _ _ _ _ H2 Ok1) as (Ok2 & K2 & E2 & X2).
  destruct (get_or_create_spec _ _ _ _ _ _ H3 Ok2) as (Ok3 & K3 & E3 & X3).
  destruct (get_or_create_spec _ _ _ _ _ _ H4 Ok3) as (Ok4 & K4 & E4 & X4).
  apply add_edge_inv in H5 as (_ & _ & ->). apply add_edge_inv in H6 as (_ & _ & ->).
  apply E2, E3, E4 in K1. apply E3, E4 in K2. apply E4 in K3.
  pose proof (graph_ext_trans _ _ _ (graph_ext_trans _ _ _ X1 X2)
                (graph_ext_trans _ _ _ X3 X4)) as (Xe & _ & Xm).
  split; [apply (id_map_ok_mirrors idm4 g4); [exact Ok4|reflexivity]|].
  split; [intros y m Hy; apply E4, E3, E2, E1; exact Hy|].
  split; [intros n m Hn; apply Xm; exact Hn|].
  split.
  - simpl. rewrite <- app_assoc, Xe. unfold old_record_endpoints, record_sequence, id_map_node.
    rewrite K1, K2, K3, K4. reflexivity.
  - unfold record_sequence. intros x [-> | ->]; split; congruence.
Qed.

(** The old reader's loop: the edges are the pairs of the old endpoints
    of the parsed records, taken in the final map. *)
Lemma old_loop_spec (k' : nat) (rs : list FastaRecord) :
  forall st idm g gF stF, old_loop k' rs st idm g = Ok (gF, stF) -> id_map_ok idm g ->
  exists ds' idmF, parse_records rs st = Ok (ds', stF) /\ id_map_ok idmF gF /\
    (forall y m, id_map_get idm y = Some m -> id_map_get idmF y = Some m) /\
    (forall n m, mirror_node g n = Some m -> mirror_node gF n = Some m) /\
    graph_edges gF = graph_edges g ++ flat_map edge_pair (map (old_record_endpoints k' stF idmF) ds') /\
    (forall d x, In d ds' ->
       x = firstn k' (record_sequence stF d) \/
       x = skipn (List.length (record_sequence stF d) - k') (record_sequence stF d) ->
       id_map_get idmF x <> None /\ id_map_get idmF (reverse_complement x) <> None).
Proof.
  induction rs as [|r rs IH]; intros st idm g gF stF H Hok; simpl in H.
  - injection H as <- <-. exists [], idm. simpl. rewrite app_nil_r.
    split; [reflexivity|]. split; [exact Hok|]. split; [auto|]. split; [auto|].
    split; [reflexivity|]. intros d x [].
  - apply bind_inv in H. destruct H as ([d st1] & Hr & H). cbn beta iota in H.
    apply bind_inv in H. destruct H as ([idm1 g1] & Hs & H). cbn beta iota in H.
    destruct (old_step_spec _ _ _ _ _ _ _ Hs Hok) as (Ok1 & E1 & X1 & Ed1 & K1).
    destruct (IH _ _ _ _ _ H Ok1) as (ds' & idmF & Hp & OkF & EF & XF & EdF & KF).
    destruct (parse_ok_inv _ _ _ _ Hr) as (g0 & _ & Hst1 & _ & Hh & _).
    destruct (parse_records_prefix _ _ _ _ Hp) as (rest & Hrest).
    assert (Hseq : record_sequence stF d = record_sequence st1 d).
    { unfold record_sequence, store_get. rewrite Hrest, app_nth1; [reflexivity|].
      rewrite Hst1, length_app. simpl. lia. }
    exists (d :: ds'), idmF. split.
    { simpl. rewrite Hr, bind_ok. cbn beta iota. rewrite Hp, bind_ok. reflexivity. }
    split; [exact OkF|]. split; [intros y m Hy; apply EF, E1; exact Hy|].
    split; [intros n m Hn; apply XF, X1; exact Hn|].
    split.
    + rewrite EdF, Ed1. cbn [map flat_map]. rewrite <- app_assoc. f_equal. f_equal.
      unfold old_record_endpoints. rewrite Hseq. unfold id_map_node.
      destruct (K1 (firstn k' (record_sequence st1 d)) (or_introl eq_refl)) as [Ka Kb].
      destruct (K1 (skipn (List.length (record_sequence st1 d) - k') (record_sequence st1 d))
                  (or_intror eq_refl)) as [Kc Kd].
      destruct (id_map_get idm1 (firstn k' (record_sequence st1 d))) eqn:Ea; [|congruence].
      destruct (id_map_get idm1 (reverse_complement (firstn k' (record_sequence st1 d))))
        eqn:Eb; [|congruence].
      destruct (id_map_get idm1 (skipn (List.length (record_sequence st1 d) - k')
                                   (record_sequence st1 d))) eqn:Ec; [|congruence].
      destruct (id_map_get idm1 (reverse_complement (skipn (List.length (record_sequence st1 d) - k')
                                   (record_sequence st1 d)))) eqn:Ed; [|congruence].
      rewrite (EF _ _ Ea), (EF _ _ Eb), (EF _ _ Ec), (EF _ _ Ed). reflexivity.
    + intros d' x [<- | Hin] Hx.
      * rewrite Hseq in Hx. destruct (K1 x Hx) as [Ka Kb].
        destruct (id_map_get idm1 x) eqn:Ea; [|congruence].
        destruct (id_map_get idm1 (reverse_complement x)) eqn:Eb; [|congruence].
        rewrite (EF _ _ Ea), (EF _ _ Eb). split; discriminate.
      * exact (KF d' x Hin Hx).
Qed.


Lemma id_map_ok_empty : id_map_ok [] empty_graph.
Proof. split; intros; discriminate. Qed.

Lemma kappa_head (kmer_size : nat) (ds : list PlainBCalm2NodeData) (store : SequenceStore)
    (j : nat) (d : PlainBCalm2NodeData) :
  nth_error ds j = Some d -> kappa kmer_size ds store (j * 2) = head_kmer kmer_size store d.
Proof. intros Hj. unfold kappa. rewrite div_double, even_double, Hj. reflexivity. Qed.

Lemma kappa_tail (kmer_size : nat) (ds : list PlainBCalm2NodeData) (store : SequenceStore)
    (j : nat) (d : PlainBCalm2NodeData) :
  nth_error ds j = Some d -> kappa kmer_size ds store (j * 2 + 1) = tail_kmer kmer_size store d.
Proof. intros Hj. unfold kappa. rewrite div_double_1, even_double_1, Hj. reflexivity. Qed.

Lemma edge_data_pairs (f : PlainBCalm2NodeData -> nat * nat * nat * nat * PlainBCalm2NodeData)
    (l : list PlainBCalm2NodeData) :
  (forall d, exists a a' b b', f d = (a, a', b, b', d)) ->
  map edge_data (flat_map edge_pair (map f l)) = flat_map (fun d => [d; mirror_data d]) l.
Proof.
  intros Hf. induction l as [|d l IH]; [reflexivity|].
  simpl. destruct (Hf d) as (a & a' & b & b' & ->). simpl. rewrite IH. reflexivity.
Qed.

Lemma mirror_edge_none (g : Graph) (e : nat) :
  edge_count g <= e -> mirror_edge_edge_centric g e = None.
Proof.
  intros H. unfold mirror_edge_edge_centric. apply nth_error_None in H. rewrite H. reflexivity.
Qed.

(** Two pair graphs over lists of the same length have the same
    [mirror_edge_edge_centric]. *)
Lemma pair_graph_mirror_eq (g1 g2 : Graph)
    (q1 q2 : list (nat * nat * nat * nat * PlainBCalm2NodeData)) (base : nat) :
  graph_edges g1 = flat_map edge_pair q1 -> graph_edges g2 = flat_map edge_pair q2 ->
  List.length q1 = List.length q2 ->
  (forall i a a' b b' d, nth_error q1 i = Some (a, a', b, b', d) ->
     mirror_node g1 a = Some a' /\ mirror_node g1 a' = Some a /\
     mirror_node g1 b = Some b' /\ mirror_node g1 b' = Some b /\
     sequence_handle d = base + i /\ forwards d = true) ->
  (forall i a a' b b' d, nth_error q2 i = Some (a, a', b, b', d) ->
     mirror_node g2 a = Some a' /\ mirror_node g2 a' = Some a /\
     mirror_node g2 b = Some b' /\ mirror_node g2 b' = Some b /\
     sequence_handle d = base + i /\ forwards d = true) ->
  forall e, mirror_edge_edge_centric g1 e = mirror_edge_edge_centric g2 e.
Proof.
  intros E1 E2 Hl H1 H2 e.
  assert (Hc : edge_count g1 = edge_count g2).
  { unfold edge_count. rewrite E1, E2, !length_flat_map_pair, Hl. reflexivity. }
  destruct (Nat.lt_ge_cases e (edge_count g1)) as [He|He].
  - destruct (pair_graph_mirror_edges g1 q1 base E1 H1 e He)
      as (f1 & _ & _ & M1 & i1 & D1).
    destruct (pair_graph_mirror_edges g2 q2 base E2 H2 e ltac:(lia))
      as (f2 & _ & _ & M2 & i2 & D2).
    rewrite M1, M2. f_equal. destruct D1 as [[-> ->]|[-> ->]], D2 as [[? ->]|[? ->]]; lia.
  - rewrite !mirror_edge_none by lia. reflexivity.
Qed.

Lemma id_map_node_inj (idm : list (Genome * nat)) (g : Graph) (x y : Genome) :
  id_map_ok idm g -> id_map_get idm x <> None -> id_map_get idm y <> None ->
  (id_map_node idm x = id_map_node idm y <-> x = y).
Proof.
  intros [_ Hinj] Hx Hy. unfold id_map_node. split; [|intros ->; reflexivity].
  destruct (id_map_get idm x) as [n|] eqn:Ex; [|congruence].
  destruct (id_map_get idm y) as [m|] eqn:Ey; [|congruence].
  intros ->. exact (Hinj x y m Ex Ey).
Qed.

Lemma id_map_node_mirror (idm : list (Genome * nat)) (g : Graph) (x : Genome) :
  id_map_ok idm g -> id_map_get idm x <> None ->
  mirror_node g (id_map_node idm x) = Some (id_map_node idm (reverse_complement x)) /\
  mirror_node g (id_map_node idm (reverse_complement x)) = Some (id_map_node idm x).
Proof.
  intros [Hcl _] Hx. unfold id_map_node.
  destruct (id_map_get idm x) as [n|] eqn:Ex; [|congruence].
  destruct (Hcl x n Ex) as (_ & n' & Hn' & Hm). rewrite Hn'. split; [exact Hm|].
  destruct (Hcl _ n' Hn') as (_ & n'' & Hn'' & Hm'). rewrite rc_involutive, Ex in Hn''.
  injection Hn'' as <-. exact Hm'.
Qed.


(** C1 (corrected): on an input whose records have the ids [0 .. N-1] in
    order and whose declared links are exactly the (k-1)-overlaps (a link
    leaves the [+] side with the (k-1)-suffix and the [-] side with the
    reverse complement of the (k-1)-prefix, and enters the [+] side of a
    record with its (k-1)-prefix and the [-] side with the reverse
    complement of its (k-1)-suffix), whenever the old content-keyed reader
    succeeds, reading with the new edge-centric reader and writing gives
    the same text as reading with the old reader and writing. *)
Theorem readers_agree_on_overlap_inputs (records : list FastaRecord) (store : SequenceStore)
    (kmer_size : nat) (ds : list PlainBCalm2NodeData) (store' : SequenceStore)
    (g2 : Graph) (s2 : SequenceStore) :
  parse_records records store = Ok (ds, store') ->
  overlap_adjacency kmer_size ds store' ->
  read_bigraph_from_bcalm2_as_edge_centric_old records store kmer_size = Ok (g2, s2) ->
  read_then_write read_bigraph_from_bcalm2_as_edge_centric records store kmer_size
  = read_then_write read_bigraph_from_bcalm2_as_edge_centric_old records store kmer_size.
Proof.
  intros Hp Hov Hold.
  unfold read_then_write. rewrite Hold, bind_ok. cbn beta iota.
  unfold read_bigraph_from_bcalm2_as_edge_centric_old in Hold.
  destruct (kmer_size =? 0) eqn:Hk0; [discriminate|]. apply Nat.eqb_neq in Hk0.
  rewrite bind_ok in Hold. cbn beta iota zeta in Hold.
  apply bind_inv in Hold. destruct Hold as ([gO sO] & Hloop & Hver). cbn beta iota in Hver.
  destruct (verify_node_pairing gO && verify_edge_mirror_property gO); [|discriminate].
  injection Hver as <- <-.
  destruct (old_loop_spec _ _ _ _ _ _ _ Hloop id_map_ok_empty)
    as (ds' & idmF & Hp' & OkF & _ & _ & EdO & KF).
  rewrite Hp in Hp'. injection Hp' as <- <-. simpl in EdO.
  destruct (new_reader_consistent kmer_size ds store' Hov records store Hp Hk0)
    as (nm & gN & lab & Hnl & C & Hmap & EdN).
  unfold read_bigraph_from_bcalm2_as_edge_centric. rewrite Hnl, bind_ok. cbn beta iota.
  rewrite bind_ok. cbn beta iota.
  destruct (parse_records_data _ _ _ _ Hp) as [_ Hdata].
  assert (HdM : forall j d, nth_error ds j = Some d -> id d = j /\ j * 2 + 1 < List.length ds * 2).
  { intros j d Hj. split; [exact (proj1 (Hov j d Hj))|].
    assert (j < List.length ds) by (apply nth_error_Some; congruence). lia. }
  assert (Hkey : forall s b, s < List.length ds * 2 ->
            id_map_get idmF (end_kmer (kappa kmer_size ds store') s b) <> None).
  { intros s b Hs. destruct (slot_cases s) as (j & Hj).
    destruct (nth_error ds j) as [d|] eqn:Ed; [|apply nth_error_None in Ed; lia].
    assert (Hin : In d ds) by (eapply nth_error_In; exact Ed).
    unfold end_kmer. destruct Hj as [-> | ->].
    - rewrite (kappa_head _ _ _ _ _ Ed).
      destruct (KF d (head_kmer kmer_size store' d) Hin (or_introl eq_refl)) as [K1 K2].
      destruct b; assumption.
    - rewrite (kappa_tail _ _ _ _ _ Ed).
      destruct (KF d (tail_kmer kmer_size store' d) Hin (or_intror eq_refl)) as [K1 K2].
      destruct b; assumption. }
  apply write_equivalent.
  - rewrite EdN, EdO, !edge_data_pairs; [reflexivity| |];
      intros d; eexists _, _, _, _; reflexivity.
  - apply (pair_graph_mirror_eq gN gO _ _ (List.length store) EdN EdO).
    + rewrite !length_map. reflexivity.
    + intros i a a' b b' d Hi. rewrite nth_error_map in Hi.
      destruct (nth_error ds i) as [d0|] eqn:Ed; [|discriminate]. injection Hi.
      unfold record_endpoints. intros <- <- <- <- <-.
      destruct (HdM i d0 Ed) as [Hid Hi2]. rewrite Hid.
      destruct C as (_ & Creg & _).
      destruct (registered_endpoints gN _ (Creg (i * 2)) (Hmap (i * 2) ltac:(lia))) as [M1 M2].
      destruct (registered_endpoints gN _ (Creg (i * 2 + 1)) (Hmap _ Hi2)) as [M3 M4].
      destruct (Hdata i d0 Ed) as [Hh Hf]. repeat split; assumption.
    + intros i a a' b b' d Hi. rewrite nth_error_map in Hi.
      destruct (nth_error ds i) as [d0|] eqn:Ed; [|discriminate]. injection Hi.
      unfold old_record_endpoints. intros <- <- <- <- <-.
      assert (Hin : In d0 ds) by (eapply nth_error_In; exact Ed).
      destruct (KF d0 _ Hin (or_introl eq_refl)) as [K1 _].
      destruct (KF d0 _ Hin (or_intror eq_refl)) as [K3 _].
      destruct (id_map_node_mirror _ _ _ OkF K1) as [M1 M2].
      destruct (id_map_node_mirror _ _ _ OkF K3) as [M3 M4].
      destruct (Hdata i d0 Ed) as [Hh Hf]. repeat split; assumption.
  - intros e f x1 x2 y1 y2 Hx1 Hx2 Hy1 Hy2.
    rewrite EdN in Hx1, Hy1. rewrite EdO in Hx2, Hy2.
    assert (HeM : e < List.length ds * 2).
    { rewrite <- (length_map (record_endpoints nm) ds), <- length_flat_map_pair.
      apply nth_error_Some. congruence. }
    assert (HfM : f < List.length ds * 2).
    { rewrite <- (length_map (record_endpoints nm) ds), <- length_flat_map_pair.
      apply nth_error_Some. congruence. }
    assert (HpM : (if Nat.even e then S e else pred e) < List.length ds * 2).
    { destruct (slot_cases e) as (j & [-> | ->]).
      - rewrite even_double. lia.
      - rewrite even_double_1. lia. }
    pose proof (fun q => pair_endpoints q (fun s b => endpoint (slot nm s) b)) as PN.
    pose proof (fun q => pair_endpoints q
                  (fun s b => id_map_node idmF (end_kmer (kappa kmer_size ds store') s b))) as PO.
    assert (HN : forall j a a' b b' d,
      nth_error (map (record_endpoints nm) ds) j = Some (a, a', b, b', d) ->
      a = endpoint (slot nm (j * 2)) true /\ a' = endpoint (slot nm (j * 2)) false /\
      b = endpoint (slot nm (j * 2 + 1)) true /\ b' = endpoint (slot nm (j * 2 + 1)) false).
    { intros j a a' b b' d Hj. rewrite nth_error_map in Hj.
      destruct (nth_error ds j) as [d0|] eqn:Ed; [|discriminate]. injection Hj.
      unfold record_endpoints. intros <- <- <- <- <-.
      rewrite (proj1 (HdM j d0 Ed)). auto. }
    destruct (PN _ HN _ _ Hx1) as [_ T1].
    destruct (PN _ HN _ _ Hy1) as [F1 _].
    assert (HO : forall j a a' b b' d,
      nth_error (map (old_record_endpoints (kmer_size - 1) store' idmF) ds) j
      = Some (a, a', b, b', d) ->
      a = id_map_node idmF (end_kmer (kappa kmer_size ds store') (j * 2) true) /\
      a' = id_map_node idmF (end_kmer (kappa kmer_size ds store') (j * 2) false) /\
      b = id_map_node idmF (end_kmer (kappa kmer_size ds store') (j * 2 + 1) true) /\
      b' = id_map_node idmF (end_kmer (kappa kmer_size ds store') (j * 2 + 1) false)).
    { intros j a a' b b' d Hj. rewrite nth_error_map in Hj.
      destruct (nth_error ds j) as [d0|] eqn:Ed; [|discriminate]. injection Hj.
      unfold old_record_endpoints. intros <- <- <- <- <-. unfold end_kmer.
      rewrite (kappa_head _ _ _ _ _ Ed), (kappa_tail _ _ _ _ _ Ed). auto. }
    destruct (PO _ HO _ _ Hx2) as [_ T2].
    destruct (PO _ HO _ _ Hy2) as [F2 _].
    cbn beta in T1, F1, T2, F2. rewrite T1, F1, T2, F2.
    rewrite (id_map_node_inj _ _ _ _ OkF (Hkey _ _ HpM) (Hkey _ _ HfM)).
    pose proof (endpoint_labels (kappa kmer_size ds store') (List.length ds * 2) nm gN lab
                  (if Nat.even e then S e else pred e) f C (Hmap _ HpM) (Hmap _ HfM) HpM HfM)
      as HL.
    rewrite (proj1 (even_partner e)), Bool.negb_involutive in HL. exact HL.
Qed.


Lemma option_genome_eqb_eq (x y : option Genome) : option_genome_eqb x y = true <-> x = y.
Proof.
  destruct x as [a|], y as [b|]; simpl; try (split; congruence).
  rewrite genome_eqb_eq. split; [intros ->|intros [= ->]]; reflexivity.
Qed.

Lemma in_candidate_edges (n : nat) (e : PlainBCalm2Edge) :
  to_node e < n -> In e (candidate_edges n).
Proof.
  destruct e as [fs tn ts]. simpl. intros H. unfold candidate_edges.
  apply in_flat_map. exists fs. split; [destruct fs; simpl; auto|].
  apply in_flat_map. exists tn. split; [apply in_seq; lia|].
  destruct ts; simpl; auto.
Qed.

Lemma overlap_adjacency_b_sound (kmer_size : nat) (ds : list PlainBCalm2NodeData)
    (store : SequenceStore) :
  overlap_adjacency_b kmer_size ds store = true -> overlap_adjacency kmer_size ds store.
Proof.
  intros H i d Hi. unfold overlap_adjacency_b in H. rewrite forallb_forall in H.
  specialize (H (i, d) (proj2 (in_indexed ds 0 i d) (ex_intro _ i (conj eq_refl Hi)))).
  simpl in H. apply andb_prop in H as [H H3]. apply andb_prop in H as [H1 H2].
  apply Nat.eqb_eq in H1. split; [exact H1|].
  rewrite forallb_forall in H2, H3. intros e.
  destruct (Nat.lt_ge_cases (to_node e) (List.length ds)) as [Hlt|Hge].
  - specialize (H3 e (in_candidate_edges _ e Hlt)).
    apply Bool.eqb_prop in H3.
    rewrite <- existsb_edge_eqb, <- option_genome_eqb_eq, H3. reflexivity.
  - unfold entering_kmer. rewrite (proj2 (nth_error_None ds (to_node e)) Hge).
    split; [|discriminate]. intros Hin. specialize (H2 e Hin). apply Nat.ltb_lt in H2. lia.
Qed.


(* ------------------------------------------------------------------ *)
(** ** The order of the neighbour tuples and [sort_tuples] *)

Lemma tuple_leb_spec (a1 a2 c1 c2 : bool) (b1 b2 : nat) :
  tuple_leb (a1, b1, c1) (a2, b2, c2) = true <->
  (a1 = false /\ a2 = true) \/
  (a1 = a2 /\ (b1 < b2 \/ (b1 = b2 /\ (c1 = false \/ c2 = true)))).
Proof.
  unfold tuple_leb. destruct (Nat.eqb_spec b1 b2) as [->|Hne];
    destruct a1, a2, c1, c2; simpl; rewrite ?Nat.ltb_lt;
    split; intuition (try lia; try discriminate).
Qed.

Lemma tuple_leb_total (x y : bool * nat * bool) :
  tuple_leb x y = false -> tuple_leb y x = true.
Proof.
  destruct x as [[a1 b1] c1], y as [[a2 b2] c2]. intros H.
  apply tuple_leb_spec. destruct (tuple_leb_spec a1 a2 c1 c2 b1 b2) as [_ H2].
  destruct a1, a2, c1, c2; try (left; split; reflexivity);
    destruct (Nat.lt_trichotomy b1 b2) as [Hl|[->|Hl]];
    try (exfalso; rewrite H2 in H; [discriminate|]; intuition lia);
    right; intuition lia.
Qed.

Lemma tuple_leb_trans (x y z : bool * nat * bool) :
  tuple_leb x y = true -> tuple_leb y z = true -> tuple_leb x z = true.
Proof.
  destruct x as [[a1 b1] c1], y as [[a2 b2] c2], z as [[a3 b3] c3].
  rewrite !tuple_leb_spec.
  destruct a1, a2, a3, c1, c2, c3; intuition (try lia; try discriminate).
Qed.

Lemma tuple_leb_antisym (x y : bool * nat * bool) :
  tuple_leb x y = true -> tuple_leb y x = true -> x = y.
Proof.
  destruct x as [[a1 b1] c1], y as [[a2 b2] c2]. rewrite !tuple_leb_spec.
  destruct a1, a2, c1, c2; intuition (try lia; try discriminate; try (f_equal; f_equal; lia)).
Qed.

Lemma tuple_leb_refl (x : bool * nat * bool) : tuple_leb x x = true.
Proof.
  destruct x as [[a b] c]. apply tuple_leb_spec. destruct a, c; intuition.
Qed.

Lemma tuple_ltb_trans (x y z : bool * nat * bool) :
  tuple_ltb x y = true -> tuple_ltb y z = true -> tuple_ltb x z = true.
Proof.
  unfold tuple_ltb. rewrite !andb_true_iff, !negb_true_iff. intros [H1 H2] [H3 H4].
  split; [exact (tuple_leb_trans _ _ _ H1 H3)|].
  destruct (tuple_leb z x) eqn:E; [|reflexivity].
  rewrite (tuple_leb_trans _ _ _ H3 E) in H2. discriminate.
Qed.

Local Abbreviation tle := (fun x y : bool * nat * bool => tuple_leb x y = true).

Lemma insert_sorted_perm (x : bool * nat * bool) (l : list (bool * nat * bool)) :
  Permutation (insert_sorted x l) (x :: l).
Proof.
  induction l as [|y l IH]; simpl; [reflexivity|].
  destruct (tuple_leb x y); [reflexivity|].
  rewrite IH. apply perm_swap.
Qed.

Lemma sort_tuples_perm (l : list (bool * nat * bool)) : Permutation (sort_tuples l) l.
Proof.
  induction l as [|x l IH]; simpl; [reflexivity|].
  rewrite insert_sorted_perm, IH. reflexivity.
Qed.

Lemma insert_sorted_sorted (x : bool * nat * bool) (l : list (bool * nat * bool)) :
  Sorted tle l -> Sorted tle (insert_sorted x l).
Proof.
  induction 1 as [|y l Hs IH Hhd]; simpl; [repeat constructor|].
  destruct (tuple_leb x y) eqn:E.
  - constructor; [constructor; assumption|constructor; exact E].
  - constructor; [exact IH|].
    apply tuple_leb_total in E.
    destruct l as [|z l]; simpl; [constructor; exact E|].
    inversion Hhd; subst.
    destruct (tuple_leb x z); constructor; assumption.
Qed.

Lemma sort_tuples_sorted (l : list (bool * nat * bool)) : Sorted tle (sort_tuples l).
Proof.
  induction l as [|x l IH]; simpl; [constructor|]. apply insert_sorted_sorted. exact IH.
Qed.

Lemma strictly_sorted_spec (l : list (bool * nat * bool)) :
  strictly_sorted l = true -> StronglySorted tle l /\ NoDup l.
Proof.
  intros H.
  assert (Hs : Sorted (fun x y => tuple_ltb x y = true) l).
  { induction l as [|x [|y l] IH]; [constructor|repeat constructor|].
    simpl in H. apply andb_prop in H as [H1 H2].
    constructor; [apply IH; exact H2|constructor; exact H1]. }
  apply Sorted_StronglySorted in Hs; [|intros x y z; apply tuple_ltb_trans].
  split.
  - induction Hs as [|x l Hs IH Hall]; constructor; [apply IH|].
    + destruct l as [|y l]; [reflexivity|]. simpl in H |- *. apply andb_prop in H as [_ H].
      exact H.
    + eapply Forall_impl; [|exact Hall]. intros y Hy. unfold tuple_ltb in Hy.
      apply andb_prop in Hy as [Hy _]. exact Hy.
  - clear H. induction Hs as [|x l Hs IH Hall]; constructor; [|exact IH].
    intros Hin. rewrite Forall_forall in Hall. specialize (Hall x Hin).
    unfold tuple_ltb in Hall. rewrite tuple_leb_refl in Hall. discriminate.
Qed.

Lemma sorted_unique (l1 l2 : list (bool * nat * bool)) :
  StronglySorted tle l1 -> StronglySorted tle l2 -> NoDup l1 -> NoDup l2 ->
  (forall x, In x l1 <-> In x l2) -> l1 = l2.
Proof.
  revert l2. induction l1 as [|x l1 IH]; intros [|y l2] S1 S2 N1 N2 E.
  - reflexivity.
  - exfalso. apply (proj2 (E y)). left. reflexivity.
  - exfalso. apply (proj1 (E x)). left. reflexivity.
  - apply StronglySorted_inv in S1 as [S1 A1]. apply StronglySorted_inv in S2 as [S2 A2].
    rewrite Forall_forall in A1, A2.
    apply NoDup_cons_iff in N1 as [X1 N1]. apply NoDup_cons_iff in N2 as [X2 N2].
    assert (Hxy : x = y).
    { destruct (proj1 (E x) (or_introl eq_refl)) as [->|Hx]; [reflexivity|].
      destruct (proj2 (E y) (or_introl eq_refl)) as [<-|Hy]; [reflexivity|].
      exact (tuple_leb_antisym _ _ (A1 _ Hy) (A2 _ Hx)). }
    subst y. f_equal. apply IH; try assumption.
    intros z. split; intros Hz.
    + destruct (proj1 (E z) (or_intror Hz)) as [<-|H]; [contradiction|exact H].
    + destruct (proj2 (E z) (or_intror Hz)) as [<-|H]; [contradiction|exact H].
Qed.

(** [sort_tuples] of a list without repetitions is the strictly sorted
    list of its elements. *)
Lemma sort_tuples_unique (l s : list (bool * nat * bool)) :
  NoDup l -> strictly_sorted s = true -> (forall t, In t l <-> In t s) -> sort_tuples l = s.
Proof.
  intros Hl Hs E. destruct (strictly_sorted_spec s Hs) as [Ss Ns].
  apply sorted_unique; [| exact Ss | | exact Ns |].
  - apply Sorted_StronglySorted; [intros x y z; apply tuple_leb_trans|].
    apply sort_tuples_sorted.
  - apply (Permutation_NoDup (Permutation_sym (sort_tuples_perm l))). exact Hl.
  - intros t. rewrite <- E. split; apply Permutation_in;
      [apply sort_tuples_perm|apply Permutation_sym, sort_tuples_perm].
Qed.


Lemma string_app_assoc (s1 s2 s3 : string) :
  (s1 ++ (s2 ++ s3) = (s1 ++ s2) ++ s3)%string.
Proof. induction s1 as [|c s1 IH]; simpl; [reflexivity|]. rewrite IH. reflexivity. Qed.

Lemma nodup_map_injective {A B : Type} (f : A -> B) (l : list A) :
  (forall x y, f x = f y -> x = y) -> NoDup l -> NoDup (map f l).
Proof.
  intros Hf. induction 1 as [|x l Hx Hl IH]; simpl; constructor; [|exact IH].
  intros Hin. apply in_map_iff in Hin as (y & Hy & Hin). apply Hf in Hy. subst. contradiction.
Qed.

Lemma indexed_fst_nodup {A : Type} (p : nat * A -> bool) (l : list A) :
  forall s, NoDup (map fst (filter p (indexed s l))).
Proof.
  induction l as [|a l IH]; intros s; simpl; [constructor|].
  destruct (p (s, a)); simpl; [constructor|apply IH].
  - intros Hin. apply in_map_iff in Hin as ([i x] & Hi & Hin). simpl in Hi. subst i.
    apply filter_In in Hin as [Hin _]. apply in_indexed in Hin as (j & Hj & _). lia.
  - apply IH.
Qed.

Lemma out_edges_nodup (g : Graph) (n : nat) : NoDup (out_edges g n).
Proof. unfold out_edges. apply NoDup_rev. apply indexed_fst_nodup. Qed.

Lemma forall2_nth_error {A B : Type} (P : A -> B -> Prop) (l1 : list A) (l2 : list B) :
  Forall2 P l1 l2 -> forall j a, nth_error l1 j = Some a ->
  exists b, nth_error l2 j = Some b /\ P a b.
Proof.
  induction 1 as [|x y l1 l2 Hxy Hl IH]; intros [|j] a Hj; simpl in Hj; try discriminate.
  - injection Hj as <-. exists y. auto.
  - apply IH. exact Hj.
Qed.

Lemma skipn_nth_error_cons {A : Type} (l : list A) (j : nat) (a : A) :
  nth_error l j = Some a -> skipn j l = a :: skipn (S j) l.
Proof.
  revert j. induction l as [|x l IH]; intros [|j] Hj; simpl in Hj; try discriminate.
  - injection Hj as ->. reflexivity.
  - simpl. apply IH. exact Hj.
Qed.

(* ------------------------------------------------------------------ *)
(** ** Writing the graph the new reader builds on an overlap input *)

Section RoundTrip.

Variable kmer_size : nat.
Variable ds : list PlainBCalm2NodeData.
Variable store : SequenceStore.
Variable nm : list MappedNode.
Variable g : Graph.
Variable lab : nat -> Genome.
Variable base : nat.
Hypothesis Hov : overlap_adjacency kmer_size ds store.
Hypothesis Hcons : consistent_state (kappa kmer_size ds store) (List.length ds * 2) nm g lab.
Hypothesis Hmap : forall s, s < List.length ds * 2 -> slot nm s <> Unmapped.
Hypothesis Hed : graph_edges g = flat_map edge_pair (map (record_endpoints nm) ds).
Hypothesis Hdata : forall j d, nth_error ds j = Some d ->
  sequence_handle d = base + j /\ forwards d = true.

Local Abbreviation N := (List.length ds).
Local Abbreviation kap := (kappa kmer_size ds store).
Local Abbreviation ov := (map Nat.even (seq 0 (List.length ds * 2))).

Lemma rt_lt (j : nat) (d : PlainBCalm2NodeData) : nth_error ds j = Some d -> j < N.
Proof. intros H. apply nth_error_Some. congruence. Qed.

Lemma rt_id (j : nat) (d : PlainBCalm2NodeData) : nth_error ds j = Some d -> id d = j.
Proof. intros H. exact (proj1 (Hov j d H)). Qed.

Lemma rt_count : edge_count g = N * 2.
Proof. unfold edge_count. rewrite Hed, length_flat_map_pair, length_map. reflexivity. Qed.

Lemma rt_edges (j : nat) (d : PlainBCalm2NodeData) : nth_error ds j = Some d ->
  nth_error (graph_edges g) (j * 2)
  = Some (endpoint (slot nm (j * 2)) true, endpoint (slot nm (j * 2 + 1)) true, d) /\
  nth_error (graph_edges g) (j * 2 + 1)
  = Some (endpoint (slot nm (j * 2 + 1)) false, endpoint (slot nm (j * 2)) false,
          mirror_data d).
Proof.
  intros Hj. rewrite Hed. apply nth_error_flat_map_pair.
  rewrite nth_error_map, Hj. simpl. unfold record_endpoints. rewrite (rt_id j d Hj).
  reflexivity.
Qed.

Lemma rt_registered : forall i a a' b b' d,
  nth_error (map (record_endpoints nm) ds) i = Some (a, a', b, b', d) ->
  mirror_node g a = Some a' /\ mirror_node g a' = Some a /\
  mirror_node g b = Some b' /\ mirror_node g b' = Some b /\
  sequence_handle d = base + i /\ forwards d = true.
Proof.
  intros i a a' b b' d Hi. rewrite nth_error_map in Hi.
  destruct (nth_error ds i) as [d0|] eqn:Ed; [|discriminate]. injection Hi.
  unfold record_endpoints. intros <- <- <- <- <-.
  rewrite (rt_id i d0 Ed). pose proof (rt_lt i d0 Ed).
  destruct Hcons as (_ & Creg & _).
  destruct (registered_endpoints g _ (Creg (i * 2)) (Hmap (i * 2) ltac:(lia))) as [M1 M2].
  destruct (registered_endpoints g _ (Creg (i * 2 + 1)) (Hmap (i * 2 + 1) ltac:(lia)))
    as [M3 M4].
  destruct (Hdata i d0 Ed) as [Hh Hf]. repeat split; assumption.
Qed.

Lemma rt_partner (e : nat) : e < N * 2 ->
  mirror_edge_edge_centric g e = Some (if Nat.even e then S e else pred e).
Proof.
  intros He. rewrite <- rt_count in He.
  destruct (pair_graph_mirror_edges g _ base Hed rt_registered e He)
    as (f & _ & _ & Hm & i & [[-> ->]|[-> ->]]); rewrite Hm.
  - rewrite even_double. f_equal. lia.
  - rewrite even_double_1. f_equal. lia.
Qed.

Lemma rt_ov (e : nat) : e < N * 2 -> nth_error ov e = Some (Nat.even e).
Proof.
  intros He. rewrite nth_error_map, nth_error_seq.
  destruct (Nat.ltb_spec e (N * 2)); [reflexivity|lia].
Qed.


Lemma rt_mark_from (len : nat) : forall k, k + len = N * 2 ->
  mark_output_edges g (seq k len) (map Nat.even (seq 0 k) ++ repeat false len) = Ok ov.
Proof.
  induction len as [|len IH]; intros k Hk.
  - simpl. rewrite app_nil_r. replace k with (N * 2) by lia. reflexivity.
  - cbn [seq mark_output_edges]. rewrite (rt_partner k) by lia. unfold ok_or. rewrite bind_ok.
    destruct (slot_cases k) as (j & [-> | ->]).
    + rewrite even_double.
      destruct len as [|len]; [exfalso; lia|].
      unfold vget. rewrite nth_error_app2 by (rewrite length_map, length_seq; lia).
      rewrite length_map, length_seq. replace (S (j * 2) - j * 2) with 1 by lia.
      simpl nth_error. cbv iota. rewrite bind_ok. cbn [negb].
      change (repeat false (S (S len))) with (false :: repeat false (S len)).
      unfold vset. rewrite length_app, length_map, length_seq.
      rewrite (proj2 (Nat.ltb_lt _ _)) by (simpl; lia). rewrite bind_ok.
      pose proof (update_at_length (map Nat.even (seq 0 (j * 2))) (repeat false (S len))
                    false true) as U.
      rewrite length_map, length_seq in U. rewrite U.
      replace (map Nat.even (seq 0 (j * 2)) ++ true :: repeat false (S len))
        with (map Nat.even (seq 0 (S (j * 2))) ++ repeat false (S len)).
      * apply IH. lia.
      * rewrite seq_S, map_app, <- app_assoc. simpl. rewrite even_double. reflexivity.
    + rewrite even_double_1. replace (pred (j * 2 + 1)) with (j * 2) by lia.
      unfold vget. rewrite nth_error_app1 by (rewrite length_map, length_seq; lia).
      rewrite nth_error_map, nth_error_seq.
      rewrite (proj2 (Nat.ltb_lt _ _)) by lia. cbv iota beta delta [option_map].
      rewrite Nat.add_0_l, bind_ok.
      rewrite even_double. cbn [negb]. rewrite bind_ok.
      replace (map Nat.even (seq 0 (j * 2 + 1)) ++ repeat false (S len))
        with (map Nat.even (seq 0 (S (j * 2 + 1))) ++ repeat false len).
      * apply IH. lia.
      * rewrite seq_S, map_app, <- app_assoc. simpl. rewrite even_double_1. reflexivity.
Qed.

(** The first loop of the writer marks the edges of even index: the
    forward edge of each record. *)
Lemma rt_mark :
  mark_output_edges g (seq 0 (N * 2)) (repeat false (N * 2)) = Ok ov.
Proof. apply (rt_mark_from (N * 2) 0). lia. Qed.


Lemma rt_record (e : nat) : e < N * 2 -> exists d, nth_error ds (e / 2) = Some d.
Proof.
  intros He. destruct (nth_error ds (e / 2)) as [d|] eqn:E; [eauto|].
  apply nth_error_None in E. pose proof (Nat.Div0.div_lt_upper_bound e 2 N). lia.
Qed.

(** The tuple of a neighbour edge names its record and its orientation. *)
Lemma rt_neighbor_tuple (side : bool) (ne : nat) : ne < N * 2 ->
  neighbor_tuple g ov side ne = Ok (side, ne / 2, Nat.even ne).
Proof.
  intros He. destruct (rt_record ne He) as (d & Hd).
  unfold neighbor_tuple, vget. rewrite (rt_ov ne He). rewrite bind_ok.
  destruct (slot_cases ne) as (j & [-> | ->]).
  - rewrite even_double. rewrite div_double in Hd |- *.
    unfold graph_edge, vget. rewrite (proj1 (rt_edges j d Hd)). rewrite !bind_ok.
    simpl. rewrite (rt_id j d Hd). reflexivity.
  - rewrite even_double_1. rewrite div_double_1 in Hd |- *.
    rewrite (rt_partner (j * 2 + 1) He), even_double_1. unfold ok_or. rewrite bind_ok.
    replace (pred (j * 2 + 1)) with (j * 2) by lia.
    unfold graph_edge, vget. rewrite (proj1 (rt_edges j d Hd)). rewrite !bind_ok.
    simpl. rewrite (rt_id j d Hd). reflexivity.
Qed.

Lemma rt_map_neighbor (side : bool) (l : list nat) :
  (forall ne, In ne l -> ne < N * 2) ->
  map_outcome (neighbor_tuple g ov side) l = Ok (map (fun ne => (side, ne / 2, Nat.even ne)) l).
Proof.
  induction l as [|ne l IH]; intros Hl; [reflexivity|].
  cbn [map_outcome map]. rewrite rt_neighbor_tuple by (apply Hl; left; reflexivity).
  rewrite bind_ok, IH by (intros x Hx; apply Hl; right; exact Hx). rewrite bind_ok.
  reflexivity.
Qed.

Lemma rt_out_edges_lt (n ne : nat) : In ne (out_edges g n) -> ne < N * 2.
Proof.
  intros H. apply in_out_edges in H as (t & d & H).
  rewrite <- rt_count. unfold edge_count. apply nth_error_Some. congruence.
Qed.

(** The second loop writes the records in order, given the text of each. *)
Lemma rt_write_edges_from (store' : SequenceStore) (rs : list FastaRecord) :
  List.length rs = N ->
  (forall j r, nth_error rs j = Some r -> write_edge g store' ov (j * 2) = Ok (record_text r)) ->
  forall len j, j + len = N ->
  write_edges g store' ov (seq (j * 2) (len * 2)) = Ok (records_text (skipn j rs)).
Proof.
  intros Hl Hw. induction len as [|len IH]; intros j Hj.
  - simpl. rewrite skipn_all2 by lia. reflexivity.
  - destruct (nth_error rs j) as [r|] eqn:Er; [|apply nth_error_None in Er; lia].
    rewrite (skipn_nth_error_cons rs j r Er).
    replace (S len * 2) with (S (S (len * 2))) by lia.
    cbn [seq write_edges]. unfold vget.
    rewrite (rt_ov (j * 2)) by lia. rewrite even_double, bind_ok, (Hw j r Er), bind_ok.
    replace (S (j * 2)) with (j * 2 + 1) by lia.
    rewrite (rt_ov (j * 2 + 1)) by lia. rewrite even_double_1, bind_ok, bind_ok.
    replace (S (j * 2 + 1)) with (S j * 2) by lia.
    rewrite (IH (S j)) by lia. rewrite !bind_ok. reflexivity.
Qed.


Lemma rt_from (ne : nat) (x : nat * nat * PlainBCalm2NodeData) :
  nth_error (graph_edges g) ne = Some x -> edge_from x = endpoint (slot nm ne) (Nat.even ne).
Proof.
  intros Hx. assert (He : ne < N * 2).
  { rewrite <- rt_count. unfold edge_count. apply nth_error_Some. congruence. }
  destruct (rt_record ne He) as (d & Hd).
  destruct (slot_cases ne) as (j & [-> | ->]).
  - rewrite div_double in Hd. rewrite (proj1 (rt_edges j d Hd)) in Hx.
    injection Hx as <-. rewrite even_double. reflexivity.
  - rewrite div_double_1 in Hd. rewrite (proj2 (rt_edges j d Hd)) in Hx.
    injection Hx as <-. rewrite even_double_1. reflexivity.
Qed.

Lemma rt_end_kmer (ne : nat) (d : PlainBCalm2NodeData) :
  nth_error ds (ne / 2) = Some d ->
  end_kmer kap ne (Nat.even ne)
  = if Nat.even ne then head_kmer kmer_size store d
    else reverse_complement (tail_kmer kmer_size store d).
Proof.
  intros Hd. unfold end_kmer. destruct (slot_cases ne) as (j & [-> | ->]).
  - rewrite div_double in Hd. rewrite even_double. apply kappa_head. exact Hd.
  - rewrite div_double_1 in Hd. rewrite even_double_1, (kappa_tail _ _ _ _ _ Hd).
    reflexivity.
Qed.

(** The tuples written for one side of record [j] are the tuples of the
    links declared on that side. *)
Lemma rt_out_tuples (j : nat) (d : PlainBCalm2NodeData) (side : bool) (t : bool * nat * bool) :
  nth_error ds j = Some d ->
  In t (map (fun ne => (side, ne / 2, Nat.even ne))
          (out_edges g (endpoint (slot nm (j * 2 + (if side then 1 else 0))) side)))
  <-> In t (filter (fun t => Bool.eqb (fst (fst t)) side) (map edge_tuple (edges d))).
Proof.
  intros Hj. pose proof (rt_lt j d Hj) as HjN.
  set (s := j * 2 + (if side then 1 else 0)).
  assert (Hs : Nat.even s = negb side /\ s < N * 2).
  { unfold s. destruct side.
    - rewrite even_double_1. split; [reflexivity|lia].
    - rewrite Nat.add_0_r, even_double. split; [reflexivity|lia]. }
  destruct Hs as [Hse HsM].
  assert (Hleave : forall e, from_side e = side ->
            end_kmer kap s (negb (Nat.even s)) = leaving_kmer kmer_size store d e).
  { intros e He. rewrite Hse, Bool.negb_involutive. unfold leaving_kmer, end_kmer. rewrite He.
    unfold s. destruct side.
    - rewrite (kappa_tail _ _ _ _ _ Hj). reflexivity.
    - rewrite Nat.add_0_r, (kappa_head _ _ _ _ _ Hj). reflexivity. }
  rewrite filter_In, !in_map_iff. split.
  - intros (ne & <- & Hin).
    pose proof (rt_out_edges_lt _ _ Hin) as HneM.
    apply in_out_edges in Hin as (t' & d'' & Hx).
    pose proof (rt_from ne _ Hx) as Hfrom. simpl in Hfrom.
    destruct (rt_record ne HneM) as (d' & Hd').
    set (E := {| from_side := side; to_node := ne / 2; to_side := Nat.even ne |}).
    assert (HE : In E (edges d)).
    { apply (proj2 (proj2 (Hov j d Hj) E)). unfold entering_kmer. cbn [E to_node to_side].
      rewrite Hd'.
      f_equal. rewrite <- (Hleave E eq_refl), <- (rt_end_kmer ne d' Hd'). symmetry.
      apply (endpoint_labels kap (N * 2) nm g lab s ne Hcons (Hmap s HsM) (Hmap ne HneM)
               HsM HneM).
      rewrite Hse, Bool.negb_involutive. exact Hfrom. }
    split; [exists E; split; [reflexivity|exact HE]|]. simpl. apply Bool.eqb_reflx.
  - intros ((e & <- & HE) & Hside). simpl in Hside. apply Bool.eqb_prop in Hside.
    pose proof (proj1 (proj2 (Hov j d Hj) e) HE) as Hent.
    unfold entering_kmer in Hent.
    destruct (nth_error ds (to_node e)) as [d'|] eqn:Hd'; [|discriminate].
    injection Hent as Hent.
    set (ne := edge_slot e). destruct (edge_slot_parts e) as [Hne1 Hne2].
    assert (HneM : ne < N * 2).
    { assert (to_node e < N) by (apply nth_error_Some; congruence).
      unfold ne, edge_slot. destruct (to_side e); lia. }
    exists ne. split.
    + fold ne in Hne1, Hne2. rewrite Hne1, Hne2. unfold edge_tuple. rewrite Hside.
      reflexivity.
    + destruct (nth_error (graph_edges g) ne) as [[[a b] x]|] eqn:Hx;
        [|apply nth_error_None in Hx; rewrite <- rt_count in HneM; unfold edge_count in HneM;
          lia].
      apply in_out_edges. exists b, x. rewrite Hx. f_equal. f_equal. f_equal.
      pose proof (rt_from ne _ Hx) as Hfrom. simpl in Hfrom. rewrite Hfrom.
      fold ne in Hne1, Hne2. rewrite <- Hne1 in Hd'.
      symmetry.
      replace side with (negb (Nat.even s)) at 1 by (rewrite Hse; apply Bool.negb_involutive).
      apply (endpoint_labels kap (N * 2) nm g lab s ne Hcons (Hmap s HsM) (Hmap ne HneM)
               HsM HneM).
      rewrite (Hleave e Hside), (rt_end_kmer ne d' Hd'), Hne2. symmetry. exact Hent.
Qed.


Lemma rt_half_inj (a b : nat) : a / 2 = b / 2 -> Nat.even a = Nat.even b -> a = b.
Proof.
  destruct (slot_cases a) as (i & [-> | ->]), (slot_cases b) as (k & [-> | ->]);
    rewrite ?div_double, ?div_double_1, ?even_double, ?even_double_1; intros H1 H2;
    try discriminate; lia.
Qed.

(** The tuples of one side, sorted, are the declared links of that side. *)
Lemma rt_sorted_side (j : nat) (d : PlainBCalm2NodeData) (side : bool) :
  nth_error ds j = Some d ->
  strictly_sorted (filter (fun t => Bool.eqb (fst (fst t)) side) (map edge_tuple (edges d)))
  = true ->
  sort_tuples (map (fun ne => (side, ne / 2, Nat.even ne))
                 (out_edges g (endpoint (slot nm (j * 2 + (if side then 1 else 0))) side)))
  = filter (fun t => Bool.eqb (fst (fst t)) side) (map edge_tuple (edges d)).
Proof.
  intros Hj Hs. apply sort_tuples_unique; [| exact Hs | intros t; exact (rt_out_tuples j d side t Hj)].
  apply nodup_map_injective; [|apply out_edges_nodup].
  intros a b Hab. injection Hab as H1 H2. apply rt_half_inj; assumption.
Qed.

(** The record written for the forward edge of record [j] is the text of
    the record, when the record is in the writer's form. *)
Lemma rt_write_edge (j : nat) (r : FastaRecord) (d : PlainBCalm2NodeData) :
  nth_error ds j = Some d -> canonical_record store r d ->
  write_edge g store ov (j * 2) = Ok (record_text r).
Proof.
  intros Hj (Hrid & (desc & Hrdesc & Hdesc) & (Hsplit & Hplus & Hminus) & Hrseq).
  pose proof (rt_lt j d Hj) as HjN.
  unfold write_edge, graph_edge, vget. rewrite (proj1 (rt_edges j d Hj)), bind_ok.
  rewrite (rt_partner (j * 2)) by lia. rewrite even_double. unfold ok_or. rewrite bind_ok.
  replace (S (j * 2)) with (j * 2 + 1) by lia.
  rewrite (proj2 (rt_edges j d Hj)), bind_ok. cbn [edge_to edge_data].
  rewrite rt_map_neighbor by apply rt_out_edges_lt. rewrite bind_ok.
  rewrite rt_map_neighbor by apply rt_out_edges_lt. rewrite bind_ok.
  pose proof (rt_sorted_side j d true Hj) as Sp. pose proof (rt_sorted_side j d false Hj) as Sm.
  rewrite Nat.add_0_r in Sm.
  assert (Ep : filter (fun t => Bool.eqb (fst (fst t)) true) (map edge_tuple (edges d))
               = filter (fun t => fst (fst t)) (map edge_tuple (edges d))).
  { apply filter_ext. intros [[a b] c]. destruct a; reflexivity. }
  assert (Em : filter (fun t => Bool.eqb (fst (fst t)) false) (map edge_tuple (edges d))
               = filter (fun t => negb (fst (fst t))) (map edge_tuple (edges d))).
  { apply filter_ext. intros [[a b] c]. destruct a; reflexivity. }
  rewrite Ep in Sp. rewrite Em in Sm. rewrite (Sp Hplus), (Sm Hminus), <- Hsplit, Hdesc, bind_ok.
  unfold sequence_owned. rewrite (proj2 (Hdata j d Hj)).
  unfold record_text. rewrite Hrid, Hrdesc, Hrseq. reflexivity.
Qed.

End RoundTrip.


(** C4 (corrected): on an input whose records have the ids [0 .. N-1] in
    order, whose declared links are exactly the (k-1)-overlaps (hence
    symmetric), and whose every record is written as the writer writes
    it (decimal id; the description the writer produces for the parsed
    fields and links; links of the [+] side first, then of the [-] side,
    each strictly increasing by neighbour id, then [-] before [+];
    upper-case sequence), reading with the new reader and writing
    reproduces the input text exactly. *)
Theorem round_trip_on_canonical_overlap_inputs (records : list FastaRecord)
    (store : SequenceStore) (kmer_size : nat) (ds : list PlainBCalm2NodeData)
    (store' : SequenceStore) :
  0 < kmer_size ->
  parse_records records store = Ok (ds, store') ->
  overlap_adjacency kmer_size ds store' ->
  canonical_records store' records ds ->
  read_then_write read_bigraph_from_bcalm2_as_edge_centric records store kmer_size
  = Ok (records_text records).
Proof.
  intros Hk Hp Hov Hcan.
  destruct (new_reader_consistent kmer_size ds store' Hov records store Hp ltac:(lia))
    as (nm & g & lab & Hnl & C & Hmap & Hed).
  destruct (parse_records_data _ _ _ _ Hp) as [Hlen Hdata].
  unfold read_then_write, read_bigraph_from_bcalm2_as_edge_centric.
  rewrite Hnl, bind_ok. cbn beta iota. rewrite bind_ok. cbn beta iota.
  unfold write_edge_centric_bigraph_to_bcalm2.
  rewrite (rt_count _ _ _ Hed), (rt_mark _ _ _ _ _ _ _ Hov C Hmap Hed Hdata), bind_ok.
  assert (Hw : forall j r, nth_error records j = Some r ->
            write_edge g store' (map Nat.even (seq 0 (List.length ds * 2))) (j * 2)
            = Ok (record_text r)).
  { intros j r Hr. destruct (forall2_nth_error _ _ _ Hcan j r Hr) as (d & Hd & Hc).
    exact (rt_write_edge _ _ _ _ _ _ _ Hov C Hmap Hed Hdata j r d Hd Hc). }
  exact (rt_write_edges_from ds g store' records (eq_sym Hlen) Hw (List.length ds) 0 eq_refl).
Qed.


Lemma digits_value_cons (c : ascii) (s : string) (acc : N) :
  digits_value (String c s) acc =
  if (48 <=? nat_of_ascii c) && (nat_of_ascii c <=? 57)
  then digits_value s (acc * 10 + N.of_nat (nat_of_ascii c - 48))%N else None.
Proof. reflexivity. Qed.

Lemma digits_value_app (s1 s2 : string) (acc : N) :
  digits_value (s1 ++ s2) acc =
  match digits_value s1 acc with Some v => digits_value s2 v | None => None end.
Proof.
  revert acc. induction s1 as [|c s1 IH]; intros acc; [reflexivity|].
  change ((String c s1 ++ s2)%string) with (String c (s1 ++ s2)).
  rewrite !digits_value_cons.
  destruct ((48 <=? nat_of_ascii c) && (nat_of_ascii c <=? 57)); [apply IH|reflexivity].
Qed.

Lemma string_of_list_ascii_app (l1 l2 : list ascii) :
  string_of_list_ascii (l1 ++ l2) = (string_of_list_ascii l1 ++ string_of_list_ascii l2)%string.
Proof. induction l1 as [|c l1 IH]; simpl; [reflexivity|now rewrite IH]. Qed.

Lemma digit_value (d : nat) (acc : N) : d < 10 ->
  digits_value (String (ascii_of_nat (48 + d)) EmptyString) acc = Some (acc * 10 + N.of_nat d)%N.
Proof.
  intros Hd. rewrite digits_value_cons. rewrite nat_ascii_embedding by lia.
  replace ((48 <=? 48 + d) && (48 + d <=? 57)) with true
    by (symmetry; apply andb_true_iff; split; apply Nat.leb_le; lia).
  replace (48 + d - 48) with d by lia. reflexivity.
Qed.

Lemma digits_rev_value (fuel n : nat) : n < fuel ->
  digits_value (string_of_list_ascii (rev (digits_rev fuel n))) 0 = Some (N.of_nat n).
Proof.
  revert n. induction fuel as [|fuel IH]; intros n Hn; [lia|]. cbn [digits_rev].
  destruct (n <? 10) eqn:H10.
  - apply Nat.ltb_lt in H10. cbn [rev app string_of_list_ascii]. rewrite digit_value by (apply Nat.mod_upper_bound; lia).
    rewrite Nat.mod_small by lia. reflexivity.
  - apply Nat.ltb_ge in H10. cbn [rev].
    rewrite string_of_list_ascii_app, digits_value_app, IH.
    + cbn [string_of_list_ascii]. rewrite digit_value by (apply Nat.mod_upper_bound; lia). f_equal.
      pose proof (Nat.div_mod_eq n 10). lia.
    + apply Nat.Div0.div_lt_upper_bound; lia.
Qed.

Lemma digits_rev_head (fuel n : nat) : 0 < fuel ->
  exists c rest, string_of_list_ascii (rev (digits_rev fuel n)) = String c rest /\
    (48 <=? nat_of_ascii c) && (nat_of_ascii c <=? 57) = true.
Proof.
  revert n. induction fuel as [|fuel IH]; intros n Hf; [lia|]. cbn [digits_rev].
  destruct (n <? 10) eqn:H10.
  - cbn [rev app string_of_list_ascii]. eexists _, EmptyString. split; [reflexivity|].
    rewrite nat_ascii_embedding by (pose proof (Nat.mod_upper_bound n 10); lia).
    apply andb_true_iff; split; apply Nat.leb_le; pose proof (Nat.mod_upper_bound n 10); lia.
  - destruct fuel as [|fuel].
    + cbn [digits_rev rev app string_of_list_ascii]. eexists _, EmptyString. split; [reflexivity|].
      rewrite nat_ascii_embedding by (pose proof (Nat.mod_upper_bound n 10); lia).
      apply andb_true_iff; split; apply Nat.leb_le; pose proof (Nat.mod_upper_bound n 10); lia.
    + destruct (IH (n / 10)) as (c & rest & E & Hc); [lia|].
      cbn [rev]. rewrite string_of_list_ascii_app, E. do 2 eexists. split; [reflexivity|exact Hc].
Qed.

Lemma parse_usize_of_nat_to_string (n : nat) :
  parse_usize (nat_to_string n) = if (N.of_nat n <? 2 ^ 64)%N then Some n else None.
Proof.
  unfold parse_usize, nat_to_string.
  pose proof (digits_rev_value (S n) n (Nat.lt_succ_diag_r n)) as V.
  destruct (digits_rev_head (S n) n ltac:(lia)) as (c & rest & E & Hc).
  rewrite E in *. 
  assert (Hp : Ascii.eqb c "+"%char = false).
  { destruct (Ascii.eqb c "+") eqn:X; [|reflexivity]. apply Ascii.eqb_eq in X. subst c. discriminate. }
  assert (Hv : (match rest with
    | EmptyString => if Ascii.eqb c "+"%char then None else digits_value (String c rest) 0
    | String _ _ => if Ascii.eqb c "+"%char then digits_value rest 0 else digits_value (String c rest) 0
    end) = Some (N.of_nat n)) by (destruct rest; rewrite Hp; exact V).
  rewrite Hv, Nat2N.id. reflexivity.
Qed.

Lemma list_ascii_of_string_app (s1 s2 : string) :
  list_ascii_of_string (s1 ++ s2) = list_ascii_of_string s1 ++ list_ascii_of_string s2.
Proof. induction s1 as [|c s1 IH]; simpl; [reflexivity|now rewrite IH]. Qed.

Lemma substring_full (s : string) : substring 0 (String.length s) s = s.
Proof. induction s as [|c s IH]; simpl; [reflexivity|now rewrite IH]. Qed.

Lemma substring_0_0 (s : string) : substring 0 0 s = EmptyString.
Proof. destruct s; reflexivity. Qed.

Lemma split_by_not_nil (sep : ascii -> bool) (l : list ascii) : split_by sep l <> [].
Proof.
  destruct l as [|c l]; simpl; [discriminate|].
  destruct (sep c); [discriminate|]. destruct (split_by sep l); discriminate.
Qed.

Lemma split_by_app (sep : ascii -> bool) (l1 l2 : list ascii) (c : ascii) :
  sep c = true -> split_by sep (l1 ++ c :: l2) = split_by sep l1 ++ split_by sep l2.
Proof.
  intros Hc. induction l1 as [|x l1 IH]; simpl.
  - rewrite Hc. reflexivity.
  - destruct (sep x); [rewrite IH; reflexivity|].
    rewrite IH. pose proof (split_by_not_nil sep l1) as N.
    destruct (split_by sep l1); [congruence|reflexivity].
Qed.

Lemma split_by_free (sep : ascii -> bool) (l : list ascii) :
  forallb (fun c => negb (sep c)) l = true -> split_by sep l = [l].
Proof.
  induction l as [|x l IH]; simpl; [reflexivity|].
  intros H. apply andb_true_iff in H as [Hx H].
  destruct (sep x); [discriminate|]. rewrite (IH H). reflexivity.
Qed.

Lemma split_whitespace_push (r t : string) :
  t <> EmptyString -> ws_free t = true ->
  split_whitespace (push_token r t) = split_whitespace r ++ [t].
Proof.
  intros Ht Hw. unfold split_whitespace, push_token.
  assert (Et : filter (fun p => negb match p with [] => true | _ => false end)
                 (split_by is_ascii_whitespace (list_ascii_of_string t))
               = [list_ascii_of_string t]).
  { rewrite split_by_free by exact Hw. simpl.
    destruct t; [congruence|reflexivity]. }
  destruct r as [|c r].
  - rewrite Et. simpl. now rewrite string_of_list_ascii_of_string.
  - rewrite list_ascii_of_string_app. change (list_ascii_of_string (" " ++ t))
      with (" "%char :: list_ascii_of_string t).
    rewrite split_by_app by reflexivity. rewrite filter_app, Et, map_app.
    simpl. now rewrite string_of_list_ascii_of_string.
Qed.

Lemma split_whitespace_token (t : string) :
  t <> EmptyString -> ws_free t = true -> split_whitespace t = [t].
Proof.
  intros Ht Hw. unfold split_whitespace. rewrite split_by_free by exact Hw.
  destruct t; [congruence|]. simpl. now rewrite string_of_list_ascii_of_string.
Qed.

Lemma nat_to_string_digits (n : nat) :
  forall c, In c (list_ascii_of_string (nat_to_string n)) ->
    48 <= nat_of_ascii c <= 57.
Proof.
  unfold nat_to_string. rewrite list_ascii_of_string_of_list_ascii.
  intros c Hc. apply in_rev in Hc. revert Hc. generalize (S n) as fuel. intros fuel.
  revert n. induction fuel as [|fuel IH]; intros n Hc; cbn [digits_rev In] in Hc; [contradiction|].
  destruct Hc as [<-|Hc].
  - pose proof (Nat.mod_upper_bound n 10 ltac:(lia)).
    rewrite nat_ascii_embedding by lia. lia.
  - destruct (n <? 10); [contradiction|]. exact (IH _ Hc).
Qed.

Lemma nat_to_string_not_empty (n : nat) : nat_to_string n <> EmptyString.
Proof.
  destruct (digits_rev_head (S n) n ltac:(lia)) as (c & rest & E & _).
  unfold nat_to_string. rewrite E. discriminate.
Qed.

Lemma digits_free (p : ascii -> bool) (n : nat) :
  (forall c, 48 <= nat_of_ascii c <= 57 -> p c = false) ->
  forallb (fun c => negb (p c)) (list_ascii_of_string (nat_to_string n)) = true.
Proof.
  intros Hp. apply forallb_forall. intros c Hc.
  rewrite (Hp c (nat_to_string_digits n c Hc)). reflexivity.
Qed.

Lemma ws_free_app (s1 s2 : string) : ws_free (s1 ++ s2) = ws_free s1 && ws_free s2.
Proof. unfold ws_free. now rewrite list_ascii_of_string_app, forallb_app. Qed.

Lemma ws_free_nat (n : nat) : ws_free (nat_to_string n) = true.
Proof.
  apply digits_free. intros c Hc. unfold is_ascii_whitespace.
  apply orb_false_iff. split; [apply Nat.eqb_neq; lia|].
  apply andb_false_iff. right. apply Nat.leb_gt. lia.
Qed.



Lemma parse_parameters_app (acc : ParsedParameters) (l1 l2 : list string) :
  parse_parameters acc (l1 ++ l2) =
  bind (parse_parameters acc l1) (fun acc' => parse_parameters acc' l2).
Proof.
  revert acc. induction l1 as [|p l1 IH]; intros acc; simpl; [reflexivity|].
  destruct (parse_parameter acc p); simpl; auto.
Qed.

Lemma parse_ln (l : nat) t m es : (N.of_nat l < 2 ^ 64)%N ->
  parse_parameter (None, t, m, es) ("LN:i:" ++ nat_to_string l) = Ok (Some l, t, m, es).
Proof.
  intros Hl. unfold parse_parameter. simpl.
  rewrite substring_0_0, Nat.sub_0_r, substring_full, parse_usize_of_nat_to_string.
  apply N.ltb_lt in Hl. rewrite Hl. reflexivity.
Qed.

Lemma string_length_app (s1 s2 : string) :
  String.length (s1 ++ s2) = String.length s1 + String.length s2.
Proof. induction s1 as [|c s1 IH]; simpl; [reflexivity|now rewrite IH]. Qed.

Lemma nat_to_string_length (n : nat) : 1 <= String.length (nat_to_string n).
Proof.
  pose proof (nat_to_string_not_empty n). destruct (nat_to_string n); simpl; [congruence|lia].
Qed.

Lemma parse_link (a c : bool) (b : nat) ln t m es : (N.of_nat b < 2 ^ 64)%N ->
  parse_parameter (ln, t, m, es)
    ("L:" ++ side_string a ++ ":" ++ nat_to_string b ++ ":" ++ side_string c)
  = Ok (ln, t, m, es ++ [tuple_edge (a, b, c)]).
Proof.
  intros Hb. pose proof (nat_to_string_length b) as Hlen.
  assert (Hsplit : forall x, split_by (fun c => Ascii.eqb c ":"%char)
            (list_ascii_of_string (nat_to_string b) ++ [":"%char; x])
            = [list_ascii_of_string (nat_to_string b); [x]] \/ Ascii.eqb x ":" = true).
  { intros x. destruct (Ascii.eqb x ":") eqn:Ex; [right; reflexivity|left].
    rewrite split_by_app by reflexivity.
    rewrite split_by_free.
    - simpl. rewrite Ex. reflexivity.
    - apply digits_free. intros y Hy. apply Ascii.eqb_neq. intros ->. change (nat_of_ascii ":") with 58 in Hy. lia. }
  unfold parse_parameter.
  destruct a, c; simpl; rewrite string_length_app; simpl;
    rewrite (proj2 (Nat.ltb_ge _ 5)) by lia; simpl;
    unfold split_colon; simpl; rewrite list_ascii_of_string_app; simpl;
    (destruct (Hsplit "+"%char) as [E|E]; [|discriminate]);
    (destruct (Hsplit "-"%char) as [E'|E']; [|discriminate]);
    simpl; (rewrite E || rewrite E'); simpl;
    rewrite string_of_list_ascii_of_string, parse_usize_of_nat_to_string;
    apply N.ltb_lt in Hb; rewrite Hb; reflexivity.
Qed.

Lemma parse_kc (k : nat) ln m es : (N.of_nat k < 2 ^ 64)%N ->
  parse_parameter (ln, None, m, es) ("KC:i:" ++ nat_to_string k) = Ok (ln, Some k, m, es).
Proof.
  intros Hk. unfold parse_parameter. simpl.
  rewrite substring_0_0, Nat.sub_0_r, substring_full, parse_usize_of_nat_to_string.
  apply N.ltb_lt in Hk. rewrite Hk. reflexivity.
Qed.

Lemma parse_km (x : F) ln t es :
  parse_parameter (ln, t, None, es) ("km:f:" ++ fmt_f64_1 x) =
  match parse_f64 (fmt_f64_1 x) with
  | Some y => Ok (ln, t, Some y, es)
  | None => Err (BCalm2MalformedParameterError ("km:f:" ++ fmt_f64_1 x))
  end.
Proof.
  unfold parse_parameter. simpl.
  rewrite substring_0_0, Nat.sub_0_r, substring_full. reflexivity.
Qed.

Lemma link_token_ok (t : bool * nat * bool) :
  link_token t <> EmptyString /\ ws_free (link_token t) = true.
Proof.
  destruct t as [[a b] c]. unfold link_token. split; [discriminate|].
  rewrite !ws_free_app, ws_free_nat. destruct a, c; reflexivity.
Qed.

Lemma split_whitespace_links (links : list (bool * nat * bool)) (r : string) :
  split_whitespace
    (fold_left (fun result '(node_type, neighbor_id, neighbor_type) =>
                  push_token result ("L:" ++ side_string node_type ++ ":"
                                     ++ nat_to_string neighbor_id ++ ":"
                                     ++ side_string neighbor_type)) links r)
  = split_whitespace r ++ map link_token links.
Proof.
  revert r. induction links as [|[[a b] c] links IH]; intros r; simpl.
  - now rewrite app_nil_r.
  - rewrite IH. destruct (link_token_ok (a, b, c)) as [H1 H2].
    rewrite split_whitespace_push by assumption. now rewrite <- app_assoc.
Qed.

Lemma split_whitespace_fold (ts : list string) (r : string) :
  Forall (fun t => t <> EmptyString /\ ws_free t = true) ts ->
  split_whitespace (fold_left push_token ts r) = split_whitespace r ++ ts.
Proof.
  revert r. induction ts as [|t ts IH]; intros r H; simpl.
  - now rewrite app_nil_r.
  - inversion H as [|? ? [H1 H2] H3]; subst.
    rewrite IH by exact H3. rewrite split_whitespace_push by assumption.
    now rewrite <- app_assoc.
Qed.

Lemma parse_links (links : list (bool * nat * bool)) ln t m es :
  (forall x, In x links -> (N.of_nat (snd (fst x)) < 2 ^ 64)%N) ->
  parse_parameters (ln, t, m, es) (map link_token links)
  = Ok (ln, t, m, es ++ map tuple_edge links).
Proof.
  revert es. induction links as [|[[a b] c] links IH]; intros es Hl;
    cbn [map parse_parameters].
  - now rewrite app_nil_r.
  - unfold link_token at 1.
    rewrite parse_link by (apply (Hl (a, b, c)); left; reflexivity). rewrite bind_ok.
    rewrite IH by (intros; apply Hl; right; assumption). now rewrite <- app_assoc.
Qed.

Lemma description_round_trip (node : PlainBCalm2NodeData) (links : list (bool * nat * bool))
    (desc : string) :
  write_plain_bcalm2_node_data_to_bcalm2 node links = Ok desc ->
  (forall l, length node = Some l -> (N.of_nat l < 2 ^ 64)%N) ->
  (forall k, total_abundance node = Some k -> (N.of_nat k < 2 ^ 64)%N) ->
  (forall x, mean_abundance node = Some x ->
     parse_f64 (fmt_f64_1 x) <> None /\ ws_free (fmt_f64_1 x) = true) ->
  (forall x, In x links -> (N.of_nat (snd (fst x)) < 2 ^ 64)%N) ->
  parse_parameters (None, None, None, []) (split_whitespace desc) =
  Ok (length node, total_abundance node,
      match mean_abundance node with Some x => parse_f64 (fmt_f64_1 x) | None => None end,
      map tuple_edge links).
Proof.
  unfold write_plain_bcalm2_node_data_to_bcalm2. intros [= <-] Hl Hk Hm Hlinks.
  rewrite split_whitespace_links, parse_parameters_app.
  assert (Tln : forall l, ws_free ("LN:i:" ++ nat_to_string l) = true)
    by (intros; rewrite ws_free_app, ws_free_nat; reflexivity).
  assert (Tkm : forall x, ws_free x = true -> ws_free ("km:f:" ++ x) = true)
    by (intros; rewrite ws_free_app; assumption).
  assert (Tkc : forall k, ws_free ("KC:i:" ++ nat_to_string k) = true)
    by (intros; rewrite ws_free_app, ws_free_nat; reflexivity).
  set (ts := (match length node with Some l => [("LN:i:" ++ nat_to_string l)%string] | None => [] end
              ++ match total_abundance node with
                 | Some k => [("KC:i:" ++ nat_to_string k)%string] | None => [] end
              ++ match mean_abundance node with
                 | Some x => [("km:f:" ++ fmt_f64_1 x)%string] | None => [] end)%list).
  match goal with
  | |- bind (parse_parameters ?acc (split_whitespace ?r)) _ = _ =>
      replace r with (fold_left push_token ts EmptyString)
        by (subst ts; destruct (length node), (total_abundance node),
              (mean_abundance node); reflexivity)
  end.
  rewrite (split_whitespace_fold ts EmptyString).
  2: { subst ts. apply Forall_app. split; [|apply Forall_app; split].
       - destruct (length node) as [l|]; [|constructor].
         constructor; [split; [discriminate|apply Tln]|constructor].
       - destruct (total_abundance node) as [k|]; [|constructor].
         constructor; [split; [discriminate|apply Tkc]|constructor].
       - destruct (mean_abundance node) as [x|] eqn:Em; [|constructor].
         constructor; [split; [discriminate|apply Tkm, (Hm x eq_refl)]|constructor]. }
  change (split_whitespace "") with (@nil string). rewrite app_nil_l.
  subst ts. rewrite parse_parameters_app.
  destruct (length node) as [l|] eqn:El, (total_abundance node) as [k|] eqn:Ek,
    (mean_abundance node) as [x|] eqn:Em; cbn [app parse_parameters bind];
  try (rewrite parse_ln by (apply Hl; reflexivity); cbn [bind parse_parameters]);
  try (rewrite parse_kc by (apply Hk; reflexivity); cbn [bind parse_parameters]);
  try (rewrite parse_km; destruct (parse_f64 (fmt_f64_1 x)) as [y|] eqn:Ey;
       [cbn [bind parse_parameters]|destruct (Hm x eq_refl); contradiction]);
  rewrite parse_links by assumption; reflexivity.
Qed.

Lemma decode_encode (s : Genome) : decode (map character_to_ascii s) = Some s.
Proof. induction s as [|c s IH]; simpl; [reflexivity|]. rewrite IH. destruct c; reflexivity. Qed.

(** X2: a record written for a node (its printed id, the description written by [write_plain_bcalm2_node_data_to_bcalm2] and its sequence) is parsed back by [parse_bcalm2_fasta_record] to the same id, length, abundances, links and sequence, when the numbers fit a [usize] and the written mean abundance parses back. *)
Lemma written_record_parses_back (node : PlainBCalm2NodeData)
    (links : list (bool * nat * bool)) (desc : string) (s : Genome) (store : SequenceStore) :
  write_plain_bcalm2_node_data_to_bcalm2 node links = Ok desc ->
  (N.of_nat (id node) < 2 ^ 64)%N ->
  (forall l, length node = Some l -> l = List.length s /\ (N.of_nat l < 2 ^ 64)%N) ->
  (forall k, total_abundance node = Some k -> (N.of_nat k < 2 ^ 64)%N) ->
  (forall x, mean_abundance node = Some x ->
     parse_f64 (fmt_f64_1 x) <> None /\ ws_free (fmt_f64_1 x) = true) ->
  (forall x, In x links -> (N.of_nat (snd (fst x)) < 2 ^ 64)%N) ->
  parse_bcalm2_fasta_record
    {| record_id := nat_to_string (id node); record_desc := Some desc;
       record_seq := map character_to_ascii s |} store =
  Ok ({| id := id node; sequence_handle := List.length store; forwards := true;
         length := length node; total_abundance := total_abundance node;
         mean_abundance := match mean_abundance node with
                           | Some x => parse_f64 (fmt_f64_1 x) | None => None end;
         edges := map tuple_edge links |}, store ++ [s]).
Proof.
  intros Hw Hid Hl Hk Hm Hlinks.
  pose proof (description_round_trip node links desc Hw
                (fun l E => proj2 (Hl l E)) Hk Hm Hlinks) as Hd.
  unfold parse_bcalm2_fasta_record. cbn [record_id record_seq].
  rewrite parse_usize_of_nat_to_string. apply N.ltb_lt in Hid. rewrite Hid, bind_ok.
  unfold add_from_slice_u8. rewrite decode_encode, store_get_last.
  unfold description_parameters. cbn [record_desc]. rewrite Hd, bind_ok.
  destruct (length node) as [l|] eqn:El.
  - destruct (Hl l eq_refl) as [-> _]. rewrite Nat.eqb_refl. reflexivity.
  - reflexivity.
Qed.

Lemma forallb_false_exists {A : Type} (f : A -> bool) (l : list A) :
  forallb f l = false -> exists x, In x l /\ f x = false.
Proof.
  induction l as [|a l IH]; simpl; [discriminate|].
  destruct (f a) eqn:Ha; simpl; [|eauto].
  intros H. destruct (IH H) as (x & ? & ?). eauto.
Qed.

Lemma mirror_edge_lt (g : Graph) (e f : nat) :
  mirror_edge_edge_centric g e = Some f -> f < edge_count g.
Proof.
  unfold mirror_edge_edge_centric.
  destruct (nth_error (graph_edges g) e) as [[[x y] d]|]; [|discriminate].
  destruct (mirror_node g y), (mirror_node g x); try discriminate.
  intros Hf. apply find_some in Hf as [Hin _].
  apply in_out_edges in Hin as (t & d' & Hn).
  unfold edge_count. apply nth_error_Some. congruence.
Qed.

Lemma map_outcome_ok {A B : Type} (f : A -> Outcome B) (l : list A) :
  (forall a, In a l -> exists b, f a = Ok b) -> exists bs, map_outcome f l = Ok bs.
Proof.
  induction l as [|a l IH]; intros H; simpl; [eauto|].
  destruct (H a (or_introl eq_refl)) as [b ->]. rewrite bind_ok.
  destruct IH as [bs ->]; [intros; apply H; right; assumption|]. rewrite bind_ok. eauto.
Qed.

Lemma vget_lt {A : Type} (v : list A) (i : nat) : i < List.length v -> exists a, vget v i = Ok a.
Proof.
  intros Hi. unfold vget. destruct (nth_error v i) eqn:E; [eauto|].
  apply nth_error_None in E. lia.
Qed.

Lemma vset_lt {A : Type} (v : list A) (i : nat) (x : A) :
  i < List.length v -> vset v i x = Ok (update v i x).
Proof. intros Hi. unfold vset. apply Nat.ltb_lt in Hi. rewrite Hi. reflexivity. Qed.

Lemma mark_output_edges_result (g : Graph) (es : list nat) :
  forall output_edges,
  (forall e, In e es -> e < edge_count g) ->
  List.length output_edges = edge_count g ->
  ((forall e, In e es -> mirror_edge_edge_centric g e <> None) ->
     exists ob, mark_output_edges g es output_edges = Ok ob /\
                List.length ob = edge_count g) /\
  ((exists e, In e es /\ mirror_edge_edge_centric g e = None) ->
     mark_output_edges g es output_edges = Err BCalm2EdgeWithoutMirror).
Proof.
  induction es as [|e es IH]; intros ob Hes Hl; simpl.
  - split; [eauto|]. intros (? & [] & _).
  - destruct (mirror_edge_edge_centric g e) as [m|] eqn:Hm; simpl.
    + pose proof (mirror_edge_lt g e m Hm) as Hmlt.
      destruct (vget_lt ob m ltac:(lia)) as [bm Hbm]. rewrite Hbm, bind_ok.
      assert (He : e < edge_count g) by (apply Hes; left; reflexivity).
      set (ob' := if negb bm then update ob e true else ob).
      assert (Hob : (if negb bm then vset ob e true else Ok ob) = Ok ob')
        by (subst ob'; destruct (negb bm); [apply vset_lt; lia|reflexivity]).
      rewrite Hob, bind_ok.
      assert (Hl' : List.length ob' = edge_count g)
        by (subst ob'; destruct (negb bm); [rewrite length_update|]; assumption).
      destruct (IH ob' (fun e' H => Hes e' (or_intror H)) Hl') as [IH1 IH2].
      split.
      * intros Hall. apply IH1. intros; apply Hall; right; assumption.
      * intros (e' & [<-|Hin] & Hn); [congruence|]. apply IH2. eauto.
    + split; [|reflexivity]. intros Hall. exfalso. apply (Hall e); auto.
Qed.

Lemma write_edge_ok (g : Graph) (store : SequenceStore) (ob : list bool) (e : nat) :
  (forall e', e' < edge_count g -> mirror_edge_edge_centric g e' <> None) ->
  List.length ob = edge_count g -> e < edge_count g ->
  exists s, write_edge g store ob e = Ok s.
Proof.
  intros Hall Hl He. unfold write_edge, graph_edge.
  destruct (vget_lt (graph_edges g) e He) as [ed ->]. rewrite bind_ok.
  destruct (mirror_edge_edge_centric g e) as [m|] eqn:Hm; [|exfalso; exact (Hall e He Hm)].
  cbn [ok_or]. rewrite bind_ok.
  destruct (vget_lt (graph_edges g) m (mirror_edge_lt g e m Hm)) as [med ->]. rewrite bind_ok.
  assert (Hn : forall side n, exists bs,
             map_outcome (neighbor_tuple g ob side) (out_edges g n) = Ok bs).
  { intros side n. apply map_outcome_ok. intros ne Hin.
    assert (Hne : ne < edge_count g).
    { apply in_out_edges in Hin as (t & d & Hn). unfold edge_count.
      apply nth_error_Some. congruence. }
    unfold neighbor_tuple, graph_edge.
    destruct (vget_lt ob ne ltac:(lia)) as [b ->]. rewrite bind_ok. destruct b.
    - destruct (vget_lt (graph_edges g) ne Hne) as [x ->]. rewrite !bind_ok. eauto.
    - destruct (mirror_edge_edge_centric g ne) as [m'|] eqn:Hm';
        [|exfalso; exact (Hall ne Hne Hm')].
      cbn [ok_or]. rewrite bind_ok.
      destruct (vget_lt (graph_edges g) m' (mirror_edge_lt g ne m' Hm')) as [x ->].
      rewrite !bind_ok. eauto. }
  destruct (Hn true (edge_to ed)) as [p ->]. rewrite bind_ok.
  destruct (Hn false (edge_to med)) as [q ->]. rewrite bind_ok.
  unfold write_plain_bcalm2_node_data_to_bcalm2. rewrite bind_ok. eauto.
Qed.

Lemma write_edges_ok (g : Graph) (store : SequenceStore) (ob : list bool) (es : list nat) :
  (forall e', e' < edge_count g -> mirror_edge_edge_centric g e' <> None) ->
  List.length ob = edge_count g -> (forall e, In e es -> e < edge_count g) ->
  exists s, write_edges g store ob es = Ok s.
Proof.
  intros Hall Hl. induction es as [|e es IH]; intros Hes; simpl; [eauto|].
  assert (He : e < edge_count g) by (apply Hes; left; reflexivity).
  destruct (vget_lt ob e ltac:(lia)) as [b ->]. rewrite bind_ok.
  destruct (IH (fun e' H => Hes e' (or_intror H))) as [rest Hr].
  destruct b.
  - destruct (write_edge_ok g store ob e Hall Hl He) as [s ->]. rewrite bind_ok, Hr, bind_ok. eauto.
  - rewrite bind_ok, Hr, bind_ok. eauto.
Qed.

Lemma writer_ok_of_verified (g : Graph) (store : SequenceStore) :
  verify_edge_mirror_property g = true ->
  exists s, write_edge_centric_bigraph_to_bcalm2 g store = Ok s.
Proof.
  unfold write_edge_centric_bigraph_to_bcalm2, verify_edge_mirror_property. intros Hv.
  assert (Hin : forall e, In e (seq 0 (edge_count g)) -> e < edge_count g)
    by (intros e H; apply in_seq in H; lia).
  assert (Hall : forall e, e < edge_count g -> mirror_edge_edge_centric g e <> None).
  { intros e He. rewrite forallb_forall in Hv.
    assert (Hs : In e (seq 0 (edge_count g))) by (apply in_seq; lia).
    specialize (Hv e Hs).
    destruct (mirror_edge_edge_centric g e); [discriminate|discriminate Hv]. }
  destruct (proj1 (mark_output_edges_result g (seq 0 (edge_count g))
              (repeat false (edge_count g)) Hin (repeat_length _ _)))
    as (ob & -> & Hl); [intros e He; apply Hall, Hin, He|].
  rewrite bind_ok. apply write_edges_ok; assumption.
Qed.

(** X3: the edge-centric writer succeeds exactly when every edge has a mirror edge; otherwise it returns [BCalm2EdgeWithoutMirror]. *)
Theorem edge_centric_writer_fails_only_without_mirror_edge (g : Graph) (store : SequenceStore) :
  (verify_edge_mirror_property g = true ->
     exists s, write_edge_centric_bigraph_to_bcalm2 g store = Ok s) /\
  (verify_edge_mirror_property g = false ->
     write_edge_centric_bigraph_to_bcalm2 g store = Err BCalm2EdgeWithoutMirror).
Proof.
  unfold write_edge_centric_bigraph_to_bcalm2, verify_edge_mirror_property.
  assert (Hin : forall e, In e (seq 0 (edge_count g)) -> e < edge_count g)
    by (intros e H; apply in_seq in H; lia).
  destruct (mark_output_edges_result g (seq 0 (edge_count g))
              (repeat false (edge_count g)) Hin (repeat_length _ _)) as [H1 H2].
  split.
  - apply writer_ok_of_verified.
  - intros Hv. rewrite H2; [reflexivity|].
    apply forallb_false_exists in Hv as (e & Hin' & He). exists e. split; [exact Hin'|].
    destruct (mirror_edge_edge_centric g e); [discriminate|reflexivity].
Qed.

Lemma verify_node_pairing_iff (g : Graph) :
  verify_node_pairing g = true <-> nodes_paired g.
Proof.
  unfold verify_node_pairing, nodes_paired. rewrite forallb_forall. split.
  - intros H n Hn. assert (Hs : In n (seq 0 (node_count g))) by (apply in_seq; lia).
    specialize (H n Hs).
    destruct (mirror_node g n) as [m|] eqn:Hm; [|discriminate].
    apply andb_true_iff in H as [_ H].
    destruct (mirror_node g m) as [n'|] eqn:Hm'; [|discriminate].
    apply Nat.eqb_eq in H. subst. eauto.
  - intros H n Hs. apply in_seq in Hs. destruct (H n ltac:(lia)) as (m & Hm & Hm').
    rewrite Hm, Hm', Nat.eqb_refl, andb_true_r. apply Nat.ltb_lt.
    exact (mirror_node_lt g m n Hm').
Qed.

Lemma nodes_paired_empty : nodes_paired empty_graph.
Proof. intros n Hn. unfold node_count in Hn. simpl in Hn. lia. Qed.

Lemma create_binode_paired (f : bool) (g g' : Graph) (b : MappedNode) :
  create_binode f g = Ok (b, g') -> nodes_paired g -> nodes_paired g'.
Proof.
  intros H Hp. destruct f; [rewrite create_binode_self in H|rewrite create_binode_pair in H];
    injection H as _ <-; intros n Hn; unfold node_count in Hn; simpl in Hn;
    rewrite List.length_app in Hn; simpl in Hn; rewrite !mirror_node_app.
  - destruct (n <? node_count g) eqn:Hl.
    + apply Nat.ltb_lt in Hl. destruct (Hp n Hl) as (m & Hm & Hm'). exists m.
      rewrite Hm. split; [reflexivity|]. rewrite mirror_node_app.
      pose proof (mirror_node_lt g m n Hm') as Hml. apply Nat.ltb_lt in Hml.
      rewrite Hml. exact Hm'.
    + apply Nat.ltb_ge in Hl. fold (node_count g) in Hn.
      assert (n = node_count g) as -> by lia.
      rewrite Nat.sub_diag. exists (node_count g). simpl.
      rewrite mirror_node_app. try rewrite Nat.ltb_irrefl; try rewrite Nat.sub_diag. auto.
  - destruct (n <? node_count g) eqn:Hl.
    + apply Nat.ltb_lt in Hl. destruct (Hp n Hl) as (m & Hm & Hm'). exists m.
      rewrite Hm. split; [reflexivity|]. rewrite mirror_node_app.
      pose proof (mirror_node_lt g m n Hm') as Hml. apply Nat.ltb_lt in Hml.
      rewrite Hml. exact Hm'.
    + apply Nat.ltb_ge in Hl. fold (node_count g) in Hn.
      assert (Hc : (S (node_count g) <? node_count g) = false) by (apply Nat.ltb_ge; lia).
      destruct (Nat.eq_dec n (node_count g)) as [->|Hne].
      * rewrite Nat.sub_diag. exists (S (node_count g)). simpl.
        rewrite mirror_node_app, Hc. replace (S (node_count g) - node_count g) with 1 by lia.
        try rewrite Nat.ltb_irrefl; try rewrite Nat.sub_diag. auto.
      * assert (n = S (node_count g)) as -> by lia.
        replace (S (node_count g) - node_count g) with 1 by lia.
        exists (node_count g). simpl. rewrite mirror_node_app.
        try rewrite Nat.ltb_irrefl; try rewrite Nat.sub_diag. auto.
Qed.

Lemma add_edge_paired (g g' : Graph) (a b : nat) (d : PlainBCalm2NodeData) :
  add_edge g a b d = Ok g' -> nodes_paired g -> nodes_paired g'.
Proof.
  intros H Hp. apply add_edge_inv in H as (_ & _ & ->). exact Hp.
Qed.

Lemma search_or_create_paired (side : bool) (n : nat) (f : bool) (L : list PlainBCalm2Edge)
    (nm nm' : list MappedNode) (g g' : Graph) (b : bool) :
  search_or_create side n f L nm g = Ok (nm', g', b) -> nodes_paired g -> nodes_paired g'.
Proof.
  unfold search_or_create. intros H Hp.
  destruct (search_neighbors side n nm L) as [[nm1 a]| |]; simpl in H; try discriminate.
  destruct (vget nm1 n) as [v| |]; simpl in H; try discriminate.
  destruct (mapped_eqb v Unmapped).
  - destruct (create_binode f g) as [[b1 g1]| |] eqn:Hc; simpl in H; try discriminate.
    destruct (vset nm1 n b1); simpl in H; try discriminate.
    injection H as _ <- _. exact (create_binode_paired _ _ _ _ Hc Hp).
  - injection H as _ <- _. exact Hp.
Qed.

Lemma resolve_block_paired (side : bool) (n : nat) (f : bool) (L : list PlainBCalm2Edge)
    (nm nm' : list MappedNode) (g g' : Graph) :
  resolve_block side n f L nm g = Ok (nm', g') -> nodes_paired g -> nodes_paired g'.
Proof.
  unfold resolve_block. intros H Hp.
  destruct (vget nm n) as [v| |]; simpl in H; try discriminate.
  destruct (mapped_eqb v Unmapped); [|injection H as _ <-; exact Hp].
  destruct (search_or_create side n f L nm g) as [[[nm1 g1] a]| |] eqn:Hs;
    simpl in H; try discriminate.
  destruct (if a then _ else _); simpl in H; try discriminate.
  injection H as _ <-. exact (search_or_create_paired _ _ _ _ _ _ _ _ _ Hs Hp).
Qed.

Lemma resolve_tail_paired (n1 n2 : nat) (f esm : bool) (es : list PlainBCalm2Edge)
    (nm nm' : list MappedNode) (g g' : Graph) :
  resolve_tail n1 n2 f esm es nm g = Ok (nm', g') -> nodes_paired g -> nodes_paired g'.
Proof.
  destruct esm.
  - unfold resolve_tail. intros H Hp.
    destruct (vget nm n2) as [v| |]; simpl in H; try discriminate.
    destruct (mapped_eqb v Unmapped); [|injection H as _ <-; exact Hp].
    destruct (tail_shortcut n1 n2 nm); simpl in H; try discriminate.
    destruct (assign_to_neighbors _ _ _ _); simpl in H; try discriminate.
    injection H as _ <-. exact Hp.
  - rewrite resolve_tail_block. apply resolve_block_paired.
Qed.

Lemma build_step_paired (kmer_size : nat) (store : SequenceStore) (d : PlainBCalm2NodeData)
    (nm nm' : list MappedNode) (g g' : Graph) :
  build_step kmer_size store d nm g = Ok (nm', g') -> nodes_paired g -> nodes_paired g'.
Proof.
  unfold build_step. intros H Hp.
  destruct (kmer_size =? 0); simpl in H; [discriminate|].
  rewrite resolve_head_block in H.
  destruct (resolve_block false _ _ _ _ g) as [[nm1 g1]| |] eqn:H1; simpl in H; try discriminate.
  destruct (resolve_tail _ _ _ _ _ nm1 g1) as [[nm2 g2]| |] eqn:H2; simpl in H; try discriminate.
  pose proof (resolve_tail_paired _ _ _ _ _ _ _ _ _ H2
                (resolve_block_paired _ _ _ _ _ _ _ _ H1 Hp)) as Hp2.
  destruct (vget nm2 _) as [v1| |]; simpl in H; try discriminate.
  destruct (endpoints_of v1) as [[a a']| |]; simpl in H; try discriminate.
  destruct (vget nm2 _) as [v2| |]; simpl in H; try discriminate.
  destruct (endpoints_of v2) as [[b b']| |]; simpl in H; try discriminate.
  destruct (add_edge g2 a b d) as [g3| |] eqn:Ha; simpl in H; try discriminate.
  destruct (add_edge g3 b' a' _) as [g4| |] eqn:Hb; simpl in H; try discriminate.
  injection H as _ <-. exact (add_edge_paired _ _ _ _ _ Hb (add_edge_paired _ _ _ _ _ Ha Hp2)).
Qed.

Lemma loop_paired (kmer_size : nat) (rs : list FastaRecord) :
  forall store nm g nm' g' store',
  edge_centric_loop kmer_size rs store nm g = Ok (nm', g', store') ->
  nodes_paired g -> nodes_paired g'.
Proof.
  induction rs as [|r rs IH]; intros store nm g nm' g' store' H Hp; simpl in H.
  - injection H as _ <- _. exact Hp.
  - destruct (parse_bcalm2_fasta_record r store) as [[d st]| |]; simpl in H;
      try discriminate.
    destruct (build_step kmer_size st d nm g) as [[nm1 g1]| |] eqn:Hb; simpl in H;
      try discriminate.
    exact (IH _ _ _ _ _ _ H (build_step_paired _ _ _ _ _ _ _ Hb Hp)).
Qed.

Lemma edge_mirror_property_of_pairs (g : Graph)
    (q : list (nat * nat * nat * nat * PlainBCalm2NodeData)) :
  graph_edges g = flat_map edge_pair q ->
  (forall i a a' b b' d, nth_error q i = Some (a, a', b, b', d) ->
     mirror_node g a = Some a' /\ mirror_node g a' = Some a /\
     mirror_node g b = Some b' /\ mirror_node g b' = Some b) ->
  verify_edge_mirror_property g = true.
Proof.
  intros He Hq. unfold verify_edge_mirror_property. apply forallb_forall.
  intros e Hs. apply in_seq in Hs. unfold edge_count in Hs. rewrite He in Hs.
  assert (Hs' : e < List.length (flat_map edge_pair q)) by lia.
  destruct (edge_index _ _ Hs') as (i & a & a' & b & b' & d & Hqi & [[-> _]|[-> _]]);
    destruct (nth_error_flat_map_pair _ _ _ _ _ _ _ Hqi) as [E0 E1];
    destruct (Hq _ _ _ _ _ _ Hqi) as (H1 & H2 & H3 & H4);
    unfold mirror_edge_edge_centric.
  - rewrite He, E0, H3, H1.
    destruct (find _ _) eqn:Hf; [reflexivity|].
    assert (Hin : In (i * 2 + 1) (out_edges g b')) by (apply in_out_edges; rewrite He; eauto).
    pose proof (find_none _ _ Hf _ Hin) as Hn. cbn beta in Hn.
    rewrite ?He, E1, Nat.eqb_refl, data_eqb_refl in Hn. discriminate.
  - rewrite He, E1, H2, H4.
    destruct (find _ _) eqn:Hf; [reflexivity|].
    assert (Hin : In (i * 2) (out_edges g a)) by (apply in_out_edges; rewrite He; eauto).
    pose proof (find_none _ _ Hf _ Hin) as Hn. cbn beta in Hn.
    rewrite ?He, E0, Nat.eqb_refl, mirror_data_involutive, data_eqb_refl in Hn. discriminate.
Qed.

Lemma edge_centric_output_verified (records : list FastaRecord) (store store' : SequenceStore)
    (kmer_size : nat) (g : Graph) :
  read_bigraph_from_bcalm2_as_edge_centric records store kmer_size = Ok (g, store') ->
  verify_node_pairing g = true /\ verify_edge_mirror_property g = true.
Proof.
  unfold read_bigraph_from_bcalm2_as_edge_centric.
  destruct (edge_centric_loop kmer_size records store [] empty_graph)
    as [[[nm g0] st]| |] eqn:Hl; simpl; intros H; inversion H; subst; clear H.
  split.
  - apply verify_node_pairing_iff. exact (loop_paired _ _ _ _ _ _ _ _ Hl nodes_paired_empty).
  - destruct (loop_general _ _ _ _ _ _ _ _ Hl registered_empty)
      as (q & _ & He & _ & _ & _ & _ & Hq). simpl in He.
    apply (edge_mirror_property_of_pairs g q He).
    intros i a a' b b' d Hqi. destruct (Hq _ _ _ _ _ _ Hqi) as (H1 & H2 & H3 & H4 & _). auto.
Qed.

Lemma read_then_write_ok (reader : list FastaRecord -> SequenceStore -> nat ->
                                   Outcome (Graph * SequenceStore))
    (records : list FastaRecord) (store store' : SequenceStore) (kmer_size : nat) (g : Graph) :
  reader records store kmer_size = Ok (g, store') ->
  verify_edge_mirror_property g = true ->
  exists s, read_then_write reader records store kmer_size = Ok s.
Proof.
  intros Hr Hv. unfold read_then_write. rewrite Hr. cbn [bind].
  apply writer_ok_of_verified. exact Hv.
Qed.

(** X5: reading records and writing the graph back fails only if reading fails, for both readers. *)
Theorem read_then_write_fails_only_in_reader (records : list FastaRecord)
    (store : SequenceStore) (kmer_size : nat) :
  (forall g store', read_bigraph_from_bcalm2_as_edge_centric records store kmer_size
                    = Ok (g, store') ->
     exists s, read_then_write read_bigraph_from_bcalm2_as_edge_centric
                 records store kmer_size = Ok s) /\
  (forall g store', read_bigraph_from_bcalm2_as_edge_centric_old records store kmer_size
                    = Ok (g, store') ->
     exists s, read_then_write read_bigraph_from_bcalm2_as_edge_centric_old
                 records store kmer_size = Ok s).
Proof.
  split; intros g st H; apply (read_then_write_ok _ _ _ _ _ g H).
  - exact (proj2 (edge_centric_output_verified _ _ _ _ _ H)).
  - unfold read_bigraph_from_bcalm2_as_edge_centric_old in H.
    destruct (kmer_size =? 0); cbn [bind] in H; [discriminate|].
    destruct (old_loop _ _ _ _ _) as [[g0 st0]| |]; cbn [bind] in H; try discriminate.
    destruct (verify_node_pairing g0 && verify_edge_mirror_property g0) eqn:Hv;
      [|discriminate].
    injection H as <- _. apply andb_true_iff in Hv. apply Hv.
Qed.

Section GenericConverterProofs.
Variable InputEdgeData : Type.
Variable generic_id : InputEdgeData -> nat.
Variable is_self_complemental : InputEdgeData -> bool.
Variable generic_edges : InputEdgeData -> list PlainBCalm2Edge.
Variable into : InputEdgeData -> PlainBCalm2NodeData.

Lemma convert_step_general (x : InputEdgeData) (node_map node_map' : list MappedNode)
    (g g' : Graph) :
  convert_step InputEdgeData generic_id is_self_complemental generic_edges into x node_map g = Ok (node_map', g') ->
  (forall u, registered g (slot node_map u)) ->
  exists a a' b b',
    graph_edges g' = graph_edges g ++ [(a, b, into x); (b', a', mirror_data (into x))] /\
    mirror_node g' a = Some a' /\ mirror_node g' a' = Some a /\
    mirror_node g' b = Some b' /\ mirror_node g' b' = Some b /\
    (forall n m, mirror_node g n = Some m -> mirror_node g' n = Some m) /\
    (forall u, registered g' (slot node_map' u)).
Proof.
  intros H Hr. unfold convert_step in H.
  destruct (grown_slot node_map (generic_id x * 2 + 1)) as (Hs0 & Hl0 & Ht0).
  revert H Hs0 Hl0 Ht0.
  generalize (if List.length node_map <=? generic_id x * 2 + 1
              then resize node_map (generic_id x * 2 + 1 + 1) Unmapped else node_map).
  intros nm0 H Hs0 Hl0 Ht0.
  assert (Hr0 : forall u, registered g (slot nm0 u)) by (intros; rewrite Hs0; auto).
  rewrite resolve_head_block in H.
  destruct (resolve_block false (generic_id x * 2) _ _ nm0 g) as [[nm1 g1]| |] eqn:H1;
    simpl in H; try discriminate.
  destruct (block_general _ _ _ _ _ _ _ _ H1 Hr0) as (Hx1 & Hr1 & Hm1 & Hn1 & Hl1).
  destruct (resolve_tail _ _ _ _ _ nm1 g1) as [[nm2 g2]| |] eqn:H2;
    simpl in H; try discriminate.
  assert (Hpost : graph_ext g1 g2 /\ (forall u, registered g2 (slot nm2 u))).
  { destruct (is_self_complemental x).
    - destruct (shortcut_general _ _ _ _ _ _ _ _ H2 Hn1 Hr1) as (-> & Hr2 & _).
      split; [apply graph_ext_refl|]. auto.
    - rewrite resolve_tail_block in H2.
      destruct (block_general _ _ _ _ _ _ _ _ H2 Hr1) as (Hx2 & Hr2 & _). auto. }
  destruct Hpost as (Hx2 & Hr2).
  destruct (vget nm2 (generic_id x * 2)) as [v1| |] eqn:Hv1; simpl in H; try discriminate.
  apply vget_slot_inv in Hv1 as [-> _].
  destruct (endpoints_of (slot nm2 (generic_id x * 2))) as [[a a']| |] eqn:He1; simpl in H;
    try discriminate.
  destruct (vget nm2 (generic_id x * 2 + 1)) as [v2| |] eqn:Hv2; simpl in H; try discriminate.
  apply vget_slot_inv in Hv2 as [-> _].
  destruct (endpoints_of (slot nm2 (generic_id x * 2 + 1))) as [[b b']| |] eqn:He2; simpl in H;
    try discriminate.
  destruct (add_edge g2 a b (into x)) as [g3| |] eqn:Ha1; simpl in H; try discriminate.
  destruct (add_edge g3 b' a' (mirror_data (into x))) as [g4| |] eqn:Ha2; simpl in H;
    try discriminate.
  inversion H; subst node_map' g'.
  apply add_edge_inv in Ha1 as (_ & _ & ->). apply add_edge_inv in Ha2 as (_ & _ & ->).
  pose proof (graph_ext_trans _ _ _ Hx1 Hx2) as (Hed & _ & Hmir).
  destruct (endpoints_registered g2 _ _ _ He1 (Hr2 _)) as [Ha Ha'].
  destruct (endpoints_registered g2 _ _ _ He2 (Hr2 _)) as [Hb Hb'].
  exists a, a', b, b'. unfold mirror_node in *; simpl.
  split; [simpl; rewrite <- app_assoc, Hed; reflexivity|].
  split; [exact Ha|]. split; [exact Ha'|]. split; [exact Hb|]. split; [exact Hb'|].
  split; [exact Hmir|]. exact Hr2.
Qed.

Lemma convert_step_paired (x : InputEdgeData) (nm nm' : list MappedNode) (g g' : Graph) :
  convert_step InputEdgeData generic_id is_self_complemental generic_edges into x nm g = Ok (nm', g') -> nodes_paired g -> nodes_paired g'.
Proof.
  unfold convert_step. intros H Hp.
  rewrite resolve_head_block in H.
  destruct (resolve_block false _ _ _ _ g) as [[nm1 g1]| |] eqn:H1; simpl in H; try discriminate.
  destruct (resolve_tail _ _ _ _ _ nm1 g1) as [[nm2 g2]| |] eqn:H2; simpl in H; try discriminate.
  pose proof (resolve_tail_paired _ _ _ _ _ _ _ _ _ H2
                (resolve_block_paired _ _ _ _ _ _ _ _ H1 Hp)) as Hp2.
  destruct (vget nm2 _) as [v1| |]; simpl in H; try discriminate.
  destruct (endpoints_of v1) as [[a a']| |]; simpl in H; try discriminate.
  destruct (vget nm2 _) as [v2| |]; simpl in H; try discriminate.
  destruct (endpoints_of v2) as [[b b']| |]; simpl in H; try discriminate.
  destruct (add_edge g2 a b _) as [g3| |] eqn:Ha; simpl in H; try discriminate.
  destruct (add_edge g3 b' a' _) as [g4| |] eqn:Hb; simpl in H; try discriminate.
  injection H as _ <-. exact (add_edge_paired _ _ _ _ _ Hb (add_edge_paired _ _ _ _ _ Ha Hp2)).
Qed.

Lemma convert_loop_general (xs : list InputEdgeData) :
  forall node_map g node_map' g',
  convert_loop InputEdgeData generic_id is_self_complemental generic_edges into xs node_map g = Ok (node_map', g') ->
  (forall u, registered g (slot node_map u)) ->
  nodes_paired g -> nodes_paired g' /\
  (forall n m, mirror_node g n = Some m -> mirror_node g' n = Some m) /\
  exists q : list (nat * nat * nat * nat * PlainBCalm2NodeData),
    map (fun t => let '(_, _, _, _, d) := t in d) q = map into xs /\
    graph_edges g' = graph_edges g ++ flat_map edge_pair q /\
    forall i a a' b b' d, nth_error q i = Some (a, a', b, b', d) ->
      mirror_node g' a = Some a' /\ mirror_node g' a' = Some a /\
      mirror_node g' b = Some b' /\ mirror_node g' b' = Some b.
Proof.
  induction xs as [|x xs IH]; intros nm g nm' g' H Hr Hp; simpl in H.
  - injection H as _ <-. split; [exact Hp|]. split; [auto|]. exists []. rewrite app_nil_r.
    split; [reflexivity|]. split; [reflexivity|]. intros [|i]; discriminate.
  - destruct (convert_step InputEdgeData generic_id is_self_complemental generic_edges into x nm g) as [[nm1 g1]| |] eqn:Hs; simpl in H; try discriminate.
    pose proof (convert_step_paired _ _ _ _ _ Hs Hp) as Hp1.
    destruct (convert_step_general _ _ _ _ _ Hs Hr)
      as (a & a' & b & b' & He & Ha & Ha' & Hb & Hb' & Hmir & Hr1).
    destruct (IH _ _ _ _ H Hr1 Hp1) as (Hp2 & Hmir2 & q & Hd & He2 & Hq).
    split; [exact Hp2|]. split; [auto|].
    exists ((a, a', b, b', into x) :: q). split; [simpl; rewrite Hd; reflexivity|].
    split; [rewrite He2, He; simpl; rewrite <- app_assoc; reflexivity|].
    intros [|i] y y' z z' dd Hi; simpl in Hi.
    + injection Hi as <- <- <- <- <-. auto.
    + exact (Hq _ _ _ _ _ _ Hi).
Qed.

Lemma nth_error_map_q (q : list (nat * nat * nat * nat * PlainBCalm2NodeData))
    (xs : list InputEdgeData) (i : nat) (x : InputEdgeData) :
  map (fun t => let '(_, _, _, _, d) := t in d) q = map into xs ->
  nth_error xs i = Some x ->
  exists a a' b b', nth_error q i = Some (a, a', b, b', into x).
Proof.
  revert q i. induction xs as [|y xs IH]; intros q i Hm Hi; [destruct i; discriminate|].
  destruct q as [|[[[[a a'] b] b'] d] q]; [discriminate|]. simpl in Hm.
  injection Hm as -> Hm. destruct i as [|i]; simpl in Hi |- *.
  - injection Hi as ->. eauto.
  - exact (IH _ _ Hm Hi).
Qed.

Lemma length_map_q (q : list (nat * nat * nat * nat * PlainBCalm2NodeData))
    (xs : list InputEdgeData) :
  map (fun t => let '(_, _, _, _, d) := t in d) q = map into xs ->
  List.length q = List.length xs.
Proof.
  intros H. apply (f_equal (@List.length _)) in H. rewrite !length_map in H. exact H.
Qed.

(** X6: the generic converter adds two edges per input node, in input order: edge [2i] carries the converted data of node [i] and edge [2i+1] its mirror data, between mirrored endpoints. *)
Theorem converted_graph_edges (reader : list InputEdgeData) (g : Graph) :
  convert_generic_node_centric_bigraph_to_edge_centric InputEdgeData generic_id is_self_complemental generic_edges into
    reader = Ok g ->
  edge_count g = List.length reader * 2 /\
  forall i x, nth_error reader i = Some x ->
    exists a a' b b',
      nth_error (graph_edges g) (i * 2) = Some (a, b, into x) /\
      nth_error (graph_edges g) (i * 2 + 1) = Some (b', a', mirror_data (into x)) /\
      mirror_node g a = Some a' /\ mirror_node g a' = Some a /\
      mirror_node g b = Some b' /\ mirror_node g b' = Some b.
Proof.
  unfold convert_generic_node_centric_bigraph_to_edge_centric.
  destruct (convert_loop InputEdgeData generic_id is_self_complemental generic_edges into reader [] empty_graph) as [[nm g0]| |] eqn:Hl; cbn [bind];
    intros H; inversion H; subst g0; clear H.
  destruct (convert_loop_general _ _ _ _ _ Hl registered_empty nodes_paired_empty)
    as (_ & _ & q & Hd & He & Hq). simpl in He.
  split.
  - unfold edge_count. rewrite He, length_flat_map_pair, (length_map_q q reader Hd). reflexivity.
  - intros i x Hi. destruct (nth_error_map_q q reader i x Hd Hi) as (a & a' & b & b' & Hqi).
    destruct (nth_error_flat_map_pair _ _ _ _ _ _ _ Hqi) as [E0 E1].
    destruct (Hq _ _ _ _ _ _ Hqi) as (H1 & H2 & H3 & H4).
    exists a, a', b, b'. rewrite He. repeat split; assumption.
Qed.

(** X7: a graph built by the generic converter has every node paired with its mirror and every edge with a mirror edge. *)
Theorem converted_graph_passes_checks (reader : list InputEdgeData) (g : Graph) :
  convert_generic_node_centric_bigraph_to_edge_centric InputEdgeData generic_id is_self_complemental generic_edges into
    reader = Ok g ->
  verify_node_pairing g = true /\ verify_edge_mirror_property g = true.
Proof.
  unfold convert_generic_node_centric_bigraph_to_edge_centric.
  destruct (convert_loop InputEdgeData generic_id is_self_complemental generic_edges into reader [] empty_graph) as [[nm g0]| |] eqn:Hl; cbn [bind];
    intros H; inversion H; subst g0; clear H.
  destruct (convert_loop_general _ _ _ _ _ Hl registered_empty nodes_paired_empty)
    as (Hp & _ & q & _ & He & Hq). simpl in He.
  split; [apply verify_node_pairing_iff; exact Hp|].
  exact (edge_mirror_property_of_pairs g q He Hq).
Qed.
End GenericConverterProofs.


Lemma existsb_edge_eqb_comm (x : PlainBCalm2Edge) (l : list PlainBCalm2Edge) :
  existsb (edge_eqb x) l = existsb (fun e => edge_eqb e x) l.
Proof.
  induction l as [|e l IH]; simpl; [reflexivity|]. rewrite IH. f_equal.
  destruct (edge_eqb x e) eqn:H1, (edge_eqb e x) eqn:H2; auto.
  - apply edge_eqb_eq in H1. subst. rewrite (proj2 (edge_eqb_eq e e) eq_refl) in H2. discriminate.
  - apply edge_eqb_eq in H2. subst. rewrite (proj2 (edge_eqb_eq x x) eq_refl) in H1. discriminate.
Qed.

Lemma build_step_convert (kmer_size : nat) (store : SequenceStore)
    (is_self : PlainBCalm2NodeData -> bool) (d : PlainBCalm2NodeData)
    (nm : list MappedNode) (g : Graph) :
  kmer_size <> 0 ->
  is_self d = edge_is_self_mirror kmer_size (record_sequence store d) ->
  build_step kmer_size store d nm g =
  convert_step PlainBCalm2NodeData id is_self edges (fun x => x) d nm g.
Proof.
  intros Hk Hs. unfold build_step, convert_step.
  apply Nat.eqb_neq in Hk. rewrite Hk. cbn [bind].
  rewrite Hs. unfold head_self_mirror_edge, tail_self_mirror_edge, record_sequence.
  rewrite !existsb_edge_eqb_comm. reflexivity.
Qed.

Lemma store_get_app (store rest : SequenceStore) (h : nat) :
  h < List.length store -> store_get (store ++ rest) h = store_get store h.
Proof. intros Hh. unfold store_get. apply app_nth1. exact Hh. Qed.

Lemma loop_convert (kmer_size : nat) (records : list FastaRecord) :
  forall store ds store' nm g,
  kmer_size <> 0 ->
  parse_records records store = Ok (ds, store') ->
  edge_centric_loop kmer_size records store nm g =
  ('(nm, g) <- convert_loop PlainBCalm2NodeData id
                 (fun d => edge_is_self_mirror kmer_size (record_sequence store' d))
                 edges (fun x => x) ds nm g ;;
   Ok (nm, g, store')).
Proof.
  induction records as [|r rs IH]; intros store ds store' nm g Hk H; simpl in H |- *.
  - injection H as <- <-. reflexivity.
  - destruct (parse_bcalm2_fasta_record r store) as [[d st]| |] eqn:Hp;
      cbn [bind] in H |- *; try discriminate.
    destruct (parse_records rs st) as [[ds1 st1]| |] eqn:Hq; cbn [bind] in H;
      try discriminate.
    injection H as <- <-. cbn [convert_loop].
    destruct (parse_ok_inv _ _ _ _ Hp) as (gn & _ & -> & _ & Hh & _).
    destruct (parse_records_prefix _ _ _ _ Hq) as (rest & ->).
    rewrite (build_step_convert kmer_size (store ++ [gn])
               (fun d0 => edge_is_self_mirror kmer_size
                            (record_sequence ((store ++ [gn]) ++ rest) d0)) d nm g Hk).
    + destruct (convert_step _ _ _ _ _ d nm g) as [[nm1 g1]| |]; cbn [bind]; try reflexivity.
      exact (IH _ _ _ _ _ Hk Hq).
    + unfold record_sequence. rewrite Hh, store_get_app; [reflexivity|].
      rewrite List.length_app. simpl. lia.
Qed.

(** X8: for a non-zero k-mer size, the edge-centric reader is the generic converter applied to the parsed records. *)
Theorem edge_centric_reader_is_generic_conversion (records : list FastaRecord)
    (store : SequenceStore) (kmer_size : nat) (ds : list PlainBCalm2NodeData)
    (store' : SequenceStore) :
  kmer_size <> 0 ->
  parse_records records store = Ok (ds, store') ->
  read_bigraph_from_bcalm2_as_edge_centric records store kmer_size =
  (g <- convert_generic_node_centric_bigraph_to_edge_centric PlainBCalm2NodeData id
          (fun d => edge_is_self_mirror kmer_size (record_sequence store' d))
          edges (fun x => x) ds ;;
   Ok (g, store')).
Proof.
  intros Hk H. unfold read_bigraph_from_bcalm2_as_edge_centric,
    convert_generic_node_centric_bigraph_to_edge_centric.
  rewrite (loop_convert kmer_size records store ds store' [] empty_graph Hk H).
  destruct (convert_loop _ _ _ _ _ ds [] empty_graph) as [[nm g]| |]; reflexivity.
Qed.

Lemma bind_not_err {A B : Type} (m : Outcome A) (k : A -> Outcome B) :
  not_err m -> (forall a, not_err (k a)) -> not_err (bind m k).
Proof. destruct m; simpl; auto. Qed.

Lemma vget_not_err {A : Type} (v : list A) (i : nat) : not_err (vget v i).
Proof. unfold vget. destruct (nth_error v i); exact I. Qed.

Lemma vset_not_err {A : Type} (v : list A) (i : nat) (x : A) : not_err (vset v i x).
Proof. unfold vset. destruct (i <? List.length v); exact I. Qed.

Create HintDb not_err_db.
#[local] Hint Resolve vget_not_err vset_not_err : not_err_db.

Ltac not_err_tac :=
  repeat match goal with
  | |- not_err (bind _ _) => apply bind_not_err; [|intros ?]
  | |- not_err (Ok _) => exact I
  | |- not_err Panic => exact I
  | |- True => exact I
  | |- not_err (let '(_, _) := ?p in _) => destruct p
  | |- not_err (match ?x with _ => _ end) => destruct x
  | |- not_err (if ?b then _ else _) => destruct b
  | |- not_err _ => solve [eauto with not_err_db]
  end.

Lemma search_neighbors_not_err (side : bool) (n : nat) (es : list PlainBCalm2Edge) :
  forall nm, not_err (search_neighbors side n nm es).
Proof. induction es as [|e es IH]; intros nm; simpl; not_err_tac. Qed.
#[local] Hint Resolve search_neighbors_not_err : not_err_db.

Lemma create_binode_not_err (f : bool) (g : Graph) : not_err (create_binode f g).
Proof. unfold create_binode, set_mirror_nodes. not_err_tac. Qed.
#[local] Hint Resolve create_binode_not_err : not_err_db.

Lemma assign_not_err (side : bool) (n : nat) (es : list PlainBCalm2Edge) :
  forall nm, not_err (assign_to_neighbors side n nm es).
Proof. induction es as [|e es IH]; intros nm; simpl; not_err_tac. Qed.
#[local] Hint Resolve assign_not_err : not_err_db.

Lemma search_or_create_not_err side n f L nm (g : Graph) :
  not_err (search_or_create side n f L nm g).
Proof. unfold search_or_create. not_err_tac. Qed.
#[local] Hint Resolve search_or_create_not_err : not_err_db.

Lemma resolve_head_not_err n1 f es nm (g : Graph) : not_err (resolve_head n1 f es nm g).
Proof. unfold resolve_head. not_err_tac. Qed.

Lemma resolve_tail_not_err n1 n2 f esm es nm (g : Graph) :
  not_err (resolve_tail n1 n2 f esm es nm g).
Proof. unfold resolve_tail, tail_shortcut. not_err_tac. Qed.

Lemma endpoints_not_err (v : MappedNode) : not_err (endpoints_of v).
Proof. destruct v; exact I. Qed.

Lemma add_edge_not_err (g : Graph) a b d : not_err (add_edge g a b d).
Proof. unfold add_edge. not_err_tac. Qed.
#[local] Hint Resolve resolve_head_not_err resolve_tail_not_err endpoints_not_err
  add_edge_not_err : not_err_db.


Lemma prefix_not_err s n : not_err (prefix s n).
Proof. unfold prefix. not_err_tac. Qed.
Lemma suffix_not_err s n : not_err (suffix s n).
Proof. unfold suffix. not_err_tac. Qed.
Lemma get_or_create_node_not_err (g : Graph) m x : not_err (get_or_create_node g m x).
Proof. unfold get_or_create_node, set_mirror_nodes. not_err_tac. Qed.
#[local] Hint Resolve prefix_not_err suffix_not_err get_or_create_node_not_err : not_err_db.





Section ConverterNoErr.
Variable InputEdgeData : Type.
Variable generic_id : InputEdgeData -> nat.
Variable is_self_complemental : InputEdgeData -> bool.
Variable generic_edges : InputEdgeData -> list PlainBCalm2Edge.
Variable into : InputEdgeData -> PlainBCalm2NodeData.


End ConverterNoErr.

Lemma ng_mirror_node_lt (g : NodeGraph) (n m : nat) :
  ng_mirror_node g n = Some m -> n < ng_node_count g.
Proof.
  unfold ng_mirror_node, ng_node_count. destruct (nth_error (node_entries g) n) eqn:H;
    [|discriminate]. intros _. apply nth_error_Some. congruence.
Qed.

Lemma nth_error_update {A : Type} (v : list A) (i j : nat) (x : A) :
  i < List.length v ->
  nth_error (update v i x) j = if j =? i then Some x else nth_error v j.
Proof.
  revert i j. induction v as [|a v IH]; intros i j Hi; simpl in Hi; [lia|].
  destruct i as [|i], j as [|j]; simpl; try reflexivity.
  apply IH. lia.
Qed.

Lemma mark_output_nodes_paired (g : NodeGraph) (len : nat) :
  ng_paired g ->
  forall k ob, k + len = ng_node_count g -> List.length ob = ng_node_count g ->
  (forall j, j < ng_node_count g ->
     nth_error ob j = Some (if j <? k then output_node g j else false)) ->
  mark_output_nodes g (seq k len) ob = Ok (map (output_node g) (seq 0 (ng_node_count g))).
Proof.
  intros Hp. induction len as [|len IH]; intros k ob Hk Hl Hob; simpl.
  - f_equal. apply nth_error_ext. intros j.
    destruct (Nat.lt_ge_cases j (ng_node_count g)) as [Hj|Hj].
    + rewrite Hob by exact Hj. rewrite nth_error_map, nth_error_seq.
      apply Nat.ltb_lt in Hj as Hj'. rewrite Hj'. replace (j <? k) with true
        by (symmetry; apply Nat.ltb_lt; lia). reflexivity.
    + rewrite (proj2 (nth_error_None ob j)) by lia.
      rewrite nth_error_map, nth_error_seq. replace (j <? ng_node_count g) with false
        by (symmetry; apply Nat.ltb_ge; lia). reflexivity.
  - destruct (Hp k ltac:(lia)) as (m & Hm & Hm').
    rewrite Hm. cbn [ok_or bind].
    pose proof (ng_mirror_node_lt g m k Hm') as Hml.
    unfold vget. rewrite (Hob m Hml). cbn [bind].
    assert (Hom : output_node g m = (m <=? k)) by (unfold output_node; rewrite Hm'; reflexivity).
    assert (Hok : output_node g k = (k <=? m)) by (unfold output_node; rewrite Hm; reflexivity).
    destruct (m <? k) eqn:Hmk.
    + apply Nat.ltb_lt in Hmk. rewrite Hom.
      replace (m <=? k) with true by (symmetry; apply Nat.leb_le; lia). cbn [negb bind].
      apply IH; [lia|exact Hl|]. intros j Hj. rewrite (Hob j Hj).
      destruct (Nat.eq_dec j k) as [->|Hne].
      * rewrite Nat.ltb_irrefl. replace (k <? S k) with true by (symmetry; apply Nat.ltb_lt; lia).
        rewrite Hok. replace (k <=? m) with false by (symmetry; apply Nat.leb_gt; lia).
        reflexivity.
      * assert (E : (j <? k) = (j <? S k))
          by (destruct (Nat.ltb_spec j k), (Nat.ltb_spec j (S k)); auto; lia).
        rewrite E. reflexivity.
    + apply Nat.ltb_ge in Hmk. cbn [negb bind].
      unfold vset. replace (k <? List.length ob) with true
        by (symmetry; apply Nat.ltb_lt; lia). cbn [bind].
      apply IH; [lia|rewrite length_update; exact Hl|]. intros j Hj.
      rewrite nth_error_update by lia.
      destruct (Nat.eq_dec j k) as [->|Hne].
      * rewrite Nat.eqb_refl. replace (k <? S k) with true by (symmetry; apply Nat.ltb_lt; lia).
        rewrite Hok. replace (k <=? m) with true by (symmetry; apply Nat.leb_le; lia).
        reflexivity.
      * replace (j =? k) with false by (symmetry; apply Nat.eqb_neq; exact Hne).
        rewrite (Hob j Hj).
        assert (E : (j <? k) = (j <? S k))
          by (destruct (Nat.ltb_spec j k), (Nat.ltb_spec j (S k)); auto; lia).
        rewrite E. reflexivity.
Qed.

Lemma write_node_record (g : NodeGraph) (store : SequenceStore) (ob : list bool) (n : nat)
    (r : string) :
  write_node g store ob n = Ok r -> node_record g store n r.
Proof.
  unfold write_node. intros H.
  destruct (ng_node_data g n) as [d| |] eqn:Hd; cbn [bind] in H; try discriminate.
  destruct (ok_or _ _) as [m| |]; cbn [bind] in H; try discriminate.
  destruct (map_outcome _ _) as [p| |]; cbn [bind] in H; try discriminate.
  destruct (map_outcome _ _) as [q| |]; cbn [bind] in H; try discriminate.
  unfold write_plain_bcalm2_node_data_to_bcalm2 in H. cbn [bind] in H.
  injection H as <-. do 2 eexists. split; [exact Hd|reflexivity].
Qed.

Lemma write_nodes_records (g : NodeGraph) (store : SequenceStore) (ob : list bool)
    (ns : list nat) (s : string) :
  write_nodes g store ob ns = Ok s ->
  exists recs, s = fold_right String.append EmptyString recs /\
    Forall2 (node_record g store) (filter (fun n => nth n ob false) ns) recs.
Proof.
  revert s. induction ns as [|n ns IH]; intros s H; simpl in H.
  - injection H as <-. exists []. split; [reflexivity|constructor].
  - destruct (vget ob n) as [b| |] eqn:Hb; cbn [bind] in H; try discriminate.
    unfold vget in Hb. destruct (nth_error ob n) eqn:Hn; [|discriminate].
    injection Hb as <-. apply nth_error_nth with (d := false) in Hn.
    destruct (if b0 then write_node g store ob n else Ok EmptyString) as [r| |] eqn:Hr;
      cbn [bind] in H; try discriminate.
    destruct (write_nodes g store ob ns) as [rest| |]; cbn [bind] in H; try discriminate.
    injection H as <-. destruct (IH rest eq_refl) as (recs & -> & Hf).
    simpl. rewrite Hn. destruct b0.
    + exists (r :: recs). split; [reflexivity|]. constructor; [|exact Hf].
      exact (write_node_record _ _ _ _ _ Hr).
    + injection Hr as <-. exists recs. split; [reflexivity|exact Hf].
Qed.

(** X11: on a graph whose nodes are paired with their mirrors, the node-centric writer writes exactly one record per mirror pair, for the smaller node, in node order. *)
Theorem node_centric_writer_writes_one_node_per_pair (g : NodeGraph) (store : SequenceStore)
    (s : string) :
  ng_paired g ->
  write_node_centric_bigraph_to_bcalm2 g store = Ok s ->
  exists recs, s = fold_right String.append EmptyString recs /\
    Forall2 (node_record g store)
      (filter (fun n => match ng_mirror_node g n with Some m => n <=? m | None => false end)
         (seq 0 (ng_node_count g))) recs.
Proof.
  intros Hp. unfold write_node_centric_bigraph_to_bcalm2.
  rewrite (mark_output_nodes_paired g (ng_node_count g) Hp 0 _ eq_refl (repeat_length _ _)).
  2:{ intros j Hj. simpl. apply nth_error_repeat. exact Hj. }
  cbn [bind]. intros H. destruct (write_nodes_records _ _ _ _ _ H) as (recs & -> & Hf).
  exists recs. split; [reflexivity|].
  replace (filter (fun n => match ng_mirror_node g n with Some m => n <=? m | None => false end)
             (seq 0 (ng_node_count g)))
    with (filter (fun n => nth n (map (output_node g) (seq 0 (ng_node_count g))) false)
             (seq 0 (ng_node_count g))); [exact Hf|].
  apply filter_ext_in. intros n Hn. apply in_seq in Hn.
  rewrite nth_indep with (d' := output_node g 0) by (rewrite length_map, length_seq; lia).
  rewrite map_nth, seq_nth by lia. reflexivity.
Qed.

Lemma mark_output_nodes_result (g : NodeGraph) (ns : list nat) :
  forall ob,
  (forall n m, ng_mirror_node g n = Some m -> m < ng_node_count g) ->
  (forall n, In n ns -> n < ng_node_count g) ->
  List.length ob = ng_node_count g ->
  ((forall n, In n ns -> ng_mirror_node g n <> None) ->
     exists ob', mark_output_nodes g ns ob = Ok ob' /\ List.length ob' = ng_node_count g) /\
  ((exists n, In n ns /\ ng_mirror_node g n = None) ->
     mark_output_nodes g ns ob = Err BCalm2NodeWithoutMirror).
Proof.
  induction ns as [|n ns IH]; intros ob Hm Hns Hl; simpl.
  - split; [eauto|]. intros (? & [] & _).
  - destruct (ng_mirror_node g n) as [m|] eqn:Hmn; cbn [ok_or bind].
    + destruct (vget_lt ob m ltac:(rewrite Hl; exact (Hm n m Hmn))) as [bm Hbm].
      rewrite Hbm. cbn [bind].
      assert (Hn : n < ng_node_count g) by (apply Hns; left; reflexivity).
      set (ob' := if negb bm then update ob n true else ob).
      assert (Hob : (if negb bm then vset ob n true else Ok ob) = Ok ob')
        by (subst ob'; destruct (negb bm); [apply vset_lt; lia|reflexivity]).
      rewrite Hob. cbn [bind].
      assert (Hl' : List.length ob' = ng_node_count g)
        by (subst ob'; destruct (negb bm); [rewrite length_update|]; assumption).
      destruct (IH ob' Hm (fun n' H => Hns n' (or_intror H)) Hl') as [IH1 IH2].
      split.
      * intros Hall. apply IH1. intros; apply Hall; right; assumption.
      * intros (n' & [<-|Hin] & Hn'); [congruence|]. apply IH2. eauto.
    + split; [|reflexivity]. intros Hall. exfalso. apply (Hall n); auto.
Qed.

Lemma write_node_ok (g : NodeGraph) (store : SequenceStore) (ob : list bool) (n : nat) :
  ng_well_formed g ->
  (forall n', n' < ng_node_count g -> ng_mirror_node g n' <> None) ->
  List.length ob = ng_node_count g -> n < ng_node_count g ->
  exists s, write_node g store ob n = Ok s.
Proof.
  intros [Hm He] Hall Hl Hn. unfold write_node, ng_node_data.
  destruct (nth_error (node_entries g) n) as [[d o]|] eqn:Hd;
    [|apply nth_error_None in Hd; unfold ng_node_count in Hn; lia].
  cbn [bind].
  destruct (ng_mirror_node g n) as [m|] eqn:Hmn; [|exfalso; exact (Hall n Hn Hmn)].
  cbn [ok_or bind].
  assert (Hnb : forall side k, exists bs,
             map_outcome (node_neighbor_tuple g ob side) (ng_out_neighbors g k) = Ok bs).
  { intros side k. apply map_outcome_ok. intros t Hin.
    unfold ng_out_neighbors in Hin. apply in_rev, in_map_iff in Hin as (e & <- & Hin).
    apply filter_In in Hin as [Hin _]. pose proof (He e Hin) as Ht.
    unfold node_neighbor_tuple.
    destruct (vget_lt ob (snd e) ltac:(lia)) as [b Hb]. rewrite Hb. cbn [bind].
    destruct b; cbn [bind].
    - eauto.
    - destruct (ng_mirror_node g (snd e)) as [m'|] eqn:Hm';
        [|exfalso; exact (Hall _ Ht Hm')].
      cbn [ok_or bind]. eauto. }
  destruct (Hnb true n) as [p ->]. cbn [bind].
  destruct (Hnb false m) as [q ->]. cbn [bind].
  unfold write_plain_bcalm2_node_data_to_bcalm2. cbn [bind]. eauto.
Qed.

Lemma write_nodes_ok (g : NodeGraph) (store : SequenceStore) (ob : list bool) (ns : list nat) :
  ng_well_formed g ->
  (forall n', n' < ng_node_count g -> ng_mirror_node g n' <> None) ->
  List.length ob = ng_node_count g -> (forall n, In n ns -> n < ng_node_count g) ->
  exists s, write_nodes g store ob ns = Ok s.
Proof.
  intros Hw Hall Hl. induction ns as [|n ns IH]; intros Hns; simpl; [eauto|].
  assert (Hn : n < ng_node_count g) by (apply Hns; left; reflexivity).
  destruct (vget_lt ob n ltac:(lia)) as [b ->]. cbn [bind].
  destruct (IH (fun n' H => Hns n' (or_intror H))) as [rest Hr].
  destruct b.
  - destruct (write_node_ok g store ob n Hw Hall Hl Hn) as [s ->]. cbn [bind].
    rewrite Hr. cbn [bind]. eauto.
  - cbn [bind]. rewrite Hr. cbn [bind]. eauto.
Qed.

(** X12: on a well-formed graph, the node-centric writer succeeds when every node has a mirror node, and returns [BCalm2NodeWithoutMirror] otherwise. *)
Theorem node_centric_writer_fails_only_without_mirror_node (g : NodeGraph)
    (store : SequenceStore) :
  ng_well_formed g ->
  ((forall n, n < ng_node_count g -> ng_mirror_node g n <> None) ->
     exists s, write_node_centric_bigraph_to_bcalm2 g store = Ok s) /\
  ((exists n, n < ng_node_count g /\ ng_mirror_node g n = None) ->
     write_node_centric_bigraph_to_bcalm2 g store = Err BCalm2NodeWithoutMirror).
Proof.
  intros Hw. unfold write_node_centric_bigraph_to_bcalm2.
  assert (Hin : forall n, In n (seq 0 (ng_node_count g)) -> n < ng_node_count g)
    by (intros n H; apply in_seq in H; lia).
  destruct (mark_output_nodes_result g (seq 0 (ng_node_count g))
              (repeat false (ng_node_count g)) (proj1 Hw) Hin (repeat_length _ _)) as [H1 H2].
  split.
  - intros Hall. destruct H1 as (ob & -> & Hl); [intros n Hn; apply Hall, Hin, Hn|].
    cbn [bind]. apply write_nodes_ok; assumption.
  - intros (n & Hn & Hnone). rewrite H2; [reflexivity|].
    exists n. split; [apply in_seq; lia|exact Hnone].
Qed.

Lemma ascii_to_character_inv (b : ascii) (c : DnaCharacter) :
  ascii_to_character b = Some c -> character_to_ascii c = b.
Proof.
  unfold ascii_to_character.
  destruct (Ascii.eqb b "A") eqn:HA; [apply Ascii.eqb_eq in HA; intros [= <-]; auto|].
  destruct (Ascii.eqb b "C") eqn:HC; [apply Ascii.eqb_eq in HC; intros [= <-]; auto|].
  destruct (Ascii.eqb b "G") eqn:HG; [apply Ascii.eqb_eq in HG; intros [= <-]; auto|].
  destruct (Ascii.eqb b "T") eqn:HT; [apply Ascii.eqb_eq in HT; intros [= <-]; auto|].
  discriminate.
Qed.

Lemma encode_decode (bytes : list ascii) (s : Genome) :
  decode bytes = Some s -> map character_to_ascii s = bytes.
Proof.
  revert s. induction bytes as [|b bs IH]; intros s H; simpl in H.
  - injection H as <-. reflexivity.
  - destruct (ascii_to_character b) as [c|] eqn:Hc; [|discriminate].
    destruct (decode bs) as [s'|]; [|discriminate].
    injection H as <-. simpl. rewrite (ascii_to_character_inv _ _ Hc), (IH s' eq_refl).
    reflexivity.
Qed.

Lemma mark_output_edges_involutive (g : Graph) (len : nat) :
  (forall e, e < edge_count g -> exists f,
     mirror_edge_edge_centric g e = Some f /\ mirror_edge_edge_centric g f = Some e) ->
  forall k ob, k + len = edge_count g -> List.length ob = edge_count g ->
  (forall j, j < edge_count g ->
     nth_error ob j = Some (if j <? k then edge_output g j else false)) ->
  mark_output_edges g (seq k len) ob = Ok (map (edge_output g) (seq 0 (edge_count g))).
Proof.
  intros Hp. induction len as [|len IH]; intros k ob Hk Hl Hob; simpl.
  - f_equal. apply nth_error_ext. intros j.
    destruct (Nat.lt_ge_cases j (edge_count g)) as [Hj|Hj].
    + rewrite Hob by exact Hj. rewrite nth_error_map, nth_error_seq.
      apply Nat.ltb_lt in Hj as Hj'. rewrite Hj'. replace (j <? k) with true
        by (symmetry; apply Nat.ltb_lt; lia). reflexivity.
    + rewrite (proj2 (nth_error_None ob j)) by lia.
      rewrite nth_error_map, nth_error_seq. replace (j <? edge_count g) with false
        by (symmetry; apply Nat.ltb_ge; lia). reflexivity.
  - destruct (Hp k ltac:(lia)) as (m & Hm & Hm').
    rewrite Hm. cbn [ok_or bind].
    pose proof (mirror_edge_lt g k m Hm) as Hml.
    unfold vget. rewrite (Hob m Hml). cbn [bind].
    assert (Hom : edge_output g m = (m <=? k)) by (unfold edge_output; rewrite Hm'; reflexivity).
    assert (Hok : edge_output g k = (k <=? m)) by (unfold edge_output; rewrite Hm; reflexivity).
    destruct (m <? k) eqn:Hmk.
    + apply Nat.ltb_lt in Hmk. rewrite Hom.
      replace (m <=? k) with true by (symmetry; apply Nat.leb_le; lia). cbn [negb bind].
      apply IH; [lia|exact Hl|]. intros j Hj. rewrite (Hob j Hj).
      destruct (Nat.eq_dec j k) as [->|Hne].
      * rewrite Nat.ltb_irrefl. replace (k <? S k) with true by (symmetry; apply Nat.ltb_lt; lia).
        rewrite Hok. replace (k <=? m) with false by (symmetry; apply Nat.leb_gt; lia).
        reflexivity.
      * assert (E : (j <? k) = (j <? S k))
          by (destruct (Nat.ltb_spec j k), (Nat.ltb_spec j (S k)); auto; lia).
        rewrite E. reflexivity.
    + apply Nat.ltb_ge in Hmk. cbn [negb bind].
      unfold vset. replace (k <? List.length ob) with true
        by (symmetry; apply Nat.ltb_lt; lia). cbn [bind].
      apply IH; [lia|rewrite length_update; exact Hl|]. intros j Hj.
      rewrite nth_error_update by lia.
      destruct (Nat.eq_dec j k) as [->|Hne].
      * rewrite Nat.eqb_refl. replace (k <? S k) with true by (symmetry; apply Nat.ltb_lt; lia).
        rewrite Hok. replace (k <=? m) with true by (symmetry; apply Nat.leb_le; lia).
        reflexivity.
      * replace (j =? k) with false by (symmetry; apply Nat.eqb_neq; exact Hne).
        rewrite (Hob j Hj).
        assert (E : (j <? k) = (j <? S k))
          by (destruct (Nat.ltb_spec j k), (Nat.ltb_spec j (S k)); auto; lia).
        rewrite E. reflexivity.
Qed.

Lemma write_edge_record (g : Graph) (store : SequenceStore) (ob : list bool) (e : nat)
    (r : string) :
  write_edge g store ob e = Ok r -> edge_record g store e r.
Proof.
  unfold write_edge, graph_edge, vget. intros H.
  destruct (nth_error (graph_edges g) e) as [ed|] eqn:Hd; cbn [bind] in H; try discriminate.
  destruct (ok_or _ _) as [m| |]; cbn [bind] in H; try discriminate.
  destruct (nth_error (graph_edges g) m); cbn [bind] in H; try discriminate.
  destruct (map_outcome _ _) as [pl| |]; cbn [bind] in H; try discriminate.
  destruct (map_outcome _ _) as [mi| |]; cbn [bind] in H; try discriminate.
  unfold write_plain_bcalm2_node_data_to_bcalm2 in H. cbn [bind] in H.
  injection H as <-. do 2 eexists. split; [exact Hd|reflexivity].
Qed.

Lemma write_edges_records (g : Graph) (store : SequenceStore) (ob : list bool)
    (es : list nat) (s : string) :
  write_edges g store ob es = Ok s ->
  exists recs, s = fold_right String.append EmptyString recs /\
    Forall2 (edge_record g store) (filter (fun e => nth e ob false) es) recs.
Proof.
  revert s. induction es as [|e es IH]; intros s H; simpl in H.
  - injection H as <-. exists []. split; [reflexivity|constructor].
  - destruct (vget ob e) as [b| |] eqn:Hb; cbn [bind] in H; try discriminate.
    unfold vget in Hb. destruct (nth_error ob e) eqn:Hn; [|discriminate].
    injection Hb as <-. apply nth_error_nth with (d := false) in Hn.
    destruct (if b0 then write_edge g store ob e else Ok EmptyString) as [r| |] eqn:Hr;
      cbn [bind] in H; try discriminate.
    destruct (write_edges g store ob es) as [rest| |]; cbn [bind] in H;
      try discriminate.
    injection H as <-. destruct (IH rest eq_refl) as (recs & -> & Hf).
    simpl. rewrite Hn. destruct b0.
    + exists (r :: recs). split; [reflexivity|]. constructor; [|exact Hf].
      exact (write_edge_record _ _ _ _ _ Hr).
    + injection Hr as <-. exists recs. split; [reflexivity|exact Hf].
Qed.

Lemma loop_parse_records (kmer_size : nat) (rs : list FastaRecord) :
  forall store nm g nm' g' store',
  edge_centric_loop kmer_size rs store nm g = Ok (nm', g', store') ->
  exists ds, parse_records rs store = Ok (ds, store').
Proof.
  induction rs as [|r rs IH]; intros store nm g nm' g' store' H; simpl in H |- *.
  - injection H as _ _ <-. eauto.
  - destruct (parse_bcalm2_fasta_record r store) as [[d st]| |]; cbn [bind] in H |- *;
      try discriminate.
    destruct (build_step kmer_size st d nm g) as [[nm1 g1]| |]; cbn [bind] in H;
      try discriminate.
    destruct (IH _ _ _ _ _ _ H) as [ds ->]. cbn [bind]. eauto.
Qed.

Lemma parse_records_store (rs : list FastaRecord) :
  forall store ds store', parse_records rs store = Ok (ds, store') ->
  forall i r, nth_error rs i = Some r ->
  exists g0, decode (record_seq r) = Some g0 /\
    store_get store' (List.length store + i) = g0.
Proof.
  induction rs as [|r0 rs IH]; intros store ds store' H i r Hi; [destruct i; discriminate|].
  simpl in H.
  destruct (parse_bcalm2_fasta_record r0 store) as [[d st]| |] eqn:Hp;
    cbn [bind] in H; try discriminate.
  destruct (parse_records rs st) as [[ds1 st1]| |] eqn:Hq; cbn [bind] in H;
    try discriminate.
  injection H as _ <-.
  destruct (parse_ok_inv _ _ _ _ Hp) as (g0 & Hd & -> & _).
  destruct i as [|i]; simpl in Hi.
  - injection Hi as <-. exists g0. split; [exact Hd|].
    destruct (parse_records_prefix _ _ _ _ Hq) as (rest & ->).
    rewrite Nat.add_0_r, store_get_app by (rewrite List.length_app; simpl; lia).
    apply store_get_last.
  - destruct (IH _ _ _ Hq i r Hi) as (g1 & H1 & H2). exists g1. split; [exact H1|].
    rewrite List.length_app in H2. simpl in H2. rewrite <- H2. f_equal. lia.
Qed.

Lemma Forall2_seq_nth {A B : Type} (P : nat -> B -> Prop) (Q : A -> B -> Prop) (l : list A) :
  forall k (ys : list B), Forall2 P (seq k (List.length l)) ys ->
  (forall i x y, nth_error l i = Some x -> P (k + i) y -> Q x y) ->
  Forall2 Q l ys.
Proof.
  induction l as [|x l IH]; intros k ys H HPQ; simpl in H; inversion H; subst; constructor.
  - apply (HPQ 0 x); [reflexivity|]. rewrite Nat.add_0_r. assumption.
  - apply (IH (S k)); [assumption|]. intros i0 x0 y0 Hi Hp. apply (HPQ (S i0) x0 y0 Hi).
    rewrite Nat.add_succ_r. exact Hp.
Qed.

Lemma Forall2_map_l_inv {A A' B : Type} (f : A -> A') (P : A' -> B -> Prop)
    (l : list A) (ys : list B) :
  Forall2 P (map f l) ys -> Forall2 (fun x y => P (f x) y) l ys.
Proof.
  revert ys. induction l as [|x l IH]; intros ys H; simpl in H; inversion H; subst;
    constructor; auto.
Qed.

Lemma filter_even_seq (p : nat -> bool) (n : nat) :
  (forall e, e < n * 2 -> p e = Nat.even e) ->
  filter p (seq 0 (n * 2)) = map (fun i => i * 2) (seq 0 n).
Proof.
  induction n as [|n IH]; intros Hp; [reflexivity|].
  replace (S n * 2) with (n * 2 + 2) by lia.
  rewrite seq_app, filter_app, IH by (intros e He; apply Hp; lia).
  rewrite (seq_S n 0), map_app. f_equal. simpl.
  rewrite (Hp (n * 2)) by lia. rewrite (Hp (S (n * 2))) by lia.
  rewrite Nat.even_succ, <- Nat.negb_even, (Nat.even_mul n 2), orb_true_r. reflexivity.
Qed.

(** X13: reading records with the edge-centric reader and writing the graph back writes one record per input record, in order, with the same id number and sequence. *)
Theorem read_write_reproduces_records (records : list FastaRecord) (store : SequenceStore)
    (kmer_size : nat) (s : string) :
  read_then_write read_bigraph_from_bcalm2_as_edge_centric
    records store kmer_size = Ok s ->
  exists recs, s = fold_right String.append EmptyString recs /\
    Forall2 (fun r rec => exists n desc, parse_usize (record_id r) = Some n /\
               rec = fasta_entry (nat_to_string n) desc (string_of_list_ascii (record_seq r)))
      records recs.
Proof.
  unfold read_then_write, read_bigraph_from_bcalm2_as_edge_centric.
  destruct (edge_centric_loop kmer_size records store [] empty_graph)
    as [[[nm g] st]| |] eqn:Hl; cbn [bind]; try discriminate.
  intros Hw.
  destruct (loop_parse_records _ _ _ _ _ _ _ _ Hl) as [ds Hds].
  destruct (loop_general _ _ _ _ _ _ _ _ Hl registered_empty)
    as (q & Hlq & He & _ & _ & _ & _ & Hq). simpl in He.
  assert (Hq' : forall i a a' b b' d, nth_error q i = Some (a, a', b, b', d) ->
            mirror_node g a = Some a' /\ mirror_node g a' = Some a /\
            mirror_node g b = Some b' /\ mirror_node g b' = Some b /\
            sequence_handle d = List.length store + i /\ forwards d = true).
  { intros i a a' b b' d Hqi.
    destruct (Hq _ _ _ _ _ _ Hqi) as (H1 & H2 & H3 & H4 & H5 & H6 & _).
    repeat split; assumption. }
  pose proof (pair_graph_mirror_edges g q (List.length store) He Hq') as Hm.
  assert (Hcount : edge_count g = List.length records * 2)
    by (unfold edge_count; rewrite He, length_flat_map_pair, Hlq; reflexivity).
  assert (Hpart : forall e, e < edge_count g -> exists f,
             mirror_edge_edge_centric g e = Some f /\
             ((Nat.even e = true /\ e < f) \/ (Nat.even e = false /\ f < e))).
  { intros e Hel. destruct (Hm e Hel) as (f & _ & _ & Hf & i & [[E1 E2]|[E1 E2]]);
      exists f; (split; [exact Hf|]); subst e f.
    - left. split; [rewrite Nat.even_mul, orb_true_r; reflexivity|lia].
    - right. split; [|lia].
      rewrite Nat.even_add, Nat.even_mul, orb_true_r. reflexivity. }
  assert (Hinv : forall e, e < edge_count g -> exists f,
             mirror_edge_edge_centric g e = Some f /\ mirror_edge_edge_centric g f = Some e).
  { intros e Hel. destruct (Hm e Hel) as (f & _ & _ & Hf & i & Hi). exists f.
    split; [exact Hf|].
    assert (Hfl : f < edge_count g) by (rewrite Hcount in Hel |- *; destruct Hi; lia).
    destruct (Hm f Hfl) as (e' & _ & _ & He' & j & Hj).
    replace e with e'; [exact He'|]. destruct Hi as [[E1 E2]|[E1 E2]]; destruct Hj; lia. }
  unfold write_edge_centric_bigraph_to_bcalm2 in Hw.
  rewrite (mark_output_edges_involutive g (edge_count g) Hinv 0 _ eq_refl (repeat_length _ _))
    in Hw.
  2:{ intros j Hj. simpl. apply nth_error_repeat. exact Hj. }
  cbn [bind] in Hw. destruct (write_edges_records _ _ _ _ _ Hw) as (recs & -> & Hf).
  exists recs. split; [reflexivity|].
  rewrite Hcount, (filter_even_seq _ (List.length records)) in Hf.
  2:{ intros e He'. rewrite <- Hcount in He'.
      rewrite nth_indep with (d' := edge_output g 0)
        by (rewrite length_map, length_seq; lia).
      rewrite map_nth, seq_nth by lia. rewrite Nat.add_0_l. unfold edge_output.
      destruct (Hpart e He') as (f & -> & [[-> Hlt]|[-> Hlt]]).
      - apply Nat.leb_le. lia.
      - apply Nat.leb_gt. lia. }
  apply Forall2_map_l_inv in Hf.
  apply (Forall2_seq_nth _ _ records 0 recs Hf).
  intros i r rec Hr (ed & desc & Hed & ->). cbn [Nat.add] in Hed.
  assert (Hi : i < List.length q) by (rewrite Hlq; apply nth_error_Some; congruence).
  destruct (nth_error q i) as [[[[[a a'] b] b'] d]|] eqn:Hqi;
    [|apply nth_error_None in Hqi; lia].
  destruct (Hq _ _ _ _ _ _ Hqi)
    as (_ & _ & _ & _ & Hh & Hfw & (r' & s1 & s2 & Hr' & Hp & Hid) & _).
  rewrite Hr in Hr'. injection Hr' as <-.
  destruct (nth_error_flat_map_pair _ _ _ _ _ _ _ Hqi) as [E0 _].
  rewrite He, E0 in Hed. injection Hed as <-.
  exists (id d), desc. split; [exact Hid|]. cbn [edge_data].
  unfold sequence_owned. rewrite Hfw, Hh.
  destruct (parse_ok_inv _ _ _ _ Hp) as (g0 & Hd & _).
  destruct (parse_records_store _ _ _ _ Hds i r Hr) as (g1 & Hd1 & Hs1).
  rewrite Hd in Hd1. injection Hd1 as <-. rewrite Hs1.
  unfold genome_to_string. rewrite (encode_decode _ _ Hd). reflexivity.
Qed.


(** X1: printing a number with [write!("{}")] and parsing it back with
    [usize::from_str] gives the number back when it fits 64 bits, and fails
    otherwise. *)
Theorem parse_usize_nat_to_string (n : nat) :
  parse_usize (nat_to_string n) = if (N.of_nat n <? 2 ^ 64)%N then Some n else None.
Proof. exact (parse_usize_of_nat_to_string n). Qed.

(** X4: a graph returned by the edge-centric reader has every node paired
    with its mirror node and every edge with a mirror edge. *)
Theorem edge_centric_reader_output_passes_checks (records : list FastaRecord)
    (store store' : SequenceStore) (kmer_size : nat) (g : Graph) :
  read_bigraph_from_bcalm2_as_edge_centric records store kmer_size = Ok (g, store') ->
  verify_node_pairing g = true /\ verify_edge_mirror_property g = true.
Proof. apply edge_centric_output_verified. Qed.

End Bcalm2.

(* ------------------------------------------------------------------ *)
(** ** Concrete instances *)

(** C7: [Normal 3 3] is its own mirror but is neither [Unmapped] nor a
    [SelfMirror]. *)
Lemma mirror_fixed_point_normal_counterexample :
  mirror (Normal 3 3) = Normal 3 3 /\ Normal 3 3 <> Unmapped /\
  (forall n, Normal 3 3 <> SelfMirror n).
Proof. split; [reflexivity|]. split; [discriminate|]. intros n; discriminate. Qed.

(** C10: the record [>0] with sequence [AXG]. *)
Lemma parse_panics_on_invalid_character_witness :
  parse_usize "0" = Some 0 /\
  parse_bcalm2_fasta_record unit (fun _ => None) (fasta_record "0" "" "AXG") [] = Panic.
Proof.
  split; [reflexivity|].
  apply (parse_panics_on_invalid_character unit (fun _ => None)
           (fasta_record "0" "" "AXG") [] 0); [reflexivity|].
  exists "X"%char. split; [simpl; auto|reflexivity].
Defined.

(** C6: the record [>0 LN:i:5 Q] with sequence [ACG] declares the length 5
    for a sequence of length 3, and is rejected for the unknown parameter
    [Q], not with a length-mismatch error. *)
Lemma length_error_unknown_parameter_counterexample :
  description_parameters unit (fun _ => None) (fasta_record "0" "LN:i:5 Q" "ACG")
  = Err (BCalm2UnknownParameterError "Q") /\
  parse_bcalm2_fasta_record unit (fun _ => None) (fasta_record "0" "LN:i:5 Q" "ACG") []
  = Err (BCalm2UnknownParameterError "Q").
Proof. split; vm_compute; reflexivity. Qed.

(** C6: [>0 LN:i:5] with [ACG] gives the length error, [>0 LN:i:3] with
    [ACG] is accepted. *)
Lemma length_error_iff_length_mismatch_witness :
  parse_bcalm2_fasta_record unit (fun _ => None) (fasta_record "0" "LN:i:5" "ACG") []
  = Err (BCalm2LengthError 5 3) /\
  exists d store',
    parse_bcalm2_fasta_record unit (fun _ => None) (fasta_record "0" "LN:i:3" "ACG") []
    = Ok (d, store').
Proof.
  split.
  - apply (proj1 (proj2 (length_error_iff_length_mismatch unit (fun _ => None))
                    (fasta_record "0" "LN:i:5" "ACG") [] 0 [DA; DC; DG]
                    (Some 5) None None [] eq_refl eq_refl eq_refl) 5 eq_refl).
    simpl. lia.
  - apply (proj2 (proj2 (length_error_iff_length_mismatch unit (fun _ => None))
                    (fasta_record "0" "LN:i:3" "ACG") [] 0 [DA; DC; DG]
                    (Some 3) None None [] eq_refl eq_refl eq_refl)).
    right. reflexivity.
Defined.

(** C3: [ATGAT] is not its own reverse complement ([ATCAT]), yet with
    [k = 3] its 2-prefix [AT] equals the 2-prefix of its reverse
    complement: reading the single record [>0] [ATGAT] gives the tail slot
    the mirror of the head slot and creates only one binode (two nodes). *)
Lemma tail_shortcut_not_whole_sequence_counterexample :
  reverse_complement [DA; DT; DG; DA; DT] <> [DA; DT; DG; DA; DT] /\
  edge_is_self_mirror 3 [DA; DT; DG; DA; DT] = true /\
  match edge_centric_loop unit (fun _ => None) 3 [fasta_record "0" "" "ATGAT"] []
          [] (empty_graph unit) with
  | Ok (node_map, g, _) => node_map = [Normal 0 1; Normal 1 0] /\ node_count unit g = 2
  | _ => False
  end.
Proof.
  split; [vm_compute; discriminate|]. split; vm_compute; auto.
Qed.

(** C3: [ACGT] equals its reverse complement, so the shortcut condition
    holds for every [k]; on a map whose tail slot is [Unmapped] the tail
    block with the shortcut is the copy of the mirrored head slot. *)
Lemma tail_shortcut_condition_witness :
  edge_is_self_mirror 3 [DA; DC; DG; DT] = true /\
  resolve_tail unit 0 1 false true [] [Normal 0 1; Unmapped] (empty_graph unit)
  = Ok ([Normal 0 1; Normal 1 0], empty_graph unit).
Proof.
  split.
  - apply (proj1 (proj2 (tail_shortcut_condition unit))). reflexivity.
  - rewrite (proj1 (proj2 (proj2 (tail_shortcut_condition unit)))
               0 1 false [] [Normal 0 1; Unmapped] (empty_graph unit) eq_refl).
    reflexivity.
Defined.

(** C5: reading [>0 L:+:1:+] [AGT] and [>1 L:-:0:-] [GTC] with [k = 3]
    succeeds, gives four edges, and the first has a mirror edge. *)
Lemma every_edge_has_exactly_one_mirror_witness :
  exists g store',
    read_bigraph_from_bcalm2_as_edge_centric unit (fun _ => None)
      [fasta_record "0" "L:+:1:+" "AGT"; fasta_record "1" "L:-:0:-" "GTC"] [] 3
    = Ok (g, store') /\
    edge_count unit g = 4 /\
    exists f, mirror_edge_edge_centric unit g 0 = Some f.
Proof.
  destruct (read_bigraph_from_bcalm2_as_edge_centric unit (fun _ => None)
      [fasta_record "0" "L:+:1:+" "AGT"; fasta_record "1" "L:-:0:-" "GTC"] [] 3)
    as [[g st]| |] eqn:H; [|vm_compute in H; discriminate..].
  exists g, st. split; [reflexivity|].
  destruct (every_edge_has_exactly_one_mirror unit (fun _ => None) _ _ _ _ _ H)
    as (Hc & _ & Hm).
  split; [rewrite Hc; reflexivity|].
  destruct (Hm 0) as (f & _ & _ & Hf); [rewrite Hc; simpl; lia|].
  exists f. exact Hf.
Defined.

(** C2: the records [0]..[3] map the head slot [6] of record [3] to
    [Normal 6 7]; reading record [4] (declared neighbor of [2] and [3] on
    the [+] side) rewrites that mapped slot to [Normal 2 3]. *)
Lemma mapped_slot_reassigned_counterexample :
  match edge_centric_loop unit (fun _ => None) 3
          [fasta_record "0" "L:+:2:+" "AAC"; fasta_record "1" "L:+:3:+" "GGC";
           fasta_record "2" "L:-:0:- L:-:4:-" "CAT";
           fasta_record "3" "L:-:1:- L:-:4:-" "CAG"] [] [] (empty_graph unit) with
  | Ok (nm1, g1, st1) =>
      slot nm1 6 = Normal 6 7 /\
      match edge_centric_loop unit (fun _ => None) 3
              [fasta_record "4" "L:+:2:+ L:+:3:+" "CCA"] st1 nm1 g1 with
      | Ok (nm2, _, _) => slot nm2 6 = Normal 2 3
      | _ => False
      end
  | _ => False
  end.
Proof. vm_compute. split; reflexivity. Qed.

(** C2: reading the records [0]..[3], then [4], maps both slots of
    record [4]. *)
Lemma slot_never_unmapped_again_but_reassigned_witness :
  exists nm1 g1 st1 nm2 g2 st2,
    edge_centric_loop unit (fun _ => None) 3
      [fasta_record "0" "L:+:2:+" "AAC"; fasta_record "1" "L:+:3:+" "GGC";
       fasta_record "2" "L:-:0:- L:-:4:-" "CAT";
       fasta_record "3" "L:-:1:- L:-:4:-" "CAG"] [] [] (empty_graph unit)
    = Ok (nm1, g1, st1) /\
    edge_centric_loop unit (fun _ => None) 3
      [fasta_record "4" "L:+:2:+ L:+:3:+" "CCA"] st1 nm1 g1 = Ok (nm2, g2, st2) /\
    slot nm2 (4 * 2) <> Unmapped /\ slot nm2 (4 * 2 + 1) <> Unmapped.
Proof.
  destruct (edge_centric_loop unit (fun _ => None) 3
      [fasta_record "0" "L:+:2:+" "AAC"; fasta_record "1" "L:+:3:+" "GGC";
       fasta_record "2" "L:-:0:- L:-:4:-" "CAT";
       fasta_record "3" "L:-:1:- L:-:4:-" "CAG"] [] [] (empty_graph unit))
    as [[[nm1 g1] st1]| |] eqn:H1; [|vm_compute in H1; discriminate..].
  destruct (edge_centric_loop unit (fun _ => None) 3
      [fasta_record "4" "L:+:2:+ L:+:3:+" "CCA"] st1 nm1 g1)
    as [[[nm2 g2] st2]| |] eqn:H2;
    [|vm_compute in H1; injection H1 as <- <- <-; vm_compute in H2; discriminate..].
  exists nm1, g1, st1, nm2, g2, st2. split; [reflexivity|]. split; [exact H2|].
  apply (proj2 (proj1 (slot_never_unmapped_again_but_reassigned unit (fun _ => None))
                  3 _ _ [] nm1 g1 st1 nm2 g2 st2 H1 H2) (fasta_record "4" "L:+:2:+ L:+:3:+" "CCA") 4).
  - apply in_or_app. right. left. reflexivity.
  - reflexivity.
Defined.

(** C1: [>0 L:+:1:+] [AGT] and [>1 L:-:0:-] [GTC] with [k = 3]: the ids
    are [0, 1] and the declared links are the 2-overlaps ([GT]); both
    readers succeed, and reading then writing gives the same text. *)
Lemma readers_agree_on_overlap_inputs_witness :
  exists ds st' g2 s2,
    parse_records unit (fun _ => None)
      [fasta_record "0" "L:+:1:+" "AGT"; fasta_record "1" "L:-:0:-" "GTC"] []
    = Ok (ds, st') /\
    overlap_adjacency unit 3 ds st' /\
    read_bigraph_from_bcalm2_as_edge_centric_old unit (fun _ => None)
      [fasta_record "0" "L:+:1:+" "AGT"; fasta_record "1" "L:-:0:-" "GTC"] [] 3
    = Ok (g2, s2) /\
    read_then_write unit (fun _ => EmptyString)
      (read_bigraph_from_bcalm2_as_edge_centric unit (fun _ => None))
      [fasta_record "0" "L:+:1:+" "AGT"; fasta_record "1" "L:-:0:-" "GTC"] [] 3
    = read_then_write unit (fun _ => EmptyString)
        (read_bigraph_from_bcalm2_as_edge_centric_old unit (fun _ => None))
        [fasta_record "0" "L:+:1:+" "AGT"; fasta_record "1" "L:-:0:-" "GTC"] [] 3.
Proof.
  destruct (parse_records unit (fun _ => None)
      [fasta_record "0" "L:+:1:+" "AGT"; fasta_record "1" "L:-:0:-" "GTC"] [])
    as [[ds st']| |] eqn:Hp; [|vm_compute in Hp; discriminate..].
  destruct (read_bigraph_from_bcalm2_as_edge_centric_old unit (fun _ => None)
      [fasta_record "0" "L:+:1:+" "AGT"; fasta_record "1" "L:-:0:-" "GTC"] [] 3)
    as [[g2 s2]| |] eqn:Ho; [|vm_compute in Ho; discriminate..].
  assert (Hov : overlap_adjacency unit 3 ds st').
  { apply overlap_adjacency_b_sound. vm_compute in Hp. injection Hp as <- <-.
    vm_compute. reflexivity. }
  exists ds, st', g2, s2. split; [reflexivity|]. split; [exact Hov|]. split; [reflexivity|].
  exact (readers_agree_on_overlap_inputs unit (fun _ => None) (fun _ => EmptyString)
           _ [] 3 ds st' g2 s2 Hp Hov Ho).
Defined.

(** C1: the single record [>0] [AAA] with no declared link, [k = 3], is
    read by both readers; the old reader links the 2-mer [AA] to itself
    and writes [L:+:0:+ L:-:0:-], the new reader follows the (absent)
    declared links and writes none. *)
Lemma readers_differ_on_undeclared_overlap_counterexample :
  exists o1 o2,
    read_then_write unit (fun _ => EmptyString)
      (read_bigraph_from_bcalm2_as_edge_centric unit (fun _ => None))
      [fasta_record "0" "" "AAA"] [] 3 = Ok o1 /\
    read_then_write unit (fun _ => EmptyString)
      (read_bigraph_from_bcalm2_as_edge_centric_old unit (fun _ => None))
      [fasta_record "0" "" "AAA"] [] 3 = Ok o2 /\
    o1 <> o2.
Proof.
  vm_compute. eexists _, _. split; [reflexivity|]. split; [reflexivity|]. discriminate.
Qed.

(** C4: [>0 L:+:1:+] [AGT] and [>1 L:-:0:-] [GTC] with [k = 3]: the ids
    are [0, 1], the declared links are the 2-overlaps ([GT]) and the
    records are in the writer's form; reading then writing gives back the
    input text. *)
Lemma round_trip_on_canonical_overlap_inputs_witness :
  exists ds st',
    0 < 3 /\
    parse_records unit (fun _ => None)
      [fasta_record "0" "L:+:1:+" "AGT"; fasta_record "1" "L:-:0:-" "GTC"] []
    = Ok (ds, st') /\
    overlap_adjacency unit 3 ds st' /\
    canonical_records unit (fun _ => EmptyString) st'
      [fasta_record "0" "L:+:1:+" "AGT"; fasta_record "1" "L:-:0:-" "GTC"] ds /\
    read_then_write unit (fun _ => EmptyString)
      (read_bigraph_from_bcalm2_as_edge_centric unit (fun _ => None))
      [fasta_record "0" "L:+:1:+" "AGT"; fasta_record "1" "L:-:0:-" "GTC"] [] 3
    = Ok (records_text
            [fasta_record "0" "L:+:1:+" "AGT"; fasta_record "1" "L:-:0:-" "GTC"]).
Proof.
  destruct (parse_records unit (fun _ => None)
      [fasta_record "0" "L:+:1:+" "AGT"; fasta_record "1" "L:-:0:-" "GTC"] [])
    as [[ds st']| |] eqn:Hp; [|vm_compute in Hp; discriminate..].
  assert (Hov : overlap_adjacency unit 3 ds st').
  { apply overlap_adjacency_b_sound. vm_compute in Hp. injection Hp as <- <-.
    vm_compute. reflexivity. }
  assert (Hcan : canonical_records unit (fun _ => EmptyString) st'
      [fasta_record "0" "L:+:1:+" "AGT"; fasta_record "1" "L:-:0:-" "GTC"] ds).
  { vm_compute in Hp. injection Hp as <- <-.
    repeat constructor; [exists "L:+:1:+"%string | exists "L:-:0:-"%string];
      split; reflexivity. }
  exists ds, st'. split; [lia|]. split; [reflexivity|].
  split; [exact Hov|]. split; [exact Hcan|].
  exact (round_trip_on_canonical_overlap_inputs unit (fun _ => None) (fun _ => EmptyString)
           _ [] 3 ds st' ltac:(lia) Hp Hov Hcan).
Defined.

(** C4: three records with ids [0, 1, 2], in the writer's form, whose
    declared links are symmetric: [0+ -> 1+], [2+ -> 1+], [0+ -> 2+] and
    their mirrors.  The new reader merges the end of [0+], the end of
    [2+] and the starts of [1+] and [2+] into one node, so reading then
    writing adds the undeclared links [L:+:2:+] and [L:-:2:-] to record
    [2]: the output is not the input text. *)
Lemma round_trip_adds_links_counterexample :
  exists ds st' out,
    parse_records unit (fun _ => None)
      [fasta_record "0" "L:+:1:+ L:+:2:+" "AAA"; fasta_record "1" "L:-:0:- L:-:2:-" "AAA";
       fasta_record "2" "L:+:1:+ L:-:0:-" "AAA"] [] = Ok (ds, st') /\
    consecutive_ids unit ds = true /\ symmetric_adjacency unit ds = true /\
    canonical_records unit (fun _ => EmptyString) st'
      [fasta_record "0" "L:+:1:+ L:+:2:+" "AAA"; fasta_record "1" "L:-:0:- L:-:2:-" "AAA";
       fasta_record "2" "L:+:1:+ L:-:0:-" "AAA"] ds /\
    read_then_write unit (fun _ => EmptyString)
      (read_bigraph_from_bcalm2_as_edge_centric unit (fun _ => None))
      [fasta_record "0" "L:+:1:+ L:+:2:+" "AAA"; fasta_record "1" "L:-:0:- L:-:2:-" "AAA";
       fasta_record "2" "L:+:1:+ L:-:0:-" "AAA"] [] 3 = Ok out /\
    out <> records_text
      [fasta_record "0" "L:+:1:+ L:+:2:+" "AAA"; fasta_record "1" "L:-:0:- L:-:2:-" "AAA";
       fasta_record "2" "L:+:1:+ L:-:0:-" "AAA"].
Proof.
  eexists _, _, _. split; [vm_compute; reflexivity|].
  split; [vm_compute; reflexivity|]. split; [vm_compute; reflexivity|].
  split.
  { repeat constructor;
      [exists "L:+:1:+ L:+:2:+"%string | exists "L:-:0:- L:-:2:-"%string
      | exists "L:+:1:+ L:-:0:-"%string]; split; reflexivity. }
  split; [vm_compute; reflexivity|]. vm_compute. discriminate.
Qed.
(** X2: a node with id [7], length [3], abundance [12], a mean abundance
    printed as [1.0] and one link, and the sequence [ACG]. *)
Lemma written_record_parses_back_witness :
  exists desc,
    write_plain_bcalm2_node_data_to_bcalm2 unit (fun _ => "1.0"%string)
      {| id := 7; sequence_handle := 0; forwards := true; length := Some 3;
         total_abundance := Some 12; mean_abundance := Some tt; edges := [] |}
      [(true, 1, false)] = Ok desc /\
    parse_bcalm2_fasta_record unit (fun _ => Some tt)
      {| record_id := "7"; record_desc := Some desc;
         record_seq := map character_to_ascii [DA; DC; DG] |} [] =
    Ok ({| id := 7; sequence_handle := 0; forwards := true; length := Some 3;
           total_abundance := Some 12; mean_abundance := Some tt;
           edges := [{| from_side := true; to_node := 1; to_side := false |}] |},
        [[DA; DC; DG]]).
Proof.
  eexists. split; [reflexivity|].
  refine (written_record_parses_back unit (fun _ => Some tt) (fun _ => "1.0"%string)
            {| id := 7; sequence_handle := 0; forwards := true; length := Some 3;
               total_abundance := Some 12; mean_abundance := Some tt; edges := [] |}
            [(true, 1, false)] _ [DA; DC; DG] [] eq_refl _ _ _ _ _).
  - vm_compute. reflexivity.
  - intros l E. injection E as <-. split; [reflexivity | vm_compute; reflexivity].
  - intros k E. injection E as <-. vm_compute. reflexivity.
  - intros x _. split; [discriminate | reflexivity].
  - intros x [<- | []]. vm_compute. reflexivity.
Defined.

(** X4: [>0 L:+:1:+] [AGT] and [>1 L:-:0:-] [GTC] with [k = 3]. *)
Lemma edge_centric_reader_output_passes_checks_witness :
  exists g st',
    read_bigraph_from_bcalm2_as_edge_centric unit (fun _ => None)
      [fasta_record "0" "L:+:1:+" "AGT"; fasta_record "1" "L:-:0:-" "GTC"] [] 3
    = Ok (g, st') /\
    verify_node_pairing unit g = true /\ verify_edge_mirror_property unit g = true.
Proof.
  destruct (read_bigraph_from_bcalm2_as_edge_centric unit (fun _ => None)
      [fasta_record "0" "L:+:1:+" "AGT"; fasta_record "1" "L:-:0:-" "GTC"] [] 3)
    as [[g st']| |] eqn:H; [|vm_compute in H; discriminate..].
  exists g, st'. split; [reflexivity|].
  exact (edge_centric_reader_output_passes_checks unit (fun _ => None) _ [] st' 3 g H).
Defined.

(** X6: two generic nodes [0] (edge [+ -> 1+]) and [1] (edge [- -> 0-]),
    neither self-complemental, converted with the identity. *)
Lemma converted_graph_edges_witness :
  exists g,
    convert_generic_node_centric_bigraph_to_edge_centric unit (PlainBCalm2NodeData unit)
      (id unit) (fun _ => false) (edges unit) (fun x => x)
      [{| id := 0; sequence_handle := 0; forwards := true; length := None;
          total_abundance := None; mean_abundance := None;
          edges := [{| from_side := true; to_node := 1; to_side := true |}] |};
       {| id := 1; sequence_handle := 1; forwards := true; length := None;
          total_abundance := None; mean_abundance := None;
          edges := [{| from_side := false; to_node := 0; to_side := false |}] |}] = Ok g /\
    edge_count unit g = 2 * 2.
Proof.
  destruct (convert_generic_node_centric_bigraph_to_edge_centric unit (PlainBCalm2NodeData unit)
      (id unit) (fun _ => false) (edges unit) (fun x => x)
      [{| id := 0; sequence_handle := 0; forwards := true; length := None;
          total_abundance := None; mean_abundance := None;
          edges := [{| from_side := true; to_node := 1; to_side := true |}] |};
       {| id := 1; sequence_handle := 1; forwards := true; length := None;
          total_abundance := None; mean_abundance := None;
          edges := [{| from_side := false; to_node := 0; to_side := false |}] |}])
    as [g| |] eqn:H; [|vm_compute in H; discriminate..].
  exists g. split; [reflexivity|].
  exact (proj1 (converted_graph_edges unit _ _ _ _ _ _ g H)).
Defined.

(** X7: the same two generic nodes. *)
Lemma converted_graph_passes_checks_witness :
  exists g,
    convert_generic_node_centric_bigraph_to_edge_centric unit (PlainBCalm2NodeData unit)
      (id unit) (fun _ => false) (edges unit) (fun x => x)
      [{| id := 0; sequence_handle := 0; forwards := true; length := None;
          total_abundance := None; mean_abundance := None;
          edges := [{| from_side := true; to_node := 1; to_side := true |}] |};
       {| id := 1; sequence_handle := 1; forwards := true; length := None;
          total_abundance := None; mean_abundance := None;
          edges := [{| from_side := false; to_node := 0; to_side := false |}] |}] = Ok g /\
    verify_node_pairing unit g = true /\ verify_edge_mirror_property unit g = true.
Proof.
  destruct (convert_generic_node_centric_bigraph_to_edge_centric unit (PlainBCalm2NodeData unit)
      (id unit) (fun _ => false) (edges unit) (fun x => x)
      [{| id := 0; sequence_handle := 0; forwards := true; length := None;
          total_abundance := None; mean_abundance := None;
          edges := [{| from_side := true; to_node := 1; to_side := true |}] |};
       {| id := 1; sequence_handle := 1; forwards := true; length := None;
          total_abundance := None; mean_abundance := None;
          edges := [{| from_side := false; to_node := 0; to_side := false |}] |}])
    as [g| |] eqn:H; [|vm_compute in H; discriminate..].
  exists g. split; [reflexivity|].
  exact (converted_graph_passes_checks unit _ _ _ _ _ _ g H).
Defined.

(** X8: [>0 L:+:1:+] [AGT] and [>1 L:-:0:-] [GTC] with [k = 3]. *)
Lemma edge_centric_reader_is_generic_conversion_witness :
  exists ds st',
    3 <> 0 /\
    parse_records unit (fun _ => None)
      [fasta_record "0" "L:+:1:+" "AGT"; fasta_record "1" "L:-:0:-" "GTC"] [] = Ok (ds, st') /\
    read_bigraph_from_bcalm2_as_edge_centric unit (fun _ => None)
      [fasta_record "0" "L:+:1:+" "AGT"; fasta_record "1" "L:-:0:-" "GTC"] [] 3 =
    (g <- convert_generic_node_centric_bigraph_to_edge_centric unit (PlainBCalm2NodeData unit)
            (id unit) (fun d => edge_is_self_mirror 3 (record_sequence unit st' d))
            (edges unit) (fun x => x) ds ;;
     Ok (g, st')).
Proof.
  destruct (parse_records unit (fun _ => None)
      [fasta_record "0" "L:+:1:+" "AGT"; fasta_record "1" "L:-:0:-" "GTC"] [])
    as [[ds st']| |] eqn:Hp; [|vm_compute in Hp; discriminate..].
  exists ds, st'. split; [lia|]. split; [reflexivity|].
  exact (edge_centric_reader_is_generic_conversion unit (fun _ => None) _ [] 3 ds st'
           ltac:(lia) Hp).
Defined.

(** X11: two mutually mirrored nodes [0] and [1] joined by an edge each way. *)
Lemma node_centric_writer_writes_one_node_per_pair_witness :
  exists s,
    ng_paired unit
      {| node_entries :=
           [({| id := 0; sequence_handle := 0; forwards := true; length := None;
                total_abundance := None; mean_abundance := None; edges := [] |}, Some 1);
            ({| id := 1; sequence_handle := 1; forwards := false; length := None;
                total_abundance := None; mean_abundance := None; edges := [] |}, Some 0)];
         node_graph_edges := [(0, 1); (1, 0)] |} /\
    write_node_centric_bigraph_to_bcalm2 unit (fun _ => EmptyString)
      {| node_entries :=
           [({| id := 0; sequence_handle := 0; forwards := true; length := None;
                total_abundance := None; mean_abundance := None; edges := [] |}, Some 1);
            ({| id := 1; sequence_handle := 1; forwards := false; length := None;
                total_abundance := None; mean_abundance := None; edges := [] |}, Some 0)];
         node_graph_edges := [(0, 1); (1, 0)] |} [[DA]; [DC]] = Ok s /\
    exists recs, s = fold_right String.append EmptyString recs /\ List.length recs = 1.
Proof.
  assert (Hp : ng_paired unit
      {| node_entries :=
           [({| id := 0; sequence_handle := 0; forwards := true; length := None;
                total_abundance := None; mean_abundance := None; edges := [] |}, Some 1);
            ({| id := 1; sequence_handle := 1; forwards := false; length := None;
                total_abundance := None; mean_abundance := None; edges := [] |}, Some 0)];
         node_graph_edges := [(0, 1); (1, 0)] |}).
  { intros n Hn. vm_compute in Hn. destruct n as [|[|n]]; [exists 1 | exists 0 | lia];
      split; reflexivity. }
  destruct (write_node_centric_bigraph_to_bcalm2 unit (fun _ => EmptyString)
      {| node_entries :=
           [({| id := 0; sequence_handle := 0; forwards := true; length := None;
                total_abundance := None; mean_abundance := None; edges := [] |}, Some 1);
            ({| id := 1; sequence_handle := 1; forwards := false; length := None;
                total_abundance := None; mean_abundance := None; edges := [] |}, Some 0)];
         node_graph_edges := [(0, 1); (1, 0)] |} [[DA]; [DC]])
    as [s| |] eqn:H; [|vm_compute in H; discriminate..].
  exists s. split; [exact Hp|]. split; [reflexivity|].
  destruct (node_centric_writer_writes_one_node_per_pair unit (fun _ => EmptyString) _ _ s Hp H)
    as (recs & Hs & Hf).
  exists recs. split; [exact Hs|]. apply Forall2_length in Hf. rewrite <- Hf. reflexivity.
Defined.

(** X12: the same graph, and the graph whose node [1] has no mirror. *)
Lemma node_centric_writer_fails_only_without_mirror_node_witness :
  ng_well_formed unit
    {| node_entries :=
         [({| id := 0; sequence_handle := 0; forwards := true; length := None;
              total_abundance := None; mean_abundance := None; edges := [] |}, Some 1);
          ({| id := 1; sequence_handle := 1; forwards := false; length := None;
              total_abundance := None; mean_abundance := None; edges := [] |}, None)];
       node_graph_edges := [(0, 1); (1, 0)] |} /\
  write_node_centric_bigraph_to_bcalm2 unit (fun _ => EmptyString)
    {| node_entries :=
         [({| id := 0; sequence_handle := 0; forwards := true; length := None;
              total_abundance := None; mean_abundance := None; edges := [] |}, Some 1);
          ({| id := 1; sequence_handle := 1; forwards := false; length := None;
              total_abundance := None; mean_abundance := None; edges := [] |}, None)];
       node_graph_edges := [(0, 1); (1, 0)] |} [[DA]; [DC]] = Err BCalm2NodeWithoutMirror.
Proof.
  assert (Hw : ng_well_formed unit
    {| node_entries :=
         [({| id := 0; sequence_handle := 0; forwards := true; length := None;
              total_abundance := None; mean_abundance := None; edges := [] |}, Some 1);
          ({| id := 1; sequence_handle := 1; forwards := false; length := None;
              total_abundance := None; mean_abundance := None; edges := [] |}, None)];
       node_graph_edges := [(0, 1); (1, 0)] |}).
  { split.
    - intros n m H. unfold ng_mirror_node in H.
      destruct n as [|[|n]]; simpl in H; [injection H as <-; vm_compute; lia | discriminate |].
      rewrite nth_error_nil in H. discriminate.
    - intros e [<- | [<- | []]]; vm_compute; lia. }
  split; [exact Hw|].
  apply (proj2 (node_centric_writer_fails_only_without_mirror_node unit (fun _ => EmptyString)
                  _ [[DA]; [DC]] Hw)).
  exists 1. split; [vm_compute; lia | reflexivity].
Defined.

(** X13: [>0 L:+:1:+] [AGT] and [>1 L:-:0:-] [GTC] with [k = 3]. *)
Lemma read_write_reproduces_records_witness :
  exists s,
    read_then_write unit (fun _ => EmptyString)
      (read_bigraph_from_bcalm2_as_edge_centric unit (fun _ => None))
      [fasta_record "0" "L:+:1:+" "AGT"; fasta_record "1" "L:-:0:-" "GTC"] [] 3 = Ok s /\
    exists recs, s = fold_right String.append EmptyString recs /\ List.length recs = 2.
Proof.
  destruct (read_then_write unit (fun _ => EmptyString)
      (read_bigraph_from_bcalm2_as_edge_centric unit (fun _ => None))
      [fasta_record "0" "L:+:1:+" "AGT"; fasta_record "1" "L:-:0:-" "GTC"] [] 3)
    as [s| |] eqn:H; [|vm_compute in H; discriminate..].
  exists s. split; [reflexivity|].
  destruct (read_write_reproduces_records unit (fun _ => None) (fun _ => EmptyString)
              _ [] 3 s H) as (recs & Hs & Hf).
  exists recs. split; [exact Hs|]. apply Forall2_length in Hf. rewrite <- Hf. reflexivity.
Defined.
